(** * LuidFiles backend: chunked upload, quota ledger and share links

    A shallow embedding of the Motoko actor [src/backend/main.mo] and the
    properties of its chunked-transfer and storage-accounting engine.

    Conventions of the embedding:
    - Motoko [Nat] is [N]; [Nat32] ([UserId], [FileId]) is [N] below [2^32],
      and [+=] on it traps on overflow; [Int] is [Z]; [Text] is [string];
      [Blob] is a list of bytes.
    - [Map.empty/get/add/remove] of [mo:core/Map] are [gmap] with lookup,
      insert (which replaces) and delete.
    - The actor's mutable fields form the record [State]; every method is a
      computation [Exec A] that threads the state and may trap.  A trap of an
      update call discards the writes of that call ([call]).
    - [Time.now()] is constant during one message and is passed as [now].
    - The queries [listUsers] and [listFiles] and the three profile helpers
      at the end of the actor read the state without writing it and play no
      part below; the blob-storage and authorization mixins keep a state of
      their own. *)

From Stdlib Require Import NArith ZArith Strings.Byte Strings.Ascii.
From stdpp Require Import base option list gmap strings pretty sorting.

Local Open Scope N_scope.

(** ** Types *)

Abbreviation UserId := N (only parsing).
Abbreviation FileId := N (only parsing).
Abbreviation SessionToken := string (only parsing).
Abbreviation Blob := (list byte) (only parsing).
Abbreviation Chunk := (list byte) (only parsing).

Inductive Role := Master | Staff | Client.

Inductive UploadStatus := Pending | Complete.

#[global] Instance Role_eq_dec : EqDecision Role.
Proof. solve_decision. Defined.

#[global] Instance UploadStatus_eq_dec : EqDecision UploadStatus.
Proof. solve_decision. Defined.

Module UserProfile.
Record t := mk {
  id : UserId;
  username : string;
  role : Role;
  quota : N;
  usedBytes : N;
  gbAllocation : N }.
End UserProfile.

Module InternalUser.
Record t := mk {
  id : UserId;
  username : string;
  passwordHash : string;
  role : Role;
  gbAllocation : N;
  quota : N;
  usedBytes : N }.

(** [{ u with usedBytes = n }] *)
Definition with_usedBytes (u : t) (n : N) : t :=
  mk (id u) (username u) (passwordHash u) (role u) (gbAllocation u) (quota u) n.

(** [{ u with role }] *)
Definition with_role (u : t) (r : Role) : t :=
  mk (id u) (username u) (passwordHash u) r (gbAllocation u) (quota u) (usedBytes u).

(** [{ u with gbAllocation = g; quota = q }] *)
Definition with_gb_quota (u : t) (g q : N) : t :=
  mk (id u) (username u) (passwordHash u) (role u) g q (usedBytes u).
End InternalUser.

Module File.
Record t := mk {
  fileId : FileId;
  owner : UserId;
  filename : string;
  mimeType : string;
  totalSize : N;
  totalChunks : N;
  status : UploadStatus;
  created : Z;
  shareToken : option string }.

(** [{ f with status = st }] *)
Definition with_status (f : t) (st : UploadStatus) : t :=
  mk (fileId f) (owner f) (filename f) (mimeType f) (totalSize f)
     (totalChunks f) st (created f) (shareToken f).

(** [{ f with shareToken = tok }] *)
Definition with_shareToken (f : t) (tok : option string) : t :=
  mk (fileId f) (owner f) (filename f) (mimeType f) (totalSize f)
     (totalChunks f) (status f) (created f) tok.
End File.

Module Session.
Record t := mk {
  userId : UserId;
  token : SessionToken;
  created : Z;
  lastActive : Z }.
End Session.

(** The result record of [downloadFile]. *)
Module Download.
Record t := mk {
  data : Blob;
  mimeType : string;
  filename : string }.
End Download.

(** ** The actor state *)

Record State := mkState {
  users : gmap N InternalUser.t;
  usersByName : gmap string N;
  files : gmap N File.t;
  chunks : gmap string (list byte);
  sessions : gmap string Session.t;
  shareTokens : gmap string N;
  userIdCounter : UserId;
  fileIdCounter : FileId }.

Definition set_users (f : gmap N InternalUser.t → gmap N InternalUser.t) (s : State) : State :=
  mkState (f (users s)) (usersByName s) (files s) (chunks s) (sessions s)
          (shareTokens s) (userIdCounter s) (fileIdCounter s).

Definition set_usersByName (f : gmap string N → gmap string N) (s : State) : State :=
  mkState (users s) (f (usersByName s)) (files s) (chunks s) (sessions s)
          (shareTokens s) (userIdCounter s) (fileIdCounter s).

Definition set_files (f : gmap N File.t → gmap N File.t) (s : State) : State :=
  mkState (users s) (usersByName s) (f (files s)) (chunks s) (sessions s)
          (shareTokens s) (userIdCounter s) (fileIdCounter s).

Definition set_chunks (f : gmap string (list byte) → gmap string (list byte)) (s : State) : State :=
  mkState (users s) (usersByName s) (files s) (f (chunks s)) (sessions s)
          (shareTokens s) (userIdCounter s) (fileIdCounter s).

Definition set_sessions (f : gmap string Session.t → gmap string Session.t) (s : State) : State :=
  mkState (users s) (usersByName s) (files s) (chunks s) (f (sessions s))
          (shareTokens s) (userIdCounter s) (fileIdCounter s).

Definition set_shareTokens (f : gmap string N → gmap string N) (s : State) : State :=
  mkState (users s) (usersByName s) (files s) (chunks s) (sessions s)
          (f (shareTokens s)) (userIdCounter s) (fileIdCounter s).

Definition set_userIdCounter (n : N) (s : State) : State :=
  mkState (users s) (usersByName s) (files s) (chunks s) (sessions s)
          (shareTokens s) n (fileIdCounter s).

Definition set_fileIdCounter (n : N) (s : State) : State :=
  mkState (users s) (usersByName s) (files s) (chunks s) (sessions s)
          (shareTokens s) (userIdCounter s) n.

(** ** Computations that thread the state and may trap *)

Inductive Outcome (A : Type) : Type :=
| Done (a : A)
| Trap (msg : string).
Arguments Done {A} a.
Arguments Trap {A} msg.

(** A computation returns its outcome together with the state it had reached:
    for [Trap] that is the state at the moment of the trap. *)
Definition Exec (A : Type) : Type := State → Outcome A * State.

Definition ret {A} (a : A) : Exec A := λ s, (Done a, s).

Definition bind {A B} (m : Exec A) (k : A → Exec B) : Exec B :=
  λ s, match m s with
       | (Done a, s') => k a s'
       | (Trap msg, s') => (Trap msg, s')
       end.

(** [Runtime.trap(msg)] *)
Definition trap {A} (msg : string) : Exec A := λ s, (Trap msg, s).

Definition gets {A} (f : State → A) : Exec A := λ s, (Done (f s), s).

Definition modify (f : State → State) : Exec unit := λ s, (Done tt, f s).

Notation "'let*' x ':=' m 'in' k" := (bind m (λ x, k))
  (at level 10, x name, m at level 100, k at level 200, only parsing).
Notation "'exec' m 'in' k" := (bind m (λ _, k))
  (at level 10, m at level 100, k at level 200, only parsing).

(** [if (c) { Runtime.trap(msg) };] *)
Definition trap_if (c : bool) (msg : string) : Exec unit :=
  if c then trap msg else ret tt.

(** [for (i in it) { body }] with a loop-carried local variable [acc]. *)
Fixpoint for_in {A} (it : list N) (body : N → A → Exec A) (acc : A) : Exec A :=
  match it with
  | [] => ret acc
  | i :: rest => let* acc' := body i acc in for_in rest body acc'
  end.

(** An update call commits its writes unless it traps. *)
Definition call {A} (m : Exec A) (s : State) : Outcome A * State :=
  match m s with
  | (Done a, s') => (Done a, s')
  | (Trap msg, _) => (Trap msg, s)
  end.

(** A query call never commits. *)
Definition query {A} (m : Exec A) (s : State) : Outcome A := fst (m s).

(** ** Library functions used by the actor *)

(** [Nat.range(fromInclusive, toExclusive)] *)
Definition Nat_range (fromInclusive toExclusive : N) : list N :=
  N.of_nat <$> seq (N.to_nat fromInclusive) (N.to_nat toExclusive - N.to_nat fromInclusive)%nat.

(** [Nat.toText], [Nat32.toText]: decimal digits. *)
Definition Nat_toText (n : N) : string := pretty n.

(** [Int.toText]: decimal digits, with a leading minus for negatives. *)
Definition Int_toText (z : Z) : string := pretty z.

Definition Nat32_max : N := 4294967295.

Definition ArithmeticOverflow : string := "arithmetic overflow".

(** [x += 1] on a [Nat32] variable traps when the result does not fit. *)
Definition Nat32_succ (x : N) : Exec N :=
  if x + 1 <=? Nat32_max then ret (x + 1) else trap ArithmeticOverflow.

(** [Blob.fromArray(parts.map(Blob.toArray).flatten())] *)
Definition flatten (parts : list (list byte)) : list byte := concat parts.

(** ** Trap messages *)

Definition InvalidSession : string := "Unauthorized: Invalid or expired session token".
Definition SessionUserNotFound : string := "Unauthorized: User not found for session".
Definition NotMaster : string := "Unauthorized: Only Master role can perform this action".
Definition NotMasterOrStaff : string := "Unauthorized: Only Master or Staff roles can perform this action".
Definition NotOwner : string := "Unauthorized: Not the file owner".
Definition NoCredentials : string := "Unauthorized: Provide a session or share token".
Definition UnauthorizedPlain : string := "Unauthorized".
Definition FileNotFound : string := "File not found".
Definition QuotaExceeded : string := "Storage quota exceeded".
Definition NoChunksFound : string := "No chunks found. Cannot assemble file.".
Definition MissingChunk (i : N) : string := "Missing chunk: " +:+ Nat_toText i.

(** The error kind [Unauthorized]: the messages that start with that word. *)
Definition Unauthorized (msg : string) : Prop := ∃ rest, msg = "Unauthorized" +:+ rest.

(** ** Helpers of the actor *)

Definition hashPassword (password : string) : string := password.

Definition createToken (now : Z) (seed : string) : SessionToken :=
  let timestamp := Int_toText now in
  seed +:+ timestamp +:+ timestamp.

Definition chunkKey (fileId : FileId) (index : N) : string :=
  Nat_toText fileId +:+ "_" +:+ Nat_toText index.

Definition requireSession (token : SessionToken) : Exec InternalUser.t :=
  let* ss := gets sessions in
  match ss !! token with
  | None => trap InvalidSession
  | Some session =>
      let* us := gets users in
      match us !! Session.userId session with
      | None => trap SessionUserNotFound
      | Some user => ret user
      end
  end.

Definition requireMaster (token : SessionToken) : Exec InternalUser.t :=
  let* user := requireSession token in
  exec trap_if (bool_decide (InternalUser.role user ≠ Master)) NotMaster in
  ret user.

Definition requireMasterOrStaff (token : SessionToken) : Exec InternalUser.t :=
  let* user := requireSession token in
  exec trap_if (bool_decide (InternalUser.role user ≠ Master)
                && bool_decide (InternalUser.role user ≠ Staff)) NotMasterOrStaff in
  ret user.

Definition toPublicProfile (u : InternalUser.t) : UserProfile.t :=
  UserProfile.mk (InternalUser.id u) (InternalUser.username u) (InternalUser.role u)
    (InternalUser.quota u) (InternalUser.usedBytes u) (InternalUser.gbAllocation u).

Definition nextUserId : Exec UserId :=
  let* c := gets userIdCounter in
  let* c' := Nat32_succ c in
  exec modify (set_userIdCounter c') in
  ret c'.

Definition nextFileId : Exec FileId :=
  let* c := gets fileIdCounter in
  let* c' := Nat32_succ c in
  exec modify (set_fileIdCounter c') in
  ret c'.

(** The test [f.owner != user.id and user.role != #Master and user.role != #Staff]
    that guards [uploadChunk], [finalizeUpload], [deleteFile] and
    [generateShareLink]. *)
Definition notPermitted (f : File.t) (user : InternalUser.t) : bool :=
  bool_decide (File.owner f ≠ InternalUser.id user)
  && bool_decide (InternalUser.role user ≠ Master)
  && bool_decide (InternalUser.role user ≠ Staff).

(** ** Actor initialisation: the seeded master account *)

Definition empty_state : State :=
  mkState ∅ ∅ ∅ ∅ ∅ ∅ 0 0.

Definition seed : Exec unit :=
  let* masterId := nextUserId in
  let masterUser :=
    InternalUser.mk masterId "SidneiCosta00" (hashPassword "Nikebolado@4")
                    Master 0 5000000000 0 in
  exec modify (set_users (<[masterId := masterUser]>)) in
  modify (set_usersByName (<["SidneiCosta00" := masterId]>)).

Definition init_state : State := snd (seed empty_state).

(** ** Authentication *)

Definition InvalidCredentials : string := "Invalid username or password".
Definition UsernameTaken : string := "Username already taken".
Definition UserNotFound : string := "User not found".

Definition login (now : Z) (username password : string) : Exec SessionToken :=
  let* byName := gets usersByName in
  match byName !! username with
  | None => trap InvalidCredentials
  | Some uid =>
      let* us := gets users in
      match us !! uid with
      | None => trap InvalidCredentials
      | Some user =>
          exec trap_if (bool_decide (InternalUser.passwordHash user ≠ hashPassword password))
                       InvalidCredentials in
          let token := createToken now (username +:+ password +:+ Int_toText now) in
          let session := Session.mk (InternalUser.id user) token now now in
          exec modify (set_sessions (<[token := session]>)) in
          ret token
      end
  end.

Definition logout (token : SessionToken) : Exec unit :=
  modify (set_sessions (delete token)).

Definition validateSession (token : SessionToken) : Exec (Role * string) :=
  let* user := requireSession token in
  ret (InternalUser.role user, InternalUser.username user).

Definition getMe (token : SessionToken) : Exec UserProfile.t :=
  let* user := requireSession token in
  ret (toPublicProfile user).

Definition registerUser (username password : string) : Exec UserId :=
  let* byName := gets usersByName in
  exec (match byName !! username with
        | Some _ => trap UsernameTaken
        | None => ret tt
        end) in
  let* uid := nextUserId in
  let newUser :=
    InternalUser.mk uid username (hashPassword password) Client 5 5000000000 0 in
  exec modify (set_users (<[uid := newUser]>)) in
  exec modify (set_usersByName (<[username := uid]>)) in
  ret uid.

(** ** User management *)

Definition createUser (token : SessionToken) (username password : string) (role : Role)
  : Exec UserId :=
  let* actor_ := requireMasterOrStaff token in
  exec trap_if (bool_decide (InternalUser.role actor_ = Staff) && bool_decide (role ≠ Client))
               "Unauthorized: Staff can only create Client accounts" in
  let* byName := gets usersByName in
  exec (match byName !! username with
        | Some _ => trap UsernameTaken
        | None => ret tt
        end) in
  let* uid := nextUserId in
  let defaultQuota : N := match role with Client => 5000000000 | _ => 5000000000 end in
  let defaultGbAllocation : N := match role with Client => 5 | _ => 0 end in
  let newUser :=
    InternalUser.mk uid username (hashPassword password) role
                    defaultGbAllocation defaultQuota 0 in
  exec modify (set_users (<[uid := newUser]>)) in
  exec modify (set_usersByName (<[username := uid]>)) in
  ret uid.

Definition deleteUser (token : SessionToken) (userId : UserId) : Exec unit :=
  let* actor_ := requireMasterOrStaff token in
  let* us := gets users in
  match us !! userId with
  | None => trap UserNotFound
  | Some u =>
      exec trap_if (bool_decide (InternalUser.role actor_ = Staff)
                    && bool_decide (InternalUser.role u ≠ Client))
                   "Unauthorized: Staff can only delete Client accounts" in
      exec trap_if (bool_decide (InternalUser.role u = Master))
                   "Unauthorized: Cannot delete Master account" in
      exec modify (set_usersByName (delete (InternalUser.username u))) in
      modify (set_users (delete userId))
  end.

Definition updateUserRole (token : SessionToken) (userId : UserId) (role : Role) : Exec unit :=
  let* _u := requireMaster token in
  let* us := gets users in
  match us !! userId with
  | None => trap UserNotFound
  | Some u =>
      exec trap_if (bool_decide (InternalUser.role u = Master))
                   "Unauthorized: Cannot change the role of the Master account" in
      modify (set_users (<[userId := InternalUser.with_role u role]>))
  end.

Definition updateUserGbLimit (token : SessionToken) (userId : UserId) (gbLimit : N) : Exec unit :=
  let* _u := requireMasterOrStaff token in
  let* us := gets users in
  match us !! userId with
  | None => trap UserNotFound
  | Some u =>
      exec trap_if (bool_decide (InternalUser.role u ≠ Client))
                   "Can only set GB limit for Client accounts" in
      modify (set_users (<[userId := InternalUser.with_gb_quota u gbLimit (gbLimit * 1000000000)]>))
  end.

Definition getUserStorageStats (token : SessionToken) (userId : UserId) : Exec (N * N * N) :=
  let* _u := requireMasterOrStaff token in
  let* us := gets users in
  match us !! userId with
  | None => trap UserNotFound
  | Some u => ret (InternalUser.quota u, InternalUser.usedBytes u, InternalUser.gbAllocation u)
  end.

Definition getMyStorageStats (token : SessionToken) : Exec (N * N * N) :=
  let* user := requireSession token in
  ret (InternalUser.quota user, InternalUser.usedBytes user, InternalUser.gbAllocation user).

(** [map.values()] of [mo:core/Map] iterates in ascending key order. *)
Definition key_le {A} (x y : N * A) : Prop := x.1 ≤ y.1.

#[global] Instance key_le_dec {A} : RelDecision (@key_le A).
Proof. intros x y. unfold key_le. apply _. Defined.

Definition values_by_key {A} (m : gmap N A) : list A :=
  (merge_sort key_le (map_to_list m)).*2.

Definition listUsers (token : SessionToken) : Exec (list UserProfile.t) :=
  let* _u := requireMasterOrStaff token in
  let* us := gets users in
  ret (toPublicProfile <$> values_by_key us).

(** ** Chunked upload *)

Definition initUpload (now : Z) (token : SessionToken) (filename mimeType : string)
    (totalSize totalChunks : N) : Exec FileId :=
  let* user := requireSession token in
  exec trap_if (InternalUser.quota user <? InternalUser.usedBytes user + totalSize)
               QuotaExceeded in
  let* fid := nextFileId in
  let f := File.mk fid (InternalUser.id user) filename mimeType totalSize totalChunks
                   Pending now None in
  exec modify (set_files (<[fid := f]>)) in
  ret fid.

Definition uploadChunk (token : SessionToken) (fileId : FileId) (chunkIndex : N)
    (chunkData : Chunk) : Exec N :=
  let* user := requireSession token in
  let* fs := gets files in
  match fs !! fileId with
  | None => trap FileNotFound
  | Some f =>
      exec trap_if (notPermitted f user) NotOwner in
      exec modify (set_chunks (<[chunkKey fileId chunkIndex := chunkData]>)) in
      for_in (Nat_range 0 (File.totalChunks f))
        (λ i count,
           let* cs := gets chunks in
           match cs !! chunkKey fileId i with
           | Some _ => ret (count + 1)
           | None => ret count
           end)
        0
  end.

Definition finalizeUpload (token : SessionToken) (fileId : FileId) : Exec unit :=
  let* user := requireSession token in
  let* fs := gets files in
  match fs !! fileId with
  | None => trap FileNotFound
  | Some f =>
      exec trap_if (notPermitted f user) NotOwner in
      exec for_in (Nat_range 0 (File.totalChunks f))
             (λ i _,
                let* cs := gets chunks in
                match cs !! chunkKey fileId i with
                | None => trap (MissingChunk i)
                | Some _ => ret tt
                end)
             tt in
      exec modify (set_files (<[fileId := File.with_status f Complete]>)) in
      let* us := gets users in
      match us !! File.owner f with
      | None => ret tt
      | Some owner =>
          modify (set_users (<[File.owner f :=
            InternalUser.with_usedBytes owner (InternalUser.usedBytes owner + File.totalSize f)]>))
      end
  end.

(** ** File functions *)

Definition listFiles (token : SessionToken) : Exec (list File.t) :=
  let* user := requireSession token in
  let* fs := gets files in
  if bool_decide (InternalUser.role user = Master) || bool_decide (InternalUser.role user = Staff)
  then ret (values_by_key fs)
  else ret (filter (λ f, File.owner f = InternalUser.id user) (values_by_key fs)).

(** Lines 447-458 of [downloadFile]: collect the chunks [0 .. totalChunks-1]
    in index order and concatenate them. *)
Definition assemble (f : File.t) (fileId : FileId) : Exec Download.t :=
  let* parts :=
    for_in (Nat_range 0 (File.totalChunks f))
      (λ i (parts : list (list byte)),
         let* cs := gets chunks in
         match cs !! chunkKey fileId i with
         | None => trap (MissingChunk i)
         | Some c => ret (parts ++ [c])
         end)
      [] in
  exec trap_if (bool_decide (parts = [])) NoChunksFound in
  let data := flatten parts in
  ret (Download.mk data (File.mimeType f) (File.filename f)).

Definition downloadFile (fileId : FileId) (token : option SessionToken)
    (shareToken : option string) : Exec Download.t :=
  let* fs := gets files in
  match fs !! fileId with
  | None => trap FileNotFound
  | Some f =>
      let* sts := gets shareTokens in
      let authorised :=
        match shareToken with
        | Some st =>
            match sts !! st with
            | Some fid => if bool_decide (fid = fileId) then true else false
            | None => false
            end
        | None => false
        end in
      let* authorised :=
        (if negb authorised then
           match token with
           | None => trap NoCredentials
           | Some t =>
               let* user := requireSession t in
               if bool_decide (File.owner f = InternalUser.id user)
                  || bool_decide (InternalUser.role user = Master)
                  || bool_decide (InternalUser.role user = Staff)
               then ret true
               else trap NotOwner
           end
         else ret authorised) in
      exec trap_if (negb authorised) UnauthorizedPlain in
      assemble f fileId
  end.

Definition deleteFile (token : SessionToken) (fileId : FileId) : Exec unit :=
  let* user := requireSession token in
  let* fs := gets files in
  match fs !! fileId with
  | None => trap FileNotFound
  | Some f =>
      exec trap_if (notPermitted f user) NotOwner in
      exec for_in (Nat_range 0 (File.totalChunks f))
             (λ i _, modify (set_chunks (delete (chunkKey fileId i))))
             tt in
      exec (match File.shareToken f with
            | Some st => modify (set_shareTokens (delete st))
            | None => ret tt
            end) in
      exec modify (set_files (delete fileId)) in
      let* us := gets users in
      match us !! File.owner f with
      | None => ret tt
      | Some owner =>
          let newUsed :=
            if File.totalSize f <=? InternalUser.usedBytes owner
            then InternalUser.usedBytes owner - File.totalSize f
            else 0 in
          modify (set_users (<[File.owner f := InternalUser.with_usedBytes owner newUsed]>))
      end
  end.

Definition generateShareLink (now : Z) (token : SessionToken) (fileId : FileId)
  : Exec string :=
  let* user := requireSession token in
  let* fs := gets files in
  match fs !! fileId with
  | None => trap FileNotFound
  | Some f =>
      exec trap_if (notPermitted f user) NotOwner in
      match File.shareToken f with
      | Some st => ret st
      | None =>
          let st := createToken now ("share" +:+ Nat_toText fileId +:+ Int_toText now) in
          exec modify (set_files (<[fileId := File.with_shareToken f (Some st)]>)) in
          exec modify (set_shareTokens (<[st := fileId]>)) in
          ret st
      end
  end.

(** ** The browser client: the upload hook ([hooks/useChunkedUpload.ts])

    The hook cuts a file into chunks, calls [initUpload], sends the chunks
    in batches of [CONCURRENT_CHUNKS] concurrent [uploadChunk] calls, and
    calls [finalizeUpload].  A file is its list of bytes; sizes and indices
    are JavaScript numbers that hold integers below [2^53], modelled as [N]. *)

Definition CHUNK_SIZE : N := 2 * 1024 * 1024.
Definition CONCURRENT_CHUNKS : N := 3.

(** [Math.ceil(file.size / CHUNK_SIZE)].  [CHUNK_SIZE] is a power of two, so
    the floating-point quotient of an integer below [2^53] is exact. *)
Definition chunks_needed (size : N) : N := (size + (CHUNK_SIZE - 1)) / CHUNK_SIZE.

(** [file.slice(start, end)] for natural [start] and [end_]. *)
Definition slice (bytes : list byte) (start end_ : N) : list byte :=
  take (N.to_nat end_ - N.to_nat start) (drop (N.to_nat start) bytes).

(** The end offset and the buffer the hook prepares for chunk [i]. *)
Definition chunk_end (bytes : list byte) (i : N) : N :=
  N.min (i * CHUNK_SIZE + CHUNK_SIZE) (N.of_nat (length bytes)).

Definition chunk_data (bytes : list byte) (i : N) : list byte :=
  slice bytes (i * CHUNK_SIZE) (chunk_end bytes i).

(** [for (batchStart = 0; batchStart < totalChunks; batchStart += CONCURRENT_CHUNKS)]
    with the [batchIndices] of each round; [fuel] bounds the rounds. *)
Fixpoint batches (fuel : nat) (batchStart totalChunks : N) : list (list N) :=
  match fuel with
  | O => []
  | S fuel' =>
      if batchStart <? totalChunks then
        let batchEnd := N.min (batchStart + CONCURRENT_CHUNKS) totalChunks in
        let batchIndices := Nat_range batchStart batchEnd in
        batchIndices :: batches fuel' (batchStart + CONCURRENT_CHUNKS) totalChunks
      else []
  end.

(** [file.type || 'application/octet-stream'] *)
Definition type_or_default (type : string) : string :=
  if bool_decide (type = "") then "application/octet-stream" else type.

(** The [uploadChunk] calls of the whole upload, batch after batch, each
    batch in index order. *)
Definition chunk_uploads (bytes : list byte) : list (N * list byte) :=
  let totalChunks := chunks_needed (N.of_nat (length bytes)) in
  (λ i, (i, chunk_data bytes i)) <$> concat (batches (N.to_nat totalChunks) 0 totalChunks).

(** ** The browser client: the chunk cache ([utils/chunkCache.ts]) and the
    hooks that use it ([useStreamingDownload], [useLogout], [useDeleteFile])

    The cache is a module-level [Map] from the text [`${fileId}_${chunkIndex}`]
    to a blob.  File ids and indices are JavaScript numbers that hold
    integers ([-1] marks a whole file). *)

(** [Number.MAX_SAFE_INTEGER] and [Number.isSafeInteger] on integers. *)
Definition MAX_SAFE_INTEGER : Z := 2 ^ 53 - 1.

Definition safe_integer (n : Z) : Prop := (- MAX_SAFE_INTEGER ≤ n ≤ MAX_SAFE_INTEGER)%Z.

(** [`${n}`] for a safe integer [n]: its decimal digits.  Beyond the safe
    integers JavaScript prints the shortest digits that read back as the
    same double, which this function does not do: it is used under
    [safe_integer] only. *)
Definition Number_toString (n : Z) : string := pretty n.

Definition cacheKey (fileId chunkIndex : Z) : string :=
  Number_toString fileId +:+ "_" +:+ Number_toString chunkIndex.

(** The error of a hook that runs before [useActor] has handed out the actor. *)
Definition ActorNotAvailable : string := "Actor not available".

Section chunkCache.
Context {B : Type}.

Definition getCachedChunk (chunkMap : gmap string B) (fileId chunkIndex : Z) : option B :=
  chunkMap !! cacheKey fileId chunkIndex.

Definition setCachedChunk (chunkMap : gmap string B) (fileId chunkIndex : Z) (blob : B)
  : gmap string B :=
  <[cacheKey fileId chunkIndex := blob]> chunkMap.

Definition clearChunkCache (chunkMap : gmap string B) : gmap string B := ∅.

(** The data path of [download] in [useStreamingDownload].  [actor] tells
    whether the hook has the actor: without it the hook reports
    [ActorNotAvailable] and does nothing else, before it looks at the cache.
    With it, a blob cached under [(fileId, -1)] is handed to the browser
    without asking the backend; otherwise [downloadFile] is called and, when
    it succeeds, its result is turned into a blob by [mkBlob], cached, and
    handed over.  The result is the blob and file name given to the browser,
    or the error (for a rejected call, the trap message of the backend), and
    the cache afterwards. *)
Definition download (mkBlob : Download.t → string → B) (actor : bool) (s : State)
    (chunkMap : gmap string B) (fileId : N) (token shareToken : option string)
    (filename mimeType : string)
  : Outcome (B * string) * gmap string B :=
  if negb actor then (Trap ActorNotAvailable, chunkMap)
  else
    match getCachedChunk chunkMap (Z.of_N fileId) (-1) with
    | Some cached => (Done (cached, filename), chunkMap)
    | None =>
        match query (downloadFile fileId token shareToken) s with
        | Done result =>
            let blob := mkBlob result mimeType in
            (Done (blob, if bool_decide (Download.filename result = "") then filename
                         else Download.filename result),
             setCachedChunk chunkMap (Z.of_N fileId) (-1) blob)
        | Trap msg => (Trap msg, chunkMap)
        end
    end.

(** [useLogout] and [useDeleteFile] of [hooks/useQueries.ts]: without the
    actor the mutation fails with [ActorNotAvailable] before any call;
    otherwise the backend is called and, in [onSuccess] only,
    [clearChunkCache()] runs.  The result is the outcome of the mutation, the
    backend state and the cache afterwards. *)
Definition useLogout (actor : bool) (s : State) (chunkMap : gmap string B)
    (token : SessionToken) : Outcome unit * State * gmap string B :=
  if negb actor then (Trap ActorNotAvailable, s, chunkMap)
  else
    match call (logout token) s with
    | (Done r, s') => (Done r, s', clearChunkCache chunkMap)
    | (Trap msg, s') => (Trap msg, s', chunkMap)
    end.

Definition useDeleteFile (actor : bool) (s : State) (chunkMap : gmap string B)
    (token : SessionToken) (fileId : FileId) : Outcome unit * State * gmap string B :=
  if negb actor then (Trap ActorNotAvailable, s, chunkMap)
  else
    match call (deleteFile token fileId) s with
    | (Done r, s') => (Done r, s', clearChunkCache chunkMap)
    | (Trap msg, s') => (Trap msg, s', chunkMap)
    end.

End chunkCache.

(** ** Notions used to state the properties *)

(** A valid session: [requireSession token] finds the session and its user. *)
Definition valid_session (s : State) (token : SessionToken) (user : InternalUser.t) : Prop :=
  ∃ session, sessions s !! token = Some session
             ∧ users s !! Session.userId session = Some user.

(** The caller is the owner of the file or has an elevated role. *)
Definition permitted (f : File.t) (user : InternalUser.t) : Prop :=
  File.owner f = InternalUser.id user
  ∨ InternalUser.role user = Master
  ∨ InternalUser.role user = Staff.

(** Chunk [i] of file [fileId] is in the chunk map. *)
Definition present (s : State) (fileId : FileId) (i : N) : Prop :=
  is_Some (chunks s !! chunkKey fileId i).

(** The share token [shareToken] resolves to [fileId] in the share-token map. *)
Definition resolves (s : State) (shareToken : option string) (fileId : FileId) : Prop :=
  ∃ st, shareToken = Some st ∧ shareTokens s !! st = Some fileId.

(** The state a committed update call leaves behind. *)
Definition commit {A} (m : Exec A) (s : State) : State := snd (call m s).

(** No record is stored under an id that [nextFileId] has not handed out yet. *)
Definition files_below_counter (s : State) : Prop :=
  ∀ fid, fileIdCounter s < fid → files s !! fid = None.

(** Every binding of the share-token map is recorded in the file it points to. *)
Definition share_bindings_recorded (s : State) : Prop :=
  ∀ st fid, shareTokens s !! st = Some fid →
            ∃ f, files s !! fid = Some f ∧ File.shareToken f = Some st.

(** No user is stored under an id that [nextUserId] has not handed out yet. *)
Definition users_below_counter (s : State) : Prop :=
  ∀ uid, userIdCounter s < uid → users s !! uid = None.

(** The two user maps describe the same accounts: every user is stored under
    its own id and listed under its name, and every listed name leads to the
    user of that name. *)
Definition directory_consistent (s : State) : Prop :=
  (∀ uid u, users s !! uid = Some u →
            InternalUser.id u = uid
            ∧ usersByName s !! InternalUser.username u = Some uid)
  ∧ (∀ name uid, usersByName s !! name = Some uid →
                 ∃ u, users s !! uid = Some u ∧ InternalUser.username u = name).

(** The text [s] contains no underscore. *)
Definition no_sep (s : string) : Prop :=
  ∀ s1 s2 : string, s ≠ s1 +:+ String "_"%char s2.

(** Master and Staff are the elevated roles. *)
Definition elevated (u : InternalUser.t) : Prop :=
  InternalUser.role u = Master ∨ InternalUser.role u = Staff.

(** The token [login] hands out at time [now]. *)
Definition login_token (now : Z) (username password : string) : SessionToken :=
  createToken now (username +:+ password +:+ Int_toText now).

(** ** The effect of the file operations *)

(** The file record [initUpload] creates. *)
Definition pending_file (now : Z) (user : InternalUser.t) (fid : FileId)
    (filename mimeType : string) (totalSize totalChunks : N) : File.t :=
  File.mk fid (InternalUser.id user) filename mimeType totalSize totalChunks Pending now None.

(** The progress count of [uploadChunk] as a function of the chunk map. *)
Definition present_count (fileId : FileId) (cs : gmap string (list byte))
    (it : list N) (count : N) : N :=
  fold_left (λ c i, match cs !! chunkKey fileId i with Some _ => c + 1 | None => c end)
            it count.

(** The state [finalizeUpload] commits for the file record [f]. *)
Definition finalized (fileId : FileId) (f : File.t) (s : State) : State :=
  let s1 := set_files (<[fileId := File.with_status f Complete]>) s in
  match users s !! File.owner f with
  | None => s1
  | Some owner =>
      set_users (<[File.owner f :=
        InternalUser.with_usedBytes owner (InternalUser.usedBytes owner + File.totalSize f)]>) s1
  end.

(** The chunk map after the removal loop of [deleteFile]. *)
Definition remove_keys (fileId : FileId) (it : list N)
    (cs : gmap string (list byte)) : gmap string (list byte) :=
  fold_left (λ m i, delete (chunkKey fileId i) m) it cs.

(** The state [deleteFile] commits for the file record [f]. *)
Definition deleted (fileId : FileId) (f : File.t) (s : State) : State :=
  let s1 := set_chunks (remove_keys fileId (Nat_range 0 (File.totalChunks f))) s in
  let s2 := match File.shareToken f with
            | Some st => set_shareTokens (delete st) s1
            | None => s1
            end in
  let s3 := set_files (delete fileId) s2 in
  match users s !! File.owner f with
  | None => s3
  | Some owner =>
      let newUsed :=
        if File.totalSize f <=? InternalUser.usedBytes owner
        then InternalUser.usedBytes owner - File.totalSize f
        else 0 in
      set_users (<[File.owner f := InternalUser.with_usedBytes owner newUsed]>) s3
  end.

(** The token [generateShareLink] makes for a file that has none. *)
Definition fresh_share_token (now : Z) (fileId : FileId) : string :=
  createToken now ("share" +:+ Nat_toText fileId +:+ Int_toText now).

(** A client uploads the chunks [ups] one call after the other. *)
Definition upload_all (token : SessionToken) (fileId : FileId)
    (ups : list (N * list byte)) (s : State) : State :=
  fold_left (λ st up, commit (uploadChunk token fileId up.1 up.2) st) ups s.

(** ** The actor as a transition system *)

(** The update calls of the actor. *)
Inductive Call :=
| Login (now : Z) (username password : string)
| Logout (token : SessionToken)
| RegisterUser (username password : string)
| CreateUser (token : SessionToken) (username password : string) (role : Role)
| DeleteUser (token : SessionToken) (userId : UserId)
| UpdateUserRole (token : SessionToken) (userId : UserId) (role : Role)
| UpdateUserGbLimit (token : SessionToken) (userId : UserId) (gbLimit : N)
| InitUpload (now : Z) (token : SessionToken) (filename mimeType : string)
             (totalSize totalChunks : N)
| UploadChunk (token : SessionToken) (fileId : FileId) (chunkIndex : N) (chunkData : list byte)
| FinalizeUpload (token : SessionToken) (fileId : FileId)
| DeleteFile (token : SessionToken) (fileId : FileId)
| GenerateShareLink (now : Z) (token : SessionToken) (fileId : FileId).

(** The state after one call has been processed and committed (or rolled back). *)
Definition step (c : Call) (s : State) : State :=
  match c with
  | Login now username password => commit (login now username password) s
  | Logout token => commit (logout token) s
  | RegisterUser username password => commit (registerUser username password) s
  | CreateUser token username password role =>
      commit (createUser token username password role) s
  | DeleteUser token userId => commit (deleteUser token userId) s
  | UpdateUserRole token userId role => commit (updateUserRole token userId role) s
  | UpdateUserGbLimit token userId gbLimit =>
      commit (updateUserGbLimit token userId gbLimit) s
  | InitUpload now token filename mimeType totalSize totalChunks =>
      commit (initUpload now token filename mimeType totalSize totalChunks) s
  | UploadChunk token fileId chunkIndex chunkData =>
      commit (uploadChunk token fileId chunkIndex chunkData) s
  | FinalizeUpload token fileId => commit (finalizeUpload token fileId) s
  | DeleteFile token fileId => commit (deleteFile token fileId) s
  | GenerateShareLink now token fileId => commit (generateShareLink now token fileId) s
  end.

Definition run (cs : list Call) (s : State) : State :=
  fold_left (λ st c, step c st) cs s.

Inductive reachable : State → Prop :=
| reachable_init : reachable init_state
| reachable_step (c : Call) (s : State) : reachable s → reachable (step c s).

(** The ledger invariant of the specification: nobody is over quota. *)
Definition quota_respected (s : State) : Prop :=
  ∀ uid u, users s !! uid = Some u → InternalUser.usedBytes u ≤ InternalUser.quota u.

(** The two calls that write to the ledger without checking the quota:
    [finalizeUpload] adds [totalSize] to the owner, [updateUserGbLimit]
    replaces the quota.  [fits c s] says the value written by [c] stays
    within the quota. *)
Definition fits (c : Call) (s : State) : Prop :=
  match c with
  | FinalizeUpload _ fileId =>
      ∀ f owner, files s !! fileId = Some f → users s !! File.owner f = Some owner →
                 InternalUser.usedBytes owner + File.totalSize f ≤ InternalUser.quota owner
  | UpdateUserGbLimit _ userId gbLimit =>
      ∀ u, users s !! userId = Some u → InternalUser.usedBytes u ≤ gbLimit * 1000000000
  | _ => True
  end.

(** What one committed call [c] can do to the accounts, that is to [users],
    [usersByName] and [userIdCounter]: nothing; rewrite one account, keeping
    its id, name and password, and its role unless a Master changes the role
    of a non-Master; open a new account under the next id and a free name;
    or close an account that is not a Master's. *)
Inductive accounts_change (c : Call) (s s' : State) : Prop :=
| accounts_same :
    users s' = users s → usersByName s' = usersByName s →
    userIdCounter s' = userIdCounter s →
    accounts_change c s s'
| accounts_rewrite (uid : UserId) (u u' : InternalUser.t) :
    users s !! uid = Some u →
    users s' = <[uid := u']> (users s) → usersByName s' = usersByName s →
    userIdCounter s' = userIdCounter s →
    InternalUser.id u' = InternalUser.id u →
    InternalUser.username u' = InternalUser.username u →
    InternalUser.passwordHash u' = InternalUser.passwordHash u →
    (InternalUser.role u' = InternalUser.role u
     ∨ ∃ token role actor_,
         c = UpdateUserRole token uid role ∧ valid_session s token actor_
         ∧ InternalUser.role actor_ = Master ∧ InternalUser.role u ≠ Master
         ∧ InternalUser.role u' = role) →
    accounts_change c s s'
| accounts_open (name password : string) (role : Role) (gb : N) :
    usersByName s !! name = None → userIdCounter s < Nat32_max →
    users s' = <[userIdCounter s + 1 :=
                 InternalUser.mk (userIdCounter s + 1) name password role gb 5000000000 0]>
               (users s) →
    usersByName s' = <[name := userIdCounter s + 1]> (usersByName s) →
    userIdCounter s' = userIdCounter s + 1 →
    (role = Client
     ∨ ∃ token actor_,
         c = CreateUser token name password role ∧ valid_session s token actor_
         ∧ elevated actor_ ∧ (InternalUser.role actor_ = Staff → role = Client)) →
    accounts_change c s s'
| accounts_close (token : SessionToken) (uid : UserId) (actor_ u : InternalUser.t) :
    c = DeleteUser token uid → valid_session s token actor_ → elevated actor_ →
    users s !! uid = Some u → InternalUser.role u ≠ Master →
    (InternalUser.role actor_ = Staff → InternalUser.role u = Client) →
    users s' = delete uid (users s) →
    usersByName s' = delete (InternalUser.username u) (usersByName s) →
    userIdCounter s' = userIdCounter s →
    accounts_change c s s'.

(** ** A small concrete system for the examples *)

Definition alice : InternalUser.t := InternalUser.mk 2 "alice" "pw-a" Client 5 10 0.
Definition bob : InternalUser.t := InternalUser.mk 3 "bob" "pw-b" Client 5 10 0.
Definition carol : InternalUser.t := InternalUser.mk 4 "carol" "pw-c" Staff 0 10 0.

(** Alice's pending upload: 6 bytes in 3 chunks. *)
Definition report : File.t := File.mk 1 2 "report.txt" "text/plain" 6 3 Pending 0 None.

Definition demo_state : State :=
  mkState
    {[ 2 := alice; 3 := bob; 4 := carol ]}
    {[ "alice" := 2; "bob" := 3; "carol" := 4 ]}
    {[ 1 := report ]}
    ∅
    {[ "tok-a" := Session.mk 2 "tok-a" 0 0;
       "tok-b" := Session.mk 3 "tok-b" 0 0;
       "tok-c" := Session.mk 4 "tok-c" 0 0 ]}
    ∅
    4 1.

Definition chunk0 : list byte := [x61; x62].
Definition chunk1 : list byte := [x63; x64].
Definition chunk2 : list byte := [x65; x66].

(** The three chunks of the report, uploaded out of order. *)
Definition demo_uploaded : State :=
  upload_all "tok-a" 1 [(1, chunk1); (0, chunk0); (2, chunk2)] demo_state.

(** The demo system after Alice has shared her report at time 5. *)
Definition demo_shared : State := commit (generateShareLink 5 "tok-a" 1) demo_uploaded.

(** The shared report finalized twice: 12 bytes are charged to Alice for
    the 6 bytes of the file. *)
Definition demo_credited_twice : State :=
  commit (finalizeUpload "tok-a" 1) (commit (finalizeUpload "tok-a" 1) demo_shared).

(** Alice also declares a file of 4 bytes in no chunks at all. *)
Definition demo_empty : State :=
  commit (initUpload 0 "tok-a" "empty.txt" "text/plain" 4 0) demo_state.

(** A blob of the browser, as its bytes and its type:
    [new Blob([bytes], { type: result.mimeType || mimeType })], for a result
    whose bytes fill their buffer. *)
Definition demo_blob (result : Download.t) (mimeType : string) : list byte * string :=
  (Download.data result,
   if bool_decide (Download.mimeType result = "") then mimeType else Download.mimeType result).

(** The blob of Alice's report, and the cache that holds it. *)
Definition report_blob : list byte * string :=
  demo_blob (Download.mk (chunk0 ++ chunk1 ++ chunk2) "text/plain" "report.txt")
    "application/pdf".

Definition report_cached : gmap string (list byte * string) :=
  setCachedChunk ∅ 1 (-1) report_blob.

(** Dave registers, logs in, and starts two uploads of 3 GB each while
    nothing is credited yet; both are completed afterwards. *)
Definition dave_token : SessionToken := createToken 0 ("dave" +:+ "pw-d" +:+ Int_toText 0).

Definition dave : InternalUser.t := InternalUser.mk 2 "dave" "pw-d" Client 5 5000000000 0.

(** The actor after Dave has registered and logged in. *)
Definition dave_logged_in : State :=
  run [RegisterUser "dave" "pw-d"; Login 0 "dave" "pw-d"] init_state.

(** One round of churn: the holder of [token] declares an empty file and
    deletes it again.  Each round uses up a file id. *)
Definition churn (token : SessionToken) (s : State) : State :=
  step (DeleteFile token (fileIdCounter s + 1))
    (step (InitUpload 0 token "tmp.bin" "application/octet-stream" 0 0) s).

(** The actor after Dave has gone through as many rounds as there are
    [Nat32] file ids. *)
Definition ids_used_up : State := N.iter Nat32_max (churn dave_token) dave_logged_in.

Definition two_uploads : list Call :=
  [ RegisterUser "dave" "pw-d";
    Login 0 "dave" "pw-d";
    InitUpload 1 dave_token "a.bin" "application/octet-stream" 3000000000 1;
    InitUpload 2 dave_token "b.bin" "application/octet-stream" 3000000000 1;
    UploadChunk dave_token 1 0 chunk0;
    UploadChunk dave_token 2 0 chunk1;
    FinalizeUpload dave_token 1;
    FinalizeUpload dave_token 2 ].

(** Dave completes one upload of 3 GB; then the master logs in and lowers
    Dave's allocation to 1 GB. *)
Definition master_token : SessionToken :=
  createToken 9 ("SidneiCosta00" +:+ "Nikebolado@4" +:+ Int_toText 9).

Definition quota_lowered : list Call :=
  [ RegisterUser "dave" "pw-d";
    Login 0 "dave" "pw-d";
    InitUpload 1 dave_token "a.bin" "application/octet-stream" 3000000000 1;
    UploadChunk dave_token 1 0 chunk0;
    FinalizeUpload dave_token 1;
    Login 9 "SidneiCosta00" "Nikebolado@4";
    UpdateUserGbLimit master_token 2 1 ].

(** * Properties *)

(** ** Basic facts: ranges, chunk keys, sessions *)

Lemma Nat_range_0_succ (n : N) :
  Nat_range 0 (N.succ n) = Nat_range 0 n ++ [n].
Proof.
  unfold Nat_range. rewrite !Nat.sub_0_r, N2Nat.inj_succ. simpl N.to_nat.
  rewrite seq_S, fmap_app. simpl. by rewrite N2Nat.id.
Qed.

Lemma elem_of_Nat_range (i a b : N) : i ∈ Nat_range a b ↔ a ≤ i < b.
Proof.
  unfold Nat_range. rewrite list_elem_of_fmap. split.
  - intros (k & -> & Hk). apply elem_of_seq in Hk. lia.
  - intros Hi. exists (N.to_nat i). split; [by rewrite N2Nat.id|].
    apply elem_of_seq. lia.
Qed.

Lemma Nat_range_0_of_nat (n : nat) : Nat_range 0 (N.of_nat n) = N.of_nat <$> seq 0 n.
Proof. unfold Nat_range. by rewrite Nat.sub_0_r, Nat2N.id. Qed.

Lemma chunkKey_inj_index (fileId : FileId) (i j : N) :
  chunkKey fileId i = chunkKey fileId j → i = j.
Proof.
  unfold chunkKey, Nat_toText. intros H.
  apply (inj (String.app _)) in H. apply (inj (String.app _)) in H.
  by apply (inj pretty) in H.
Qed.

Lemma chunkKey_ne (fileId : FileId) (i j : N) :
  i ≠ j → chunkKey fileId i ≠ chunkKey fileId j.
Proof. intros Hne H. by apply Hne, (chunkKey_inj_index fileId). Qed.

Lemma requireSession_valid (s : State) token user :
  valid_session s token user → requireSession token s = (Done user, s).
Proof.
  intros (session & Hs & Hu). unfold requireSession, bind, gets. simpl.
  by rewrite Hs, Hu.
Qed.

Lemma requireSession_Done (s s' : State) token user :
  requireSession token s = (Done user, s') → valid_session s token user ∧ s' = s.
Proof.
  unfold requireSession, bind, gets, trap, ret. simpl.
  destruct (sessions s !! token) as [session|] eqn:Hs; [|done].
  destruct (users s !! Session.userId session) as [u|] eqn:Hu; [|done].
  intros [= -> ->]. split; [by exists session|done].
Qed.

Lemma requireSession_Trap (s s' : State) token msg :
  requireSession token s = (Trap msg, s') →
  s' = s ∧ (msg = InvalidSession ∨ msg = SessionUserNotFound)
  ∧ ∀ user, ¬ valid_session s token user.
Proof.
  unfold requireSession, bind, gets, trap, ret. simpl.
  destruct (sessions s !! token) as [session|] eqn:Hs.
  - destruct (users s !! Session.userId session) as [u|] eqn:Hu; [done|].
    intros [= <- <-]. split_and!; [done|by right|].
    intros user (session' & Hs' & Hu'). congruence.
  - intros [= <- <-]. split_and!; [done|by left|].
    intros user (session' & Hs' & _). congruence.
Qed.

Lemma valid_session_same (s s' : State) token user :
  sessions s' = sessions s → users s' = users s →
  valid_session s token user → valid_session s' token user.
Proof. intros Hs Hu (session & ? & ?). exists session. by rewrite Hs, Hu. Qed.

Lemma notPermitted_false (f : File.t) (user : InternalUser.t) :
  notPermitted f user = false ↔ permitted f user.
Proof.
  unfold notPermitted, permitted.
  rewrite !andb_false_iff, !bool_decide_eq_false. split.
  - intros [[H|H]|H]; apply dec_stable in H; tauto.
  - intros [H|[H|H]]; [left; left|left; right|right]; by intros Hn.
Qed.

Lemma notPermitted_true (f : File.t) (user : InternalUser.t) :
  notPermitted f user = true ↔ ¬ permitted f user.
Proof.
  rewrite <-notPermitted_false. by destruct (notPermitted f user).
Qed.

(** ** The three loops over [Nat.range(0, f.totalChunks)] *)

Lemma for_in_snoc {A} (it : list N) (x : N) (body : N → A → Exec A) (acc : A) (s : State) :
  for_in (it ++ [x]) body acc s
  = (let* acc' := for_in it body acc in body x acc') s.
Proof.
  revert acc s. induction it as [|i it IH]; intros acc s; simpl.
  - unfold bind, ret. by destruct (body x acc s) as [[a|msg] s1].
  - unfold bind. destruct (body i acc s) as [[a|msg] s1]; [|reflexivity].
    rewrite IH. reflexivity.
Qed.

Section loops.
Context (s : State) (fileId : FileId).

(** The completeness scan of [finalizeUpload]. *)
Let scan : N → unit → Exec unit :=
  λ i _, let* cs := gets chunks in
         match cs !! chunkKey fileId i with
         | None => trap (MissingChunk i)
         | Some _ => ret tt
         end.

Lemma scan_range (n : N) :
  ((∀ i, i < n → present s fileId i)
   ∧ for_in (Nat_range 0 n) scan tt s = (Done tt, s))
  ∨ (∃ k, k < n ∧ ¬ present s fileId k ∧ (∀ j, j < k → present s fileId j)
          ∧ for_in (Nat_range 0 n) scan tt s = (Trap (MissingChunk k), s)).
Proof.
  induction n as [|n IH] using N.peano_ind.
  - left. split; [lia|done].
  - rewrite Nat_range_0_succ, for_in_snoc. unfold bind.
    destruct IH as [[Hall ->]|(k & Hk & Hmiss & Hlow & ->)].
    + unfold scan, bind, gets, present in *. simpl.
      destruct (chunks s !! chunkKey fileId n) as [c|] eqn:Hn.
      * left. split; [|done]. intros i Hi.
        destruct (decide (i = n)) as [->|]; [by rewrite Hn|apply Hall; lia].
      * right. exists n. rewrite Hn. split_and!; [lia|by intros [? [=]]|exact Hall|reflexivity].
    + right. exists k. split_and!; [lia|done..].
Qed.

Lemma scan_all_present (n : N) :
  (∀ i, i < n → present s fileId i) →
  for_in (Nat_range 0 n) scan tt s = (Done tt, s).
Proof.
  intros Hall. destruct (scan_range n) as [[_ ?]|(k & Hk & Hmiss & _)]; [done|].
  destruct Hmiss. by apply Hall.
Qed.

Lemma scan_first_missing (n k : N) :
  k < n → ¬ present s fileId k → (∀ j, j < k → present s fileId j) →
  for_in (Nat_range 0 n) scan tt s = (Trap (MissingChunk k), s).
Proof.
  intros Hk Hmiss Hlow.
  destruct (scan_range n) as [[Hall _]|(k' & Hk' & Hmiss' & Hlow' & ->)].
  { destruct Hmiss. by apply Hall. }
  destruct (N.lt_trichotomy k k') as [?|[->|?]]; [|done|].
  - destruct Hmiss. by apply Hlow'.
  - destruct Hmiss'. by apply Hlow.
Qed.

(** The progress count of [uploadChunk]. *)
Let count_body : N → N → Exec N :=
  λ i count, let* cs := gets chunks in
             match cs !! chunkKey fileId i with
             | Some _ => ret (count + 1)
             | None => ret count
             end.

Lemma count_loop (it : list N) (count : N) :
  for_in it count_body count s = (Done (present_count fileId (chunks s) it count), s).
Proof.
  revert count. induction it as [|i it IH]; intros count; [done|].
  simpl. unfold bind at 1. unfold count_body at 1, bind, gets. simpl.
  destruct (chunks s !! chunkKey fileId i); unfold ret; apply IH.
Qed.

(** The assembly loop of [downloadFile]. *)
Let collect : N → list (list byte) → Exec (list (list byte)) :=
  λ i parts, let* cs := gets chunks in
             match cs !! chunkKey fileId i with
             | None => trap (MissingChunk i)
             | Some c => ret (parts ++ [c])
             end.

Lemma collect_seq (blobs acc : list (list byte)) (a : nat) :
  (∀ i b, blobs !! i = Some b →
          chunks s !! chunkKey fileId (N.of_nat (a + i)) = Some b) →
  for_in (N.of_nat <$> seq a (length blobs)) collect acc s = (Done (acc ++ blobs), s).
Proof.
  revert acc a. induction blobs as [|b blobs IH]; intros acc a Hst; simpl.
  - by rewrite app_nil_r.
  - unfold bind at 1. unfold collect at 1, bind, gets. simpl.
    pose proof (Hst 0%nat b eq_refl) as H0. rewrite Nat.add_0_r in H0.
    rewrite H0. unfold ret.
    replace (acc ++ b :: blobs) with ((acc ++ [b]) ++ blobs) by (by rewrite <-app_assoc).
    apply (IH (acc ++ [b]) (S a)).
    intros i b' Hi. rewrite Nat.add_succ_l, <-Nat.add_succ_r. by apply (Hst (S i)).
Qed.

Lemma collect_range (blobs : list (list byte)) (n : N) :
  N.of_nat (length blobs) = n →
  (∀ i b, blobs !! i = Some b → chunks s !! chunkKey fileId (N.of_nat i) = Some b) →
  for_in (Nat_range 0 n) collect [] s = (Done blobs, s).
Proof.
  intros <- Hst. rewrite Nat_range_0_of_nat. by apply (collect_seq blobs [] 0).
Qed.

(** With a missing chunk the assembly loop traps like the scan does. *)
Lemma collect_range_cases (n : N) (acc : list (list byte)) :
  (∃ blobs, length blobs = N.to_nat n
            ∧ (∀ i, i < n → chunks s !! chunkKey fileId i = blobs !! N.to_nat i)
            ∧ for_in (Nat_range 0 n) collect acc s = (Done (acc ++ blobs), s))
  ∨ (∃ k, k < n ∧ ¬ present s fileId k ∧ (∀ j, j < k → present s fileId j)
          ∧ for_in (Nat_range 0 n) collect acc s = (Trap (MissingChunk k), s)).
Proof.
  induction n as [|n IH] using N.peano_ind.
  - left. exists []. split_and!; [done|lia|by rewrite app_nil_r].
  - rewrite Nat_range_0_succ, for_in_snoc. unfold bind.
    destruct IH as [(blobs & Hlen & Hst & ->)|(k & Hk & Hmiss & Hlow & ->)].
    + unfold collect, bind, gets, present in *. simpl.
      destruct (chunks s !! chunkKey fileId n) as [c|] eqn:Hn.
      * left. exists (blobs ++ [c]). split_and!.
        -- rewrite length_app. simpl. lia.
        -- intros i Hi. destruct (decide (i = n)) as [->|].
           ++ rewrite Hn, lookup_app_r by lia.
              by replace (N.to_nat n - length blobs)%nat with 0%nat by lia.
           ++ rewrite Hst by lia. rewrite lookup_app_l by lia. done.
        -- by rewrite app_assoc.
      * right. exists n. rewrite Hn.
        split_and!; [lia|by intros [? [=]]| |done].
        intros j Hj. rewrite Hst by done. apply lookup_lt_is_Some. lia.
    + right. exists k. split_and!; [lia|done..].
Qed.

(** The removal loop of [deleteFile]. *)
Let remove_body : N → unit → Exec unit :=
  λ i _, modify (set_chunks (delete (chunkKey fileId i))).

Lemma remove_loop (it : list N) (s0 : State) :
  for_in it remove_body tt s0 = (Done tt, set_chunks (remove_keys fileId it) s0).
Proof.
  revert s0. induction it as [|i it IH]; intros s0; simpl.
  - by destruct s0.
  - unfold bind at 1. unfold remove_body at 1, modify. rewrite IH. by destruct s0.
Qed.

Lemma remove_keys_removed (it : list N) (cs : gmap string (list byte)) (i : N) :
  i ∈ it → remove_keys fileId it cs !! chunkKey fileId i = None.
Proof.
  revert cs. induction it as [|j it IH]; intros cs Hi; [by apply elem_of_nil in Hi|].
  simpl. destruct (decide (i ∈ it)) as [Hin|Hnin]; [by apply IH|].
  apply elem_of_cons in Hi as [->|]; [|done].
  clear IH. revert cs. induction it as [|j' it IH]; intros cs; simpl.
  - apply lookup_delete_eq.
  - rewrite not_elem_of_cons in Hnin. destruct Hnin as [Hne Hnin].
    rewrite delete_delete. by apply IH.
Qed.

Lemma remove_keys_kept (it : list N) (cs : gmap string (list byte)) (key : string) :
  (∀ i, i ∈ it → key ≠ chunkKey fileId i) →
  remove_keys fileId it cs !! key = cs !! key.
Proof.
  revert cs. induction it as [|j it IH]; intros cs Hk; [done|]. simpl.
  fold (remove_keys fileId it (delete (chunkKey fileId j) cs)).
  rewrite IH by (intros i Hi; apply Hk; by right).
  apply lookup_delete_ne. intros Heq. by apply (Hk j); [left|].
Qed.

(** The loops read the chunk map only at the keys of their range. *)
Lemma present_count_agree (cs1 cs : gmap string (list byte)) (it : list N) (count : N) :
  (∀ j, j ∈ it → cs1 !! chunkKey fileId j = cs !! chunkKey fileId j) →
  present_count fileId cs1 it count = present_count fileId cs it count.
Proof.
  revert count. induction it as [|j it IH]; intros count Hag; [done|]. simpl.
  rewrite (Hag j) by left. apply IH. intros j' Hj'. apply Hag. by right.
Qed.

Lemma collect_agree (s1 : State) (it : list N) (acc : list (list byte)) :
  (∀ j, j ∈ it → chunks s1 !! chunkKey fileId j = chunks s !! chunkKey fileId j) →
  for_in it collect acc s1 = ((for_in it collect acc s).1, s1).
Proof.
  revert acc. induction it as [|j it IH]; intros acc Hag; [done|]. simpl.
  assert (Hstep : ∀ st, collect j acc st
            = match chunks st !! chunkKey fileId j with
              | Some c => (Done (acc ++ [c]), st)
              | None => (Trap (MissingChunk j), st)
              end).
  { intros st. unfold collect, bind, gets. simpl.
    by destruct (chunks st !! chunkKey fileId j). }
  unfold bind. rewrite !Hstep, (Hag j) by left.
  destruct (chunks s !! chunkKey fileId j) as [c|]; [|done].
  apply IH. intros j' Hj'. apply Hag. by right.
Qed.

End loops.

(** ** Stepping through a computation *)

Lemma bind_Done {A B} (m : Exec A) (k : A → Exec B) (s s' : State) (a : A) :
  m s = (Done a, s') → bind m k s = k a s'.
Proof. unfold bind. by intros ->. Qed.

Lemma bind_Trap {A B} (m : Exec A) (k : A → Exec B) (s s' : State) (msg : string) :
  m s = (Trap msg, s') → bind m k s = (Trap msg, s').
Proof. unfold bind. by intros ->. Qed.

Lemma bind_gets {A B} (f : State → A) (k : A → Exec B) (s : State) :
  bind (gets f) k s = k (f s) s.
Proof. reflexivity. Qed.

Lemma bind_ret {A B} (a : A) (k : A → Exec B) (s : State) :
  bind (ret a) k s = k a s.
Proof. reflexivity. Qed.

Lemma bind_modify {B} (f : State → State) (k : unit → Exec B) (s : State) :
  bind (modify f) k s = k tt (f s).
Proof. reflexivity. Qed.

Lemma bind_trap_if_false {B} (msg : string) (k : unit → Exec B) (s : State) :
  bind (trap_if false msg) k s = k tt s.
Proof. reflexivity. Qed.

Lemma bind_trap_if_true {B} (msg : string) (k : unit → Exec B) (s : State) :
  bind (trap_if true msg) k s = (Trap msg, s).
Proof. reflexivity. Qed.

Lemma call_Done {A} (m : Exec A) (s s' : State) (a : A) :
  m s = (Done a, s') → call m s = (Done a, s').
Proof. unfold call. by intros ->. Qed.

Lemma call_Trap {A} (m : Exec A) (s s' : State) (msg : string) :
  m s = (Trap msg, s') → call m s = (Trap msg, s).
Proof. unfold call. by intros ->. Qed.

Lemma MissingChunk_inj (i j : N) : MissingChunk i = MissingChunk j → i = j.
Proof.
  unfold MissingChunk, Nat_toText. intros H.
  apply (inj (String.app _)) in H. by apply (inj pretty) in H.
Qed.

Lemma MissingChunk_not_Unauthorized (i : N) : ¬ Unauthorized (MissingChunk i).
Proof. intros [rest H]. discriminate H. Qed.

Lemma NotOwner_Unauthorized : Unauthorized NotOwner.
Proof. by exists ": Not the file owner". Qed.

(** Starts a method that begins with [requireSession] and [files.get]. *)
Ltac enter Hv Hf :=
  rewrite (bind_Done _ _ _ _ _ (requireSession_valid _ _ _ Hv)), bind_gets, Hf.

(** ** finalizeUpload *)

Section finalize.
Context (s : State) (token : SessionToken) (user : InternalUser.t)
        (fileId : FileId) (f : File.t).
Hypothesis Hvalid : valid_session s token user.
Hypothesis Hfile : files s !! fileId = Some f.

Lemma finalizeUpload_not_permitted :
  ¬ permitted f user → finalizeUpload token fileId s = (Trap NotOwner, s).
Proof.
  intros Hp. apply notPermitted_true in Hp.
  unfold finalizeUpload. enter Hvalid Hfile. by rewrite Hp.
Qed.

Lemma finalizeUpload_all_present :
  permitted f user →
  (∀ i, i < File.totalChunks f → present s fileId i) →
  finalizeUpload token fileId s = (Done tt, finalized fileId f s).
Proof.
  intros Hp Hall. apply notPermitted_false in Hp.
  unfold finalizeUpload. enter Hvalid Hfile. rewrite Hp, bind_trap_if_false.
  rewrite (bind_Done _ _ _ _ _ (scan_all_present s fileId _ Hall)).
  rewrite bind_modify, bind_gets. unfold finalized. simpl.
  by destruct (users s !! File.owner f).
Qed.

Lemma finalizeUpload_first_missing (k : N) :
  permitted f user →
  k < File.totalChunks f → ¬ present s fileId k → (∀ j, j < k → present s fileId j) →
  finalizeUpload token fileId s = (Trap (MissingChunk k), s).
Proof.
  intros Hp Hk Hmiss Hlow. apply notPermitted_false in Hp.
  unfold finalizeUpload. enter Hvalid Hfile. rewrite Hp, bind_trap_if_false.
  by rewrite (bind_Trap _ _ _ _ _ (scan_first_missing s fileId _ k Hk Hmiss Hlow)).
Qed.

(** Either every chunk is there, or there is a lowest missing one. *)
Lemma complete_or_first_missing (n : N) :
  (∀ i, i < n → present s fileId i)
  ∨ (∃ k, k < n ∧ ¬ present s fileId k ∧ (∀ j, j < k → present s fileId j)).
Proof.
  destruct (scan_range s fileId n) as [[Hall _]|(k & Hk & Hmiss & Hlow & _)].
  - by left.
  - right. by exists k.
Qed.

End finalize.

Lemma finalized_file (fileId : FileId) (f : File.t) (s : State) :
  files (finalized fileId f s) !! fileId = Some (File.with_status f Complete).
Proof.
  unfold finalized. destruct (users s !! File.owner f); simpl; apply lookup_insert_eq.
Qed.

(** ** uploadChunk *)

Lemma uploadChunk_permitted (s : State) token user fileId f (i : N) (d : list byte) :
  valid_session s token user → files s !! fileId = Some f → permitted f user →
  uploadChunk token fileId i d s
  = (Done (present_count fileId (<[chunkKey fileId i := d]> (chunks s))
             (Nat_range 0 (File.totalChunks f)) 0),
     set_chunks (<[chunkKey fileId i := d]>) s).
Proof.
  intros Hv Hf Hp. apply notPermitted_false in Hp.
  unfold uploadChunk. enter Hv Hf. rewrite Hp, bind_trap_if_false, bind_modify.
  exact (count_loop (set_chunks (<[chunkKey fileId i := d]>) s) fileId
           (Nat_range 0 (File.totalChunks f)) 0).
Qed.

Lemma uploadChunk_not_permitted (s : State) token user fileId f (i : N) (d : list byte) :
  valid_session s token user → files s !! fileId = Some f → ¬ permitted f user →
  uploadChunk token fileId i d s = (Trap NotOwner, s).
Proof.
  intros Hv Hf Hp. apply notPermitted_true in Hp.
  unfold uploadChunk. enter Hv Hf. by rewrite Hp.
Qed.




(** The end-to-end scenario of the specification on the demo system: a
    6-byte file in three chunks uploaded in the order 1, 0, 2. *)
Example end_to_end :
  let s1 := commit (uploadChunk "tok-a" 1 1 chunk1) demo_state in
  let s2 := commit (uploadChunk "tok-a" 1 0 chunk0) s1 in
  let s3 := commit (uploadChunk "tok-a" 1 2 chunk2) s2 in
  let s4 := commit (finalizeUpload "tok-a" 1) s3 in
  let s5 := commit (deleteFile "tok-a" 1) s4 in
  (call (uploadChunk "tok-a" 1 1 chunk1) demo_state).1 = Done 1
  ∧ (call (uploadChunk "tok-a" 1 0 chunk0) s1).1 = Done 2
  ∧ (call (uploadChunk "tok-a" 1 2 chunk2) s2).1 = Done 3
  ∧ (call (finalizeUpload "tok-a" 1) s2).1 = Trap (MissingChunk 2)
  ∧ (call (finalizeUpload "tok-a" 1) s3).1 = Done tt
  ∧ InternalUser.usedBytes <$> users s4 !! 2 = Some 6
  ∧ query (downloadFile 1 (Some "tok-a") None) s4
    = Done (Download.mk (chunk0 ++ chunk1 ++ chunk2) "text/plain" "report.txt")
  ∧ InternalUser.usedBytes <$> users s5 !! 2 = Some 0
  ∧ files s5 !! 1 = None.
Proof. vm_compute. repeat split. Qed.

(** ** initUpload *)

Lemma nextFileId_next (s : State) :
  fileIdCounter s < Nat32_max →
  nextFileId s = (Done (fileIdCounter s + 1), set_fileIdCounter (fileIdCounter s + 1) s).
Proof.
  intros Hc. unfold nextFileId, Nat32_succ, bind, gets. simpl.
  assert ((fileIdCounter s + 1 <=? Nat32_max) = true) as -> by (apply N.leb_le; lia).
  reflexivity.
Qed.

Lemma nextFileId_overflow (s : State) :
  Nat32_max ≤ fileIdCounter s → nextFileId s = (Trap ArithmeticOverflow, s).
Proof.
  intros Hc. unfold nextFileId, Nat32_succ, bind, gets. simpl.
  assert ((fileIdCounter s + 1 <=? Nat32_max) = false) as -> by (apply N.leb_gt; lia).
  reflexivity.
Qed.

Section initUpload.
Context (now : Z) (s : State) (token : SessionToken) (user : InternalUser.t)
        (filename mimeType : string) (totalSize totalChunks : N).
Hypothesis Hvalid : valid_session s token user.

Lemma initUpload_over_quota :
  InternalUser.quota user < InternalUser.usedBytes user + totalSize →
  initUpload now token filename mimeType totalSize totalChunks s = (Trap QuotaExceeded, s).
Proof.
  intros Hq. unfold initUpload.
  rewrite (bind_Done _ _ _ _ _ (requireSession_valid _ _ _ Hvalid)).
  apply N.ltb_lt in Hq. by rewrite Hq.
Qed.

Lemma initUpload_within_quota :
  InternalUser.usedBytes user + totalSize ≤ InternalUser.quota user →
  fileIdCounter s < Nat32_max →
  initUpload now token filename mimeType totalSize totalChunks s
  = (Done (fileIdCounter s + 1),
     set_files (<[fileIdCounter s + 1 :=
                  pending_file now user (fileIdCounter s + 1) filename mimeType
                               totalSize totalChunks]>)
               (set_fileIdCounter (fileIdCounter s + 1) s)).
Proof.
  intros Hq Hc. unfold initUpload.
  rewrite (bind_Done _ _ _ _ _ (requireSession_valid _ _ _ Hvalid)).
  apply N.ltb_ge in Hq. rewrite Hq, bind_trap_if_false.
  by rewrite (bind_Done _ _ _ _ _ (nextFileId_next s Hc)).
Qed.

Lemma initUpload_ids_exhausted :
  InternalUser.usedBytes user + totalSize ≤ InternalUser.quota user →
  Nat32_max ≤ fileIdCounter s →
  initUpload now token filename mimeType totalSize totalChunks s
  = (Trap ArithmeticOverflow, s).
Proof.
  intros Hq Hc. unfold initUpload.
  rewrite (bind_Done _ _ _ _ _ (requireSession_valid _ _ _ Hvalid)).
  apply N.ltb_ge in Hq. rewrite Hq, bind_trap_if_false.
  by rewrite (bind_Trap _ _ _ _ _ (nextFileId_overflow s Hc)).
Qed.

End initUpload.

(** ** deleteFile *)

Section deleteFile.
Context (s : State) (token : SessionToken) (user : InternalUser.t)
        (fileId : FileId) (f : File.t).
Hypothesis Hvalid : valid_session s token user.
Hypothesis Hfile : files s !! fileId = Some f.

Lemma deleteFile_not_permitted :
  ¬ permitted f user → deleteFile token fileId s = (Trap NotOwner, s).
Proof.
  intros Hp. apply notPermitted_true in Hp.
  unfold deleteFile. enter Hvalid Hfile. by rewrite Hp.
Qed.

Lemma deleteFile_permitted :
  permitted f user → deleteFile token fileId s = (Done tt, deleted fileId f s).
Proof.
  intros Hp. apply notPermitted_false in Hp.
  unfold deleteFile. enter Hvalid Hfile. rewrite Hp, bind_trap_if_false.
  rewrite (bind_Done _ _ _ _ _ (remove_loop fileId _ s)).
  unfold deleted.
  destruct (File.shareToken f) as [st|]; rewrite ?bind_ret, !bind_modify, bind_gets;
    simpl; by destruct (users s !! File.owner f).
Qed.

Lemma deleted_session : ∃ user', valid_session (deleted fileId f s) token user'.
Proof.
  destruct Hvalid as (session & Hs & Hu). unfold deleted.
  destruct (users s !! File.owner f) as [owner|] eqn:Ho.
  - destruct (decide (File.owner f = Session.userId session)) as [Heq|Hne].
    + eexists. exists session. split.
      * by destruct (File.shareToken f).
      * destruct (File.shareToken f); simpl; rewrite Heq; apply lookup_insert_eq.
    + exists user, session. split.
      * by destruct (File.shareToken f).
      * destruct (File.shareToken f); simpl; by rewrite lookup_insert_ne.
  - exists user, session. split; by destruct (File.shareToken f).
Qed.

End deleteFile.

Lemma deleteFile_not_found (s : State) token user fileId :
  valid_session s token user → files s !! fileId = None →
  deleteFile token fileId s = (Trap FileNotFound, s).
Proof. intros Hv Hf. unfold deleteFile. by enter Hv Hf. Qed.

Lemma deleted_chunks (fileId : FileId) (f : File.t) (s : State) :
  chunks (deleted fileId f s)
  = remove_keys fileId (Nat_range 0 (File.totalChunks f)) (chunks s).
Proof.
  unfold deleted. by destruct (users s !! File.owner f), (File.shareToken f).
Qed.

Lemma deleted_files (fileId : FileId) (f : File.t) (s : State) :
  files (deleted fileId f s) = delete fileId (files s).
Proof.
  unfold deleted. by destruct (users s !! File.owner f), (File.shareToken f).
Qed.

Lemma deleted_shareTokens (fileId : FileId) (f : File.t) (s : State) :
  shareTokens (deleted fileId f s)
  = match File.shareToken f with
    | Some st => delete st (shareTokens s)
    | None => shareTokens s
    end.
Proof.
  unfold deleted. by destruct (users s !! File.owner f), (File.shareToken f).
Qed.

(** C7. [deleteFile] by an authorized caller removes the chunks
    [0 .. totalChunks-1], the share-token binding recorded in the file, and
    the file record; it lowers the owner's [usedBytes] by [totalSize], floored
    at zero, and leaves the other fields of the owner's record as they are,
    whatever the status of the file; deleting again fails with
    [File not found].  Where [share_bindings_recorded] holds, which is in all
    reachable states ([reachable_invariants]), no token at all stays bound to
    the file. *)
Theorem deleteFile_reclaims (s : State) token user fileId f :
  valid_session s token user → files s !! fileId = Some f → permitted f user →
  ∃ s', call (deleteFile token fileId) s = (Done tt, s')
        ∧ (∀ i, i < File.totalChunks f → chunks s' !! chunkKey fileId i = None)
        ∧ (∀ st, File.shareToken f = Some st → shareTokens s' !! st = None)
        ∧ (share_bindings_recorded s → ∀ st, shareTokens s' !! st ≠ Some fileId)
        ∧ files s' !! fileId = None
        ∧ (∀ owner, users s !! File.owner f = Some owner →
             ∃ n, users s' !! File.owner f
                  = Some (InternalUser.mk (InternalUser.id owner) (InternalUser.username owner)
                            (InternalUser.passwordHash owner) (InternalUser.role owner)
                            (InternalUser.gbAllocation owner) (InternalUser.quota owner) n)
                  ∧ Z.of_N n = Z.max 0 (Z.of_N (InternalUser.usedBytes owner)
                                        - Z.of_N (File.totalSize f)))
        ∧ call (deleteFile token fileId) s' = (Trap FileNotFound, s').
Proof.
  intros Hv Hf Hp. exists (deleted fileId f s). split_and!.
  - apply call_Done. by apply (deleteFile_permitted s token user).
  - intros i Hi. rewrite deleted_chunks. apply remove_keys_removed.
    apply elem_of_Nat_range. lia.
  - intros st Hst. rewrite deleted_shareTokens, Hst. apply lookup_delete_eq.
  - intros Hrec st. rewrite deleted_shareTokens. intros Hst.
    assert (shareTokens s !! st = Some fileId ∧ File.shareToken f ≠ Some st) as [Hs Hne].
    { destruct (File.shareToken f) as [st0|]; [|done].
      apply lookup_delete_Some in Hst as [Hne Hst]. split; [done|congruence]. }
    destruct (Hrec st fileId Hs) as (f' & Hf' & Hrecd). congruence.
  - rewrite deleted_files. apply lookup_delete_eq.
  - intros owner Ho. unfold deleted. rewrite Ho. eexists. split.
    + destruct (File.shareToken f); simpl; rewrite lookup_insert_eq; reflexivity.
    + destruct (N.leb_spec (File.totalSize f) (InternalUser.usedBytes owner)); lia.
  - destruct (deleted_session s token user fileId f Hv) as [user' Hv'].
    eapply call_Trap. apply (deleteFile_not_found _ token user'); [done|].
    rewrite deleted_files. apply lookup_delete_eq.
Qed.

Lemma deleteFile_reclaims_witness :
  InternalUser.usedBytes <$> users demo_credited_twice !! 2 = Some 12
  ∧ File.totalSize <$> files demo_credited_twice !! 1 = Some 6
  ∧ ∃ s', call (deleteFile "tok-a" 1) demo_credited_twice = (Done tt, s')
          ∧ chunks s' !! chunkKey 1 0 = None
          ∧ chunks s' !! chunkKey 1 1 = None
          ∧ chunks s' !! chunkKey 1 2 = None
          ∧ shareTokens s' !! fresh_share_token 5 1 = None
          ∧ files s' !! 1 = None
          ∧ InternalUser.usedBytes <$> users s' !! 2 = Some 6
          ∧ call (deleteFile "tok-a" 1) s' = (Trap FileNotFound, s').
Proof.
  split; [vm_compute; reflexivity|]. split; [vm_compute; reflexivity|].
  destruct (deleteFile_reclaims demo_credited_twice "tok-a"
              (InternalUser.mk 2 "alice" "pw-a" Client 5 10 12) 1
              (File.mk 1 2 "report.txt" "text/plain" 6 3 Complete 0
                 (Some (fresh_share_token 5 1))))
    as (s' & Hcall & Hchunks & Hshare & _ & Hgone & Hledger & Hagain).
  - exists (Session.mk 2 "tok-a" 0 0). split; vm_compute; reflexivity.
  - vm_compute. reflexivity.
  - left. reflexivity.
  - destruct (Hledger (InternalUser.mk 2 "alice" "pw-a" Client 5 10 12))
      as (n & Hn & Hrel); [vm_compute; reflexivity|].
    assert (n = 6) as -> by (apply N2Z.inj; rewrite Hrel; reflexivity).
    exists s'. split_and!; [assumption|apply Hchunks; reflexivity..| |assumption| |assumption].
    + apply Hshare. reflexivity.
    + change (users s' !! 2 = Some (InternalUser.mk 2 "alice" "pw-a" Client 5 10 6)) in Hn.
      rewrite Hn. reflexivity.
Defined.

(** ** downloadFile *)

Lemma assemble_outcome (f : File.t) (fileId : FileId) (s : State) :
  (∃ blobs,
      length blobs = N.to_nat (File.totalChunks f) ∧ blobs ≠ []
      ∧ (∀ i, i < File.totalChunks f →
              chunks s !! chunkKey fileId i = blobs !! N.to_nat i)
      ∧ assemble f fileId s
        = (Done (Download.mk (concat blobs) (File.mimeType f) (File.filename f)), s))
  ∨ (File.totalChunks f = 0 ∧ assemble f fileId s = (Trap NoChunksFound, s))
  ∨ (∃ k, k < File.totalChunks f ∧ ¬ present s fileId k
          ∧ (∀ j, j < k → present s fileId j)
          ∧ assemble f fileId s = (Trap (MissingChunk k), s)).
Proof.
  unfold assemble.
  destruct (collect_range_cases s fileId (File.totalChunks f) [])
    as [(blobs & Hlen & Hst & Hloop)|(k & Hk & Hmiss & Hlow & Hloop)].
  - rewrite (bind_Done _ _ _ _ _ Hloop). simpl.
    destruct blobs as [|b blobs].
    + right. left. split; [simpl in Hlen; lia|done].
    + left. exists (b :: blobs). split_and!; done.
  - right. right. exists k. by rewrite (bind_Trap _ _ _ _ _ Hloop).
Qed.

Lemma assemble_not_Unauthorized (f : File.t) (fileId : FileId) (s s' : State) msg :
  assemble f fileId s = (Trap msg, s') → ¬ Unauthorized msg.
Proof.
  destruct (assemble_outcome f fileId s)
    as [(blobs & _ & _ & _ & ->)|[[_ ->]|(k & _ & _ & _ & ->)]]; intros [= <- <-].
  - intros [rest H]. discriminate H.
  - apply MissingChunk_not_Unauthorized.
Qed.

Section downloadFile.
Context (s : State) (fileId : FileId) (f : File.t).
Hypothesis Hfile : files s !! fileId = Some f.

Lemma downloadFile_share (token : option SessionToken) (shareToken : option string) :
  resolves s shareToken fileId →
  downloadFile fileId token shareToken s = assemble f fileId s.
Proof.
  intros (st & -> & Hst). unfold downloadFile.
  rewrite bind_gets, Hfile, bind_gets, Hst, bool_decide_eq_true_2 by done.
  simpl. by rewrite bind_ret, bind_trap_if_false.
Qed.

Lemma downloadFile_no_share (token : option SessionToken) (shareToken : option string) :
  ¬ resolves s shareToken fileId →
  downloadFile fileId token shareToken s
  = match token with
    | None => (Trap NoCredentials, s)
    | Some t =>
        match requireSession t s with
        | (Done user, _) => if notPermitted f user then (Trap NotOwner, s)
                            else assemble f fileId s
        | (Trap msg, _) => (Trap msg, s)
        end
    end.
Proof.
  intros Hres. unfold downloadFile. rewrite bind_gets, Hfile, bind_gets.
  assert (match shareToken with
          | Some st => match shareTokens s !! st with
                       | Some fid => if bool_decide (fid = fileId) then true else false
                       | None => false
                       end
          | None => false
          end = false) as ->.
  { destruct shareToken as [st|]; [|done].
    destruct (shareTokens s !! st) as [fid|] eqn:Hst; [|done].
    case_bool_decide as Hfid; [|done]. subst fid. destruct Hres. by exists st. }
  simpl. destruct token as [t|]; [|done].
  unfold bind at 1. unfold bind at 1.
  destruct (requireSession t s) as [[user|msg] s1] eqn:Hreq.
  - apply requireSession_Done in Hreq as [_ ->]. unfold notPermitted.
    rewrite !bool_decide_not.
    by destruct (bool_decide (File.owner f = InternalUser.id user)),
      (bool_decide (InternalUser.role user = Master)),
      (bool_decide (InternalUser.role user = Staff)).
  - by apply requireSession_Trap in Hreq as [-> _].
Qed.

Lemma downloadFile_session (token : SessionToken) (user : InternalUser.t)
    (shareToken : option string) :
  valid_session s token user → permitted f user →
  downloadFile fileId (Some token) shareToken s = assemble f fileId s.
Proof.
  intros Hv Hp.
  destruct shareToken as [st|].
  - destruct (decide (shareTokens s !! st = Some fileId)) as [Hst|Hst].
    + apply downloadFile_share. by exists st.
    + rewrite downloadFile_no_share by (by intros (? & [= <-] & ?)).
      rewrite (requireSession_valid _ _ _ Hv).
      apply notPermitted_false in Hp. by rewrite Hp.
  - rewrite downloadFile_no_share by (by intros (? & [=] & ?)).
    rewrite (requireSession_valid _ _ _ Hv).
    apply notPermitted_false in Hp. by rewrite Hp.
Qed.

End downloadFile.

(** C4. When the chunks [0 .. totalChunks-1] of a file with at least one
    chunk are all stored, [downloadFile] by an authorized caller returns
    their concatenation in ascending index order, with the file's mimeType
    and filename. *)
Theorem downloadFile_concatenates (s : State) token user fileId f
    (shareToken : option string) (blobs : list (list byte)) :
  valid_session s token user → files s !! fileId = Some f → permitted f user →
  1 ≤ File.totalChunks f →
  N.of_nat (length blobs) = File.totalChunks f →
  (∀ i b, blobs !! i = Some b → chunks s !! chunkKey fileId (N.of_nat i) = Some b) →
  query (downloadFile fileId (Some token) shareToken) s
  = Done (Download.mk (concat blobs) (File.mimeType f) (File.filename f)).
Proof.
  intros Hv Hf Hp Hn Hlen Hst.
  unfold query. rewrite (downloadFile_session s fileId f Hf token user _ Hv Hp).
  unfold assemble.
  rewrite (bind_Done _ _ _ _ _ (collect_range s fileId blobs _ Hlen Hst)).
  destruct blobs; [simpl in Hlen; lia|done].
Qed.

Lemma downloadFile_concatenates_witness :
  query (downloadFile 1 (Some "tok-a") None) demo_uploaded
  = Done (Download.mk (concat [chunk0; chunk1; chunk2]) "text/plain" "report.txt").
Proof.
  apply (downloadFile_concatenates demo_uploaded "tok-a" alice 1 report None
           [chunk0; chunk1; chunk2]).
  - exists (Session.mk 2 "tok-a" 0 0). split; vm_compute; reflexivity.
  - vm_compute. reflexivity.
  - left. reflexivity.
  - vm_compute. discriminate.
  - reflexivity.
  - intros [|[|[|i]]] b Hb; simpl in Hb; try discriminate Hb;
      injection Hb as <-; vm_compute; reflexivity.
Defined.

(** ** generateShareLink *)

Section generateShareLink.
Context (now : Z) (s : State) (token : SessionToken) (user : InternalUser.t)
        (fileId : FileId) (f : File.t).
Hypothesis Hvalid : valid_session s token user.
Hypothesis Hfile : files s !! fileId = Some f.

Lemma generateShareLink_not_permitted :
  ¬ permitted f user → generateShareLink now token fileId s = (Trap NotOwner, s).
Proof.
  intros Hp. apply notPermitted_true in Hp.
  unfold generateShareLink. enter Hvalid Hfile. by rewrite Hp.
Qed.

Lemma generateShareLink_reuse (st : string) :
  permitted f user → File.shareToken f = Some st →
  generateShareLink now token fileId s = (Done st, s).
Proof.
  intros Hp Hst. apply notPermitted_false in Hp.
  unfold generateShareLink. enter Hvalid Hfile. by rewrite Hp, bind_trap_if_false, Hst.
Qed.

Lemma generateShareLink_fresh :
  permitted f user → File.shareToken f = None →
  generateShareLink now token fileId s
  = (Done (fresh_share_token now fileId),
     set_shareTokens (<[fresh_share_token now fileId := fileId]>)
       (set_files (<[fileId := File.with_shareToken f (Some (fresh_share_token now fileId))]>) s)).
Proof.
  intros Hp Hst. apply notPermitted_false in Hp.
  unfold generateShareLink. enter Hvalid Hfile. by rewrite Hp, bind_trap_if_false, Hst.
Qed.

End generateShareLink.

(** C8. Authorization order of [downloadFile] on an existing file: a share
    token that the share-token map binds to this very file grants access
    whatever the session; otherwise a session is required (none: trap
    [Unauthorized]; invalid: trap [Unauthorized]) whose user is the owner or
    Master or Staff (else trap [Unauthorized]).  A token bound to another
    file grants nothing, and the token [generateShareLink] returns for a file
    (a new one, or the recorded one while it is still bound) opens that file
    and no other. *)
Theorem downloadFile_authorization (s : State) fileId f
    (token : option SessionToken) (shareToken : option string) :
  files s !! fileId = Some f →
  (resolves s shareToken fileId →
     downloadFile fileId token shareToken s = assemble f fileId s)
  ∧ (¬ resolves s shareToken fileId →
     match token with
     | None => downloadFile fileId token shareToken s = (Trap NoCredentials, s)
     | Some t =>
         (∀ user, valid_session s t user → permitted f user →
            downloadFile fileId token shareToken s = assemble f fileId s)
         ∧ (∀ user, valid_session s t user → ¬ permitted f user →
              downloadFile fileId token shareToken s = (Trap NotOwner, s))
         ∧ ((∀ user, ¬ valid_session s t user) →
              ∃ msg, Unauthorized msg
                     ∧ downloadFile fileId token shareToken s = (Trap msg, s))
     end)
  ∧ Unauthorized NoCredentials ∧ Unauthorized NotOwner
  ∧ (∀ msg s', assemble f fileId s = (Trap msg, s') → ¬ Unauthorized msg)
  ∧ (∀ st fid', shareTokens s !! st = Some fid' → fid' ≠ fileId →
       downloadFile fileId None (Some st) s = (Trap NoCredentials, s))
  ∧ (∀ now t user st s1,
       valid_session s t user →
       call (generateShareLink now t fileId) s = (Done st, s1) →
       File.shareToken f = None ∨ shareTokens s !! st = Some fileId →
       resolves s1 (Some st) fileId
       ∧ ∀ fid' f', fid' ≠ fileId → files s1 !! fid' = Some f' →
           downloadFile fid' None (Some st) s1 = (Trap NoCredentials, s1)).
Proof.
  intros Hf. split_and!.
  - by apply downloadFile_share.
  - intros Hres. rewrite (downloadFile_no_share s fileId f Hf _ _ Hres).
    destruct token as [t|]; [|done]. split_and!.
    + intros user Hv Hp. rewrite (requireSession_valid _ _ _ Hv).
      apply notPermitted_false in Hp. by rewrite Hp.
    + intros user Hv Hp. rewrite (requireSession_valid _ _ _ Hv).
      apply notPermitted_true in Hp. by rewrite Hp.
    + intros Hnone. destruct (requireSession t s) as [[user|msg] s1] eqn:Hreq.
      * apply requireSession_Done in Hreq as [Hv _]. by destruct (Hnone user).
      * apply requireSession_Trap in Hreq as (_ & Hmsg & _). exists msg. split; [|done].
        destruct Hmsg as [->| ->];
          [by exists ": Invalid or expired session token"
          |by exists ": User not found for session"].
  - by exists ": Provide a session or share token".
  - apply NotOwner_Unauthorized.
  - intros msg s'. apply assemble_not_Unauthorized.
  - intros st fid' Hst Hne.
    rewrite (downloadFile_no_share s fileId f Hf); [done|].
    intros (st' & [= <-] & Hst'). congruence.
  - intros now t user st s1 Hv Hcall Hbound.
    destruct (decide (permitted f user)) as [Hp|Hp].
    2:{ rewrite (call_Trap _ _ _ _
          (generateShareLink_not_permitted now s t user fileId f Hv Hf Hp)) in Hcall.
        discriminate Hcall. }
    assert (Hst1 : shareTokens s1 !! st = Some fileId).
    { destruct (File.shareToken f) as [st0|] eqn:Htok.
      - rewrite (call_Done _ _ _ _
          (generateShareLink_reuse now s t user fileId f Hv Hf st0 Hp Htok)) in Hcall.
        injection Hcall as <- <-. by destruct Hbound.
      - rewrite (call_Done _ _ _ _
          (generateShareLink_fresh now s t user fileId f Hv Hf Hp Htok)) in Hcall.
        injection Hcall as <- <-. simpl. apply lookup_insert_eq. }
    split; [by exists st|].
    intros fid' f' Hne Hf'.
    rewrite (downloadFile_no_share _ fid' f' Hf'); [done|].
    intros (st' & [= <-] & Hst'). congruence.
Qed.

Lemma downloadFile_authorization_witness :
  downloadFile 1 None (Some (fresh_share_token 5 1)) demo_shared
  = assemble (File.with_shareToken report (Some (fresh_share_token 5 1))) 1 demo_shared.
Proof.
  refine (proj1 (downloadFile_authorization demo_shared 1
            (File.with_shareToken report (Some (fresh_share_token 5 1)))
            None (Some (fresh_share_token 5 1)) _) _).
  - vm_compute. reflexivity.
  - exists (fresh_share_token 5 1). split; [reflexivity|]. vm_compute. reflexivity.
Defined.

(** ** Authorization of the file operations *)

(** C9. A caller with a valid session who is neither the owner nor Master
    nor Staff is refused by [uploadChunk], [finalizeUpload], [deleteFile],
    [generateShareLink] and, without a share token for the file, by
    [downloadFile]: each traps with an [Unauthorized] message before it has
    written anything.  For the owner, a Master or a Staff caller none of
    these operations traps with an [Unauthorized] message. *)
Theorem file_operations_authorization (s : State) token user fileId f :
  valid_session s token user → files s !! fileId = Some f →
  Unauthorized NotOwner
  ∧ (¬ permitted f user →
       (∀ i d, uploadChunk token fileId i d s = (Trap NotOwner, s))
       ∧ finalizeUpload token fileId s = (Trap NotOwner, s)
       ∧ deleteFile token fileId s = (Trap NotOwner, s)
       ∧ (∀ now, generateShareLink now token fileId s = (Trap NotOwner, s))
       ∧ (∀ shareToken, ¬ resolves s shareToken fileId →
            downloadFile fileId (Some token) shareToken s = (Trap NotOwner, s)))
  ∧ (permitted f user →
       ∀ msg s',
         ((∃ i d, uploadChunk token fileId i d s = (Trap msg, s'))
          ∨ finalizeUpload token fileId s = (Trap msg, s')
          ∨ deleteFile token fileId s = (Trap msg, s')
          ∨ (∃ now, generateShareLink now token fileId s = (Trap msg, s'))
          ∨ (∃ shareToken, downloadFile fileId (Some token) shareToken s = (Trap msg, s'))) →
         ¬ Unauthorized msg).
Proof.
  intros Hv Hf. split_and!.
  - apply NotOwner_Unauthorized.
  - intros Hp. split_and!.
    + intros i d. by apply (uploadChunk_not_permitted s token user fileId f).
    + by apply (finalizeUpload_not_permitted s token user fileId f).
    + by apply (deleteFile_not_permitted s token user fileId f).
    + intros now. by apply (generateShareLink_not_permitted now s token user fileId f).
    + intros shareToken Hres. rewrite (downloadFile_no_share s fileId f Hf _ _ Hres).
      rewrite (requireSession_valid _ _ _ Hv). apply notPermitted_true in Hp.
      by rewrite Hp.
  - intros Hp msg s' [(i & d & H)|[H|[H|[(now & H)|(shareToken & H)]]]].
    + rewrite (uploadChunk_permitted s token user fileId f i d Hv Hf Hp) in H.
      discriminate H.
    + destruct (complete_or_first_missing s fileId (File.totalChunks f))
        as [Hall|(k & Hk & Hmiss & Hlow)].
      * rewrite (finalizeUpload_all_present s token user fileId f Hv Hf Hp Hall) in H.
        discriminate H.
      * rewrite (finalizeUpload_first_missing s token user fileId f Hv Hf k Hp Hk Hmiss Hlow) in H.
        injection H as <- _. apply MissingChunk_not_Unauthorized.
    + rewrite (deleteFile_permitted s token user fileId f Hv Hf Hp) in H. discriminate H.
    + destruct (File.shareToken f) as [st|] eqn:Hst.
      * rewrite (generateShareLink_reuse now s token user fileId f Hv Hf st Hp Hst) in H.
        discriminate H.
      * rewrite (generateShareLink_fresh now s token user fileId f Hv Hf Hp Hst) in H.
        discriminate H.
    + rewrite (downloadFile_session s fileId f Hf token user shareToken Hv Hp) in H.
      by apply assemble_not_Unauthorized in H.
Qed.

Lemma file_operations_authorization_witness :
  finalizeUpload "tok-b" 1 demo_uploaded = (Trap NotOwner, demo_uploaded).
Proof.
  refine (proj1 (proj2 (proj1 (proj2
    (file_operations_authorization demo_uploaded "tok-b" bob 1 report _ _)) _))).
  - exists (Session.mk 3 "tok-b" 0 0). split; vm_compute; reflexivity.
  - vm_compute. reflexivity.
  - intros [H|[H|H]]; vm_compute in H; discriminate H.
Defined.

(** ** Repeated calls *)

(** C5. Submitting the same chunk a second time changes nothing: the second
    [uploadChunk] returns the same count and leaves the same state, in which
    the blob is stored under its index. *)
Theorem uploadChunk_idempotent (s : State) token user fileId f (i : N) (d : list byte) :
  valid_session s token user → files s !! fileId = Some f → permitted f user →
  ∃ count s1,
    call (uploadChunk token fileId i d) s = (Done count, s1)
    ∧ chunks s1 !! chunkKey fileId i = Some d
    ∧ call (uploadChunk token fileId i d) s1 = (Done count, s1).
Proof.
  intros Hv Hf Hp. eexists _, _. split_and!.
  - apply call_Done. by apply (uploadChunk_permitted s token user fileId f).
  - simpl. apply lookup_insert_eq.
  - apply call_Done.
    rewrite (uploadChunk_permitted _ token user fileId f i d); [|by apply (valid_session_same s)|done..].
    unfold set_chunks. simpl. by rewrite !insert_insert_eq.
Qed.

Lemma uploadChunk_idempotent_witness :
  ∃ count s1,
    call (uploadChunk "tok-a" 1 1 chunk1) demo_state = (Done count, s1)
    ∧ chunks s1 !! chunkKey 1 1 = Some chunk1
    ∧ call (uploadChunk "tok-a" 1 1 chunk1) s1 = (Done count, s1).
Proof.
  apply (uploadChunk_idempotent demo_state "tok-a" alice 1 report).
  - exists (Session.mk 2 "tok-a" 0 0). split; reflexivity.
  - reflexivity.
  - left. reflexivity.
Defined.

(** C6. [finalizeUpload] is not idempotent: with all chunks present, two
    calls in a row by an authorized caller both succeed, and each adds
    [totalSize] to the owner's [usedBytes], [2 * totalSize] in total. *)
Theorem finalizeUpload_twice_double_credit (s : State) token user fileId f :
  valid_session s token user → files s !! fileId = Some f → permitted f user →
  (∀ i, i < File.totalChunks f → present s fileId i) →
  ∃ s1 s2,
    call (finalizeUpload token fileId) s = (Done tt, s1)
    ∧ call (finalizeUpload token fileId) s1 = (Done tt, s2)
    ∧ ∀ owner, users s !! File.owner f = Some owner →
        users s1 !! File.owner f
        = Some (InternalUser.with_usedBytes owner
                  (InternalUser.usedBytes owner + File.totalSize f))
        ∧ users s2 !! File.owner f
          = Some (InternalUser.with_usedBytes owner
                    (InternalUser.usedBytes owner + 2 * File.totalSize f)).
Proof.
  intros Hv Hf Hp Hall.
  assert (Hv1 : ∃ user1, valid_session (finalized fileId f s) token user1
                         ∧ permitted (File.with_status f Complete) user1).
  { destruct Hv as (session & Hs & Hu). unfold finalized.
    destruct (users s !! File.owner f) as [owner|] eqn:Ho.
    - destruct (decide (File.owner f = Session.userId session)) as [Heq|Hne].
      + eexists. split.
        * exists session. split; [done|]. simpl. rewrite Heq. apply lookup_insert_eq.
        * rewrite <-Heq, Ho in Hu. by injection Hu as <-.
      + exists user. split; [|done].
        exists session. split; [done|]. simpl. by rewrite lookup_insert_ne.
    - exists user. split; [|done]. by exists session. }
  destruct Hv1 as (user1 & Hv1 & Hp1).
  exists (finalized fileId f s),
         (finalized fileId (File.with_status f Complete) (finalized fileId f s)).
  split_and!.
  - apply call_Done. by apply (finalizeUpload_all_present s token user).
  - apply call_Done.
    apply (finalizeUpload_all_present _ token user1); [done|apply finalized_file|done|].
    intros i Hi. unfold present, finalized.
    destruct (users s !! File.owner f); by apply Hall.
  - intros owner Ho. unfold finalized. simpl. rewrite Ho. simpl.
    split; [apply lookup_insert_eq|].
    rewrite lookup_insert_eq. simpl. rewrite lookup_insert_eq.
    unfold InternalUser.with_usedBytes. simpl. do 2 f_equal. lia.
Qed.

Lemma finalizeUpload_twice_double_credit_witness :
  ∃ s1 s2,
    call (finalizeUpload "tok-a" 1) demo_uploaded = (Done tt, s1)
    ∧ call (finalizeUpload "tok-a" 1) s1 = (Done tt, s2)
    ∧ InternalUser.usedBytes <$> users s2 !! 2 = Some 12.
Proof.
  destruct (finalizeUpload_twice_double_credit demo_uploaded "tok-a" alice 1 report)
    as (s1 & s2 & H1 & H2 & Hcredit).
  - exists (Session.mk 2 "tok-a" 0 0). split; vm_compute; reflexivity.
  - vm_compute. reflexivity.
  - left. reflexivity.
  - intros i Hi.
    assert (i = 0 ∨ i = 1 ∨ i = 2) as [->|[->| ->]] by (change (i < 3) in Hi; lia);
      vm_compute; by eexists.
  - exists s1, s2. split_and!; [assumption..|].
    destruct (Hcredit alice) as [_ H]; [vm_compute; reflexivity|].
    change (File.owner report) with 2 in H. rewrite H. reflexivity.
Defined.

(** ** Chunks stored beyond [totalChunks] *)

Lemma requireSession_frame (s s1 : State) token :
  sessions s1 = sessions s → users s1 = users s →
  requireSession token s1 = ((requireSession token s).1, s1).
Proof.
  intros Hs Hu. unfold requireSession, bind, gets. simpl. rewrite Hs.
  destruct (sessions s !! token) as [session|]; [|done].
  rewrite Hu. by destruct (users s !! Session.userId session).
Qed.

Lemma assemble_agree (f : File.t) (fileId : FileId) (s s1 : State) :
  (∀ j, j < File.totalChunks f →
        chunks s1 !! chunkKey fileId j = chunks s !! chunkKey fileId j) →
  assemble f fileId s1 = ((assemble f fileId s).1, s1).
Proof.
  intros Hag. unfold assemble, bind.
  rewrite (collect_agree s fileId s1).
  2:{ intros j Hj. apply Hag. apply elem_of_Nat_range in Hj. lia. }
  destruct (for_in _ _ _ s) as [[parts|msg] s']; [|done]. simpl.
  by destruct (bool_decide (parts = [])).
Qed.

Section beyond.
Context (s : State) (fileId : FileId) (f : File.t) (i : N) (d : list byte).
Hypothesis Hfile : files s !! fileId = Some f.
Hypothesis Hbeyond : File.totalChunks f ≤ i.

Let s1 : State := set_chunks (<[chunkKey fileId i := d]>) s.

Lemma beyond_lookup (j : N) :
  j < File.totalChunks f →
  chunks s1 !! chunkKey fileId j = chunks s !! chunkKey fileId j.
Proof. intros Hj. simpl. apply lookup_insert_ne, chunkKey_ne. lia. Qed.

Lemma beyond_count :
  present_count fileId (chunks s1) (Nat_range 0 (File.totalChunks f)) 0
  = present_count fileId (chunks s) (Nat_range 0 (File.totalChunks f)) 0.
Proof.
  apply present_count_agree. intros j Hj. apply beyond_lookup.
  apply elem_of_Nat_range in Hj. lia.
Qed.

Lemma beyond_finalize (token : SessionToken) (user : InternalUser.t) :
  valid_session s token user → permitted f user →
  finalizeUpload token fileId s1
  = ((finalizeUpload token fileId s).1,
     set_chunks (<[chunkKey fileId i := d]>) (finalizeUpload token fileId s).2).
Proof.
  intros Hv Hp.
  assert (Hv1 : valid_session s1 token user) by (by apply (valid_session_same s)).
  assert (Hpres : ∀ j, j < File.totalChunks f → present s1 fileId j ↔ present s fileId j).
  { intros j Hj. unfold present. by rewrite beyond_lookup. }
  destruct (complete_or_first_missing s fileId (File.totalChunks f))
    as [Hall|(k & Hk & Hmiss & Hlow)].
  - rewrite (finalizeUpload_all_present s token user fileId f Hv Hfile Hp Hall).
    rewrite (finalizeUpload_all_present s1 token user fileId f Hv1 Hfile Hp).
    2:{ intros j Hj. by apply Hpres, Hall. }
    unfold finalized. simpl. by destruct (users s !! File.owner f).
  - rewrite (finalizeUpload_first_missing s token user fileId f Hv Hfile k Hp Hk Hmiss Hlow).
    rewrite (finalizeUpload_first_missing s1 token user fileId f Hv1 Hfile k Hp Hk); [done|..].
    + by rewrite Hpres.
    + intros j Hj. apply Hpres; [lia|]. by apply Hlow.
Qed.

Lemma beyond_download (token : option SessionToken) (shareToken : option string) :
  query (downloadFile fileId token shareToken) s1
  = query (downloadFile fileId token shareToken) s.
Proof.
  unfold query.
  assert (Hasm : (assemble f fileId s1).1 = (assemble f fileId s).1).
  { by rewrite (assemble_agree f fileId s s1 beyond_lookup). }
  assert (Hdec : resolves s shareToken fileId ∨ ¬ resolves s shareToken fileId).
  { destruct shareToken as [st|]; [|by right; intros (? & [=] & ?)].
    destruct (decide (shareTokens s !! st = Some fileId)) as [Hst|Hst].
    - left. by exists st.
    - right. by intros (? & [= <-] & ?). }
  destruct Hdec as [Hres|Hres].
  - rewrite (downloadFile_share s fileId f Hfile _ _ Hres).
    by rewrite (downloadFile_share s1 fileId f Hfile _ _ Hres).
  - rewrite (downloadFile_no_share s fileId f Hfile _ _ Hres).
    rewrite (downloadFile_no_share s1 fileId f Hfile _ _ Hres).
    destruct token as [t|]; [|done].
    rewrite (requireSession_frame s s1 t eq_refl eq_refl).
    destruct (requireSession t s) as [[user|msg] s']; [|done]. simpl.
    by destruct (notPermitted f user).
Qed.

Lemma beyond_delete (token : SessionToken) (user : InternalUser.t) :
  valid_session s1 token user → permitted f user →
  deleteFile token fileId s1 = (Done tt, deleted fileId f s1)
  ∧ chunks (deleted fileId f s1) !! chunkKey fileId i = Some d.
Proof.
  intros Hv Hp. split.
  - by apply (deleteFile_permitted s1 token user).
  - rewrite deleted_chunks, remove_keys_kept.
    + simpl. apply lookup_insert_eq.
    + intros j Hj. apply chunkKey_ne. apply elem_of_Nat_range in Hj. lia.
Qed.

End beyond.

(** C10. [uploadChunk] with an index at or beyond [totalChunks] succeeds for
    an authorized caller and stores the blob under that index, yet the count
    it returns, the scan of [finalizeUpload] and the assembly of
    [downloadFile] are what they would be without it, and [deleteFile]
    leaves the blob in the chunk map. *)
Theorem uploadChunk_beyond_totalChunks (s : State) token user fileId f (i : N) (d : list byte) :
  valid_session s token user → files s !! fileId = Some f → permitted f user →
  File.totalChunks f ≤ i →
  ∃ s1,
    call (uploadChunk token fileId i d) s
    = (Done (present_count fileId (chunks s) (Nat_range 0 (File.totalChunks f)) 0), s1)
    ∧ chunks s1 !! chunkKey fileId i = Some d
    ∧ finalizeUpload token fileId s1
      = ((finalizeUpload token fileId s).1,
         set_chunks (<[chunkKey fileId i := d]>) (finalizeUpload token fileId s).2)
    ∧ (∀ tok shareToken,
         query (downloadFile fileId tok shareToken) s1
         = query (downloadFile fileId tok shareToken) s)
    ∧ (∀ token' user', valid_session s1 token' user' → permitted f user' →
         ∃ s2, call (deleteFile token' fileId) s1 = (Done tt, s2)
               ∧ files s2 !! fileId = None
               ∧ chunks s2 !! chunkKey fileId i = Some d).
Proof.
  intros Hv Hf Hp Hi. exists (set_chunks (<[chunkKey fileId i := d]>) s). split_and!.
  - apply call_Done. rewrite (uploadChunk_permitted s token user fileId f i d Hv Hf Hp).
    by rewrite <-(beyond_count s fileId f i d Hi).
  - simpl. apply lookup_insert_eq.
  - by apply (beyond_finalize s fileId f i d Hf Hi token user).
  - intros tok shareToken. by apply (beyond_download s fileId f i d Hf Hi).
  - intros token' user' Hv' Hp'.
    destruct (beyond_delete s fileId f i d Hf Hi token' user' Hv' Hp') as [Hdel Hkept].
    eexists. split_and!; [by apply call_Done| |done].
    rewrite deleted_files. apply lookup_delete_eq.
Qed.

Lemma uploadChunk_beyond_totalChunks_witness :
  ∃ s1,
    call (uploadChunk "tok-c" 1 7 chunk0) demo_uploaded = (Done 3, s1)
    ∧ chunks s1 !! chunkKey 1 7 = Some chunk0
    ∧ query (downloadFile 1 (Some "tok-a") None) s1
      = query (downloadFile 1 (Some "tok-a") None) demo_uploaded.
Proof.
  destruct (uploadChunk_beyond_totalChunks demo_uploaded "tok-c" carol 1 report 7 chunk0)
    as (s1 & Hup & Hst & _ & Hdl & _).
  - exists (Session.mk 4 "tok-c" 0 0). split; vm_compute; reflexivity.
  - vm_compute. reflexivity.
  - right. right. reflexivity.
  - vm_compute. discriminate.
  - exists s1. split_and!; [|assumption|apply Hdl].
    rewrite Hup. vm_compute. reflexivity.
Defined.

(** ** What a committed call can have changed *)

Lemma commit_Done {A} (m : Exec A) (s s' : State) (a : A) :
  m s = (Done a, s') → commit m s = s'.
Proof. intros H. unfold commit. by rewrite (call_Done _ _ _ _ H). Qed.

Lemma commit_Trap {A} (m : Exec A) (s s' : State) (msg : string) :
  m s = (Trap msg, s') → commit m s = s.
Proof. intros H. unfold commit. by rewrite (call_Trap _ _ _ _ H). Qed.

(** Unfolds a method without loops into its branches. *)
Ltac branches :=
  unfold commit, call, requireMasterOrStaff, requireMaster, requireSession,
    nextUserId, nextFileId, Nat32_succ, bind, gets, modify, trap_if, trap, ret;
  simpl;
  repeat (case_match; simplify_eq/=).

Lemma login_commit (now : Z) (username password : string) (s : State) :
  ∃ g, commit (login now username password) s = set_sessions g s.
Proof.
  unfold login. branches;
    first [by eexists | exists id; by match goal with |- ?s0 = _ => destruct s0 end].
Qed.

Lemma logout_commit (token : SessionToken) (s : State) :
  commit (logout token) s = set_sessions (delete token) s.
Proof. reflexivity. Qed.

Lemma registerUser_commit (username password : string) (s : State) :
  commit (registerUser username password) s = s
  ∨ ∃ uid u, InternalUser.usedBytes u = 0
             ∧ commit (registerUser username password) s
               = set_usersByName (<[username := uid]>)
                   (set_users (<[uid := u]>) (set_userIdCounter uid s)).
Proof.
  unfold registerUser. branches; try (by left).
  right. eexists _, _. split; [|reflexivity]. reflexivity.
Qed.

Lemma createUser_commit (token : SessionToken) (username password : string)
    (role : Role) (s : State) :
  commit (createUser token username password role) s = s
  ∨ ∃ uid u, InternalUser.usedBytes u = 0
             ∧ commit (createUser token username password role) s
               = set_usersByName (<[username := uid]>)
                   (set_users (<[uid := u]>) (set_userIdCounter uid s)).
Proof.
  unfold createUser. branches; try (by left);
    right; eexists _, _; (split; [|reflexivity]); reflexivity.
Qed.

Lemma deleteUser_commit (token : SessionToken) (userId : UserId) (s : State) :
  commit (deleteUser token userId) s = s
  ∨ ∃ name, commit (deleteUser token userId) s
            = set_users (delete userId) (set_usersByName (delete name) s).
Proof.
  unfold deleteUser. branches; try (by left); right; eexists; reflexivity.
Qed.

Lemma updateUserRole_commit (token : SessionToken) (userId : UserId) (role : Role) (s : State) :
  commit (updateUserRole token userId role) s = s
  ∨ ∃ u, users s !! userId = Some u
         ∧ commit (updateUserRole token userId role) s
           = set_users (<[userId := InternalUser.with_role u role]>) s.
Proof.
  unfold updateUserRole. branches; try (by left); right; eexists; split; done.
Qed.

Lemma updateUserGbLimit_commit (token : SessionToken) (userId : UserId) (gbLimit : N)
    (s : State) :
  commit (updateUserGbLimit token userId gbLimit) s = s
  ∨ ∃ u, users s !! userId = Some u
         ∧ commit (updateUserGbLimit token userId gbLimit) s
           = set_users (<[userId :=
               InternalUser.with_gb_quota u gbLimit (gbLimit * 1000000000)]>) s.
Proof.
  unfold updateUserGbLimit. branches; try (by left); right; eexists; split; done.
Qed.

(** The four ways a file operation can start. *)
Lemma file_operation_cases (s : State) (token : SessionToken) (fileId : FileId) :
  (∃ msg, requireSession token s = (Trap msg, s))
  ∨ (∃ user, valid_session s token user ∧ files s !! fileId = None)
  ∨ (∃ user f, valid_session s token user ∧ files s !! fileId = Some f ∧ ¬ permitted f user)
  ∨ (∃ user f, valid_session s token user ∧ files s !! fileId = Some f ∧ permitted f user).
Proof.
  destruct (requireSession token s) as [[user|msg] s'] eqn:Hreq.
  - apply requireSession_Done in Hreq as [Hv ->]. right.
    destruct (files s !! fileId) as [f|]; [|left; by exists user].
    right. destruct (decide (permitted f user)); [right|left]; by exists user, f.
  - left. exists msg. by apply requireSession_Trap in Hreq as [-> _].
Qed.

Lemma initUpload_commit (now : Z) (token : SessionToken) (filename mimeType : string)
    (totalSize totalChunks : N) (s : State) :
  commit (initUpload now token filename mimeType totalSize totalChunks) s = s
  ∨ ∃ user, valid_session s token user
            ∧ InternalUser.usedBytes user + totalSize ≤ InternalUser.quota user
            ∧ fileIdCounter s < Nat32_max
            ∧ commit (initUpload now token filename mimeType totalSize totalChunks) s
              = set_files (<[fileIdCounter s + 1 :=
                             pending_file now user (fileIdCounter s + 1) filename mimeType
                                          totalSize totalChunks]>)
                          (set_fileIdCounter (fileIdCounter s + 1) s).
Proof.
  destruct (requireSession token s) as [[user|msg] s'] eqn:Hreq.
  - apply requireSession_Done in Hreq as [Hv ->].
    destruct (decide (InternalUser.quota user < InternalUser.usedBytes user + totalSize))
      as [Hq|Hq].
    { left. eapply commit_Trap. by apply (initUpload_over_quota now s token user). }
    apply N.nlt_ge in Hq.
    destruct (decide (fileIdCounter s < Nat32_max)) as [Hc|Hc].
    + right. exists user. split_and!; [done..|].
      eapply commit_Done. by apply (initUpload_within_quota now s token user).
    + left. eapply commit_Trap. apply (initUpload_ids_exhausted now s token user); [done..|lia].
  - left. eapply commit_Trap. unfold initUpload. by apply bind_Trap.
Qed.

Lemma uploadChunk_commit (token : SessionToken) (fileId : FileId) (i : N) (d : list byte)
    (s : State) :
  ∃ g, commit (uploadChunk token fileId i d) s = set_chunks g s.
Proof.
  destruct (file_operation_cases s token fileId)
    as [[msg H]|[(user & Hv & Hf)|[(user & f & Hv & Hf & Hp)|(user & f & Hv & Hf & Hp)]]].
  - exists id. erewrite commit_Trap; [by destruct s|]. unfold uploadChunk. by apply bind_Trap.
  - exists id. erewrite commit_Trap; [by destruct s|]. unfold uploadChunk. by enter Hv Hf.
  - exists id. erewrite commit_Trap; [by destruct s|].
    by apply (uploadChunk_not_permitted s token user fileId f).
  - eexists. eapply commit_Done. by apply (uploadChunk_permitted s token user fileId f).
Qed.

Lemma finalizeUpload_commit (token : SessionToken) (fileId : FileId) (s : State) :
  commit (finalizeUpload token fileId) s = s
  ∨ ∃ f, files s !! fileId = Some f
         ∧ commit (finalizeUpload token fileId) s = finalized fileId f s.
Proof.
  destruct (file_operation_cases s token fileId)
    as [[msg H]|[(user & Hv & Hf)|[(user & f & Hv & Hf & Hp)|(user & f & Hv & Hf & Hp)]]].
  - left. eapply commit_Trap. unfold finalizeUpload. by apply bind_Trap.
  - left. eapply commit_Trap. unfold finalizeUpload. by enter Hv Hf.
  - left. eapply commit_Trap. by apply (finalizeUpload_not_permitted s token user fileId f).
  - destruct (complete_or_first_missing s fileId (File.totalChunks f))
      as [Hall|(k & Hk & Hmiss & Hlow)].
    + right. exists f. split; [done|]. eapply commit_Done.
      by apply (finalizeUpload_all_present s token user).
    + left. eapply commit_Trap.
      by apply (finalizeUpload_first_missing s token user fileId f Hv Hf k).
Qed.

Lemma deleteFile_commit (token : SessionToken) (fileId : FileId) (s : State) :
  commit (deleteFile token fileId) s = s
  ∨ ∃ f, files s !! fileId = Some f
         ∧ commit (deleteFile token fileId) s = deleted fileId f s.
Proof.
  destruct (file_operation_cases s token fileId)
    as [[msg H]|[(user & Hv & Hf)|[(user & f & Hv & Hf & Hp)|(user & f & Hv & Hf & Hp)]]].
  - left. eapply commit_Trap. unfold deleteFile. by apply bind_Trap.
  - left. eapply commit_Trap. by apply (deleteFile_not_found s token user).
  - left. eapply commit_Trap. by apply (deleteFile_not_permitted s token user fileId f).
  - right. exists f. split; [done|]. eapply commit_Done.
    by apply (deleteFile_permitted s token user).
Qed.

Lemma generateShareLink_commit (now : Z) (token : SessionToken) (fileId : FileId) (s : State) :
  commit (generateShareLink now token fileId) s = s
  ∨ ∃ f, files s !! fileId = Some f ∧ File.shareToken f = None
         ∧ commit (generateShareLink now token fileId) s
           = set_shareTokens (<[fresh_share_token now fileId := fileId]>)
               (set_files (<[fileId := File.with_shareToken f
                                         (Some (fresh_share_token now fileId))]>) s).
Proof.
  destruct (file_operation_cases s token fileId)
    as [[msg H]|[(user & Hv & Hf)|[(user & f & Hv & Hf & Hp)|(user & f & Hv & Hf & Hp)]]].
  - left. eapply commit_Trap. unfold generateShareLink. by apply bind_Trap.
  - left. eapply commit_Trap. unfold generateShareLink. by enter Hv Hf.
  - left. eapply commit_Trap.
    by apply (generateShareLink_not_permitted now s token user fileId f).
  - destruct (File.shareToken f) as [st|] eqn:Hst.
    + left. eapply commit_Done.
      by apply (generateShareLink_reuse now s token user fileId f Hv Hf st).
    + right. exists f. split_and!; [done..|]. eapply commit_Done.
      by apply (generateShareLink_fresh now s token user fileId f).
Qed.

(** ** Invariants of the reachable states *)

Lemma finalized_users (fileId : FileId) (f : File.t) (s : State) uid u :
  users (finalized fileId f s) !! uid = Some u →
  users s !! uid = Some u
  ∨ ∃ owner, users s !! File.owner f = Some owner ∧ uid = File.owner f
             ∧ u = InternalUser.with_usedBytes owner
                     (InternalUser.usedBytes owner + File.totalSize f).
Proof.
  unfold finalized. destruct (users s !! File.owner f) as [owner|] eqn:Ho; simpl; [|by left].
  destruct (decide (File.owner f = uid)) as [<-|Hne].
  - rewrite lookup_insert_eq. intros [= <-]. right. by exists owner.
  - rewrite lookup_insert_ne by done. by left.
Qed.

Lemma deleted_users (fileId : FileId) (f : File.t) (s : State) uid u :
  users (deleted fileId f s) !! uid = Some u →
  users s !! uid = Some u
  ∨ ∃ owner n, users s !! uid = Some owner ∧ n ≤ InternalUser.usedBytes owner
               ∧ u = InternalUser.with_usedBytes owner n.
Proof.
  unfold deleted. destruct (users s !! File.owner f) as [owner|] eqn:Ho.
  - destruct (decide (File.owner f = uid)) as [<-|Hne].
    + intros Hu. right. exists owner. eexists. split; [done|].
      destruct (File.shareToken f); simpl in Hu; rewrite lookup_insert_eq in Hu;
        injection Hu as <-; (split; [|reflexivity]);
        destruct (N.leb_spec (File.totalSize f) (InternalUser.usedBytes owner)); lia.
    + intros Hu. left.
      destruct (File.shareToken f); simpl in Hu; by rewrite lookup_insert_ne in Hu.
  - intros Hu. left. by destruct (File.shareToken f).
Qed.

Lemma step_files_below_counter (c : Call) (s : State) :
  files_below_counter s → files_below_counter (step c s).
Proof.
  intros Hinv. destruct c; simpl.
  - destruct (login_commit now username password s) as [g ->]. exact Hinv.
  - exact Hinv.
  - destruct (registerUser_commit username password s) as [->|(uid & u & _ & ->)]; exact Hinv.
  - destruct (createUser_commit token username password role s)
      as [->|(uid & u & _ & ->)]; exact Hinv.
  - destruct (deleteUser_commit token userId s) as [->|(name & ->)]; exact Hinv.
  - destruct (updateUserRole_commit token userId role s) as [->|(u & _ & ->)]; exact Hinv.
  - destruct (updateUserGbLimit_commit token userId gbLimit s) as [->|(u & _ & ->)];
      exact Hinv.
  - destruct (initUpload_commit now token filename mimeType totalSize totalChunks s)
      as [->|(user & _ & _ & _ & ->)]; [exact Hinv|].
    intros fid Hfid. simpl in *. rewrite lookup_insert_ne by lia. apply Hinv. lia.
  - destruct (uploadChunk_commit token fileId chunkIndex chunkData s) as [g ->]. exact Hinv.
  - destruct (finalizeUpload_commit token fileId s) as [->|(f & Hf & ->)]; [exact Hinv|].
    intros fid Hfid. unfold finalized in *.
    assert (fid ≠ fileId) by (intros ->; rewrite (Hinv fileId) in Hf; [done|];
      by destruct (users s !! File.owner f)).
    destruct (users s !! File.owner f); simpl in *;
      (rewrite lookup_insert_ne by done); by apply Hinv.
  - destruct (deleteFile_commit token fileId s) as [->|(f & Hf & ->)]; [exact Hinv|].
    intros fid Hfid. rewrite deleted_files.
    assert (fileIdCounter (deleted fileId f s) = fileIdCounter s) as Hc.
    { unfold deleted. by destruct (users s !! File.owner f), (File.shareToken f). }
    rewrite Hc in Hfid. apply lookup_delete_None. right. by apply Hinv.
  - destruct (generateShareLink_commit now token fileId s)
      as [->|(f & Hf & _ & ->)]; [exact Hinv|].
    intros fid Hfid. simpl in *.
    assert (fid ≠ fileId) by (intros ->; by rewrite (Hinv fileId) in Hf).
    rewrite lookup_insert_ne by done. by apply Hinv.
Qed.

Lemma step_share_bindings_recorded (c : Call) (s : State) :
  files_below_counter s → share_bindings_recorded s → share_bindings_recorded (step c s).
Proof.
  intros Hbelow Hinv. destruct c; simpl.
  - destruct (login_commit now username password s) as [g ->]. exact Hinv.
  - exact Hinv.
  - destruct (registerUser_commit username password s) as [->|(uid & u & _ & ->)]; exact Hinv.
  - destruct (createUser_commit token username password role s)
      as [->|(uid & u & _ & ->)]; exact Hinv.
  - destruct (deleteUser_commit token userId s) as [->|(name & ->)]; exact Hinv.
  - destruct (updateUserRole_commit token userId role s) as [->|(u & _ & ->)]; exact Hinv.
  - destruct (updateUserGbLimit_commit token userId gbLimit s) as [->|(u & _ & ->)];
      exact Hinv.
  - destruct (initUpload_commit now token filename mimeType totalSize totalChunks s)
      as [->|(user & _ & _ & _ & ->)]; [exact Hinv|].
    intros st fid Hst. simpl in *. destruct (Hinv st fid Hst) as (f & Hf & Htok).
    exists f. split; [|done]. rewrite lookup_insert_ne; [done|].
    intros <-. rewrite Hbelow in Hf; [done|lia].
  - destruct (uploadChunk_commit token fileId chunkIndex chunkData s) as [g ->]. exact Hinv.
  - destruct (finalizeUpload_commit token fileId s) as [->|(f & Hf & ->)]; [exact Hinv|].
    intros st fid Hst.
    assert (shareTokens (finalized fileId f s) = shareTokens s) as Heq
      by (unfold finalized; by destruct (users s !! File.owner f)).
    assert (files (finalized fileId f s) = <[fileId := File.with_status f Complete]> (files s))
      as Hfs by (unfold finalized; by destruct (users s !! File.owner f)).
    rewrite Heq in Hst. rewrite Hfs. destruct (Hinv st fid Hst) as (f' & Hf' & Htok).
    destruct (decide (fileId = fid)) as [->|Hne].
    + exists (File.with_status f Complete). rewrite lookup_insert_eq. split; [done|].
      simpl. congruence.
    + exists f'. by rewrite lookup_insert_ne.
  - destruct (deleteFile_commit token fileId s) as [->|(f & Hf & ->)]; [exact Hinv|].
    intros st fid. rewrite deleted_shareTokens, deleted_files. intros Hst.
    assert (shareTokens s !! st = Some fid ∧ File.shareToken f ≠ Some st) as [Hs Hne].
    { destruct (File.shareToken f) as [st0|]; [|done].
      apply lookup_delete_Some in Hst as [Hne Hst]. split; [done|congruence]. }
    destruct (Hinv st fid Hs) as (f' & Hf' & Htok).
    exists f'. split; [|done]. rewrite lookup_delete_ne; [done|]. intros ->. congruence.
  - destruct (generateShareLink_commit now token fileId s)
      as [->|(f & Hf & Hnone & ->)]; [exact Hinv|].
    intros st fid Hst. simpl in *.
    destruct (decide (fresh_share_token now fileId = st)) as [<-|Hne].
    + rewrite lookup_insert_eq in Hst. injection Hst as <-.
      eexists. by rewrite lookup_insert_eq.
    + rewrite lookup_insert_ne in Hst by done.
      destruct (Hinv st fid Hst) as (f' & Hf' & Htok).
      exists f'. split; [|done]. rewrite lookup_insert_ne; [done|]. intros ->. congruence.
Qed.

Lemma reachable_invariants (s : State) :
  reachable s → files_below_counter s ∧ share_bindings_recorded s.
Proof.
  induction 1 as [|c s _ [IH1 IH2]].
  - split; [by intros fid _|by intros st fid H].
  - split; [by apply step_files_below_counter|by apply step_share_bindings_recorded].
Qed.

Lemma run_reachable (cs : list Call) (s : State) : reachable s → reachable (run cs s).
Proof.
  revert s. induction cs as [|c cs IH]; intros s Hs; [done|].
  simpl. apply IH. by constructor.
Qed.

(** ** File ids run out *)

(** A round of churn leaves the state as it was, except that the file id
    counter has advanced. *)
Lemma churn_round (s : State) token user :
  valid_session s token user →
  InternalUser.usedBytes user ≤ InternalUser.quota user →
  fileIdCounter s < Nat32_max →
  files s !! (fileIdCounter s + 1) = None →
  churn token s = set_fileIdCounter (fileIdCounter s + 1) s.
Proof.
  intros Hv Hq Hc Hfree. unfold churn, step.
  set (fid := fileIdCounter s + 1).
  set (pf := pending_file 0 user fid "tmp.bin" "application/octet-stream" 0 0).
  assert (Hq0 : InternalUser.usedBytes user + 0 ≤ InternalUser.quota user) by lia.
  rewrite (commit_Done _ _ _ _
    (initUpload_within_quota 0 s token user "tmp.bin" "application/octet-stream" 0 0
       Hv Hq0 Hc)).
  fold fid pf.
  set (s1 := set_files (<[fid := pf]>) (set_fileIdCounter fid s)).
  assert (Hv1 : valid_session s1 token user) by (by apply (valid_session_same s)).
  assert (Hf1 : files s1 !! fid = Some pf) by apply lookup_insert_eq.
  assert (Hp : permitted pf user) by (by left).
  rewrite (commit_Done _ _ _ _ (deleteFile_permitted s1 token user fid pf Hv1 Hf1 Hp)).
  unfold deleted, s1. destruct s as [us bn fs cs ss sts uc fc]. simpl in *.
  assert (Hfiles : delete fid (<[fid := pf]> fs) = fs) by (by apply delete_insert_id).
  destruct (us !! InternalUser.id user) as [owner|] eqn:Ho;
    unfold set_users, set_files, set_chunks, set_fileIdCounter; simpl;
    rewrite Hfiles; [|done].
  rewrite N.sub_0_r.
  replace (0 <=? InternalUser.usedBytes owner) with true
    by (symmetry; apply N.leb_le; lia).
  replace (InternalUser.with_usedBytes owner (InternalUser.usedBytes owner)) with owner
    by (by destruct owner).
  by rewrite insert_id.
Qed.

Lemma dave_logged_in_facts :
  valid_session dave_logged_in dave_token dave
  ∧ files dave_logged_in = ∅
  ∧ fileIdCounter dave_logged_in = 0.
Proof.
  split_and!.
  - exists (Session.mk 2 dave_token 0 0). split; vm_compute; reflexivity.
  - vm_compute. reflexivity.
  - vm_compute. reflexivity.
Qed.

Lemma set_fileIdCounter_same (s : State) : s = set_fileIdCounter (fileIdCounter s) s.
Proof. by destruct s. Qed.

Lemma churn_reachable (token : SessionToken) (n : N) (s : State) :
  reachable s → reachable (N.iter n (churn token) s).
Proof.
  intros Hs. induction n as [|n IH] using N.peano_ind; [done|].
  rewrite N.iter_succ. unfold churn at 1. by do 2 constructor.
Qed.

(** After [n] rounds Dave's session, his account and the empty file map are
    as after his login, and [n] file ids are used up. *)
Lemma churn_rounds (n : N) :
  n ≤ Nat32_max →
  N.iter n (churn dave_token) dave_logged_in = set_fileIdCounter n dave_logged_in.
Proof.
  destruct dave_logged_in_facts as (Hv & Hfiles & Hzero).
  induction n as [|n IH] using N.peano_ind; intros Hn.
  - change (dave_logged_in = set_fileIdCounter 0 dave_logged_in).
    rewrite <-Hzero. apply set_fileIdCounter_same.
  - rewrite N.iter_succ, IH by lia.
    rewrite (churn_round (set_fileIdCounter n dave_logged_in) dave_token dave).
    + unfold set_fileIdCounter. simpl fileIdCounter. f_equal. lia.
    + by apply (valid_session_same dave_logged_in).
    + by vm_compute.
    + simpl fileIdCounter. lia.
    + change (files dave_logged_in !! (n + 1) = None). by rewrite Hfiles.
Qed.

Lemma ids_used_up_facts :
  reachable ids_used_up
  ∧ valid_session ids_used_up dave_token dave
  ∧ fileIdCounter ids_used_up = Nat32_max.
Proof.
  split_and!.
  - apply churn_reachable, run_reachable. constructor.
  - unfold ids_used_up. rewrite churn_rounds by done.
    apply (valid_session_same dave_logged_in); [done..|].
    apply dave_logged_in_facts.
  - unfold ids_used_up. by rewrite churn_rounds.
Qed.

(** C2 (as the code has it). With a valid session, [initUpload] fails with
    [QuotaExceeded] exactly when [usedBytes + totalSize > quota].  Within the
    quota, and in particular at [usedBytes + totalSize = quota], it returns
    the next file id and stores a [Pending] record under it, as long as the
    [Nat32] file id counter is below its maximum; at the maximum the call
    traps with an arithmetic overflow.  The id is unused so far in every
    reachable state, and more generally in every state where
    [files_below_counter] holds. *)
Theorem initUpload_quota (now : Z) (s : State) token user
    (filename mimeType : string) (totalSize totalChunks : N) :
  valid_session s token user →
  let r := call (initUpload now token filename mimeType totalSize totalChunks) s in
  let fid := fileIdCounter s + 1 in
  (r = (Trap QuotaExceeded, s)
     ↔ InternalUser.quota user < InternalUser.usedBytes user + totalSize)
  ∧ (InternalUser.usedBytes user + totalSize ≤ InternalUser.quota user →
     fileIdCounter s < Nat32_max →
     ∃ s', r = (Done fid, s')
           ∧ files s' !! fid
             = Some (File.mk fid (InternalUser.id user) filename mimeType totalSize
                       totalChunks Pending now None)
           ∧ (files_below_counter s → files s !! fid = None)
           ∧ (reachable s → files s !! fid = None))
  ∧ (InternalUser.usedBytes user + totalSize ≤ InternalUser.quota user →
     Nat32_max ≤ fileIdCounter s →
     r = (Trap ArithmeticOverflow, s)).
Proof.
  intros Hv r fid. subst r fid. split_and!.
  - split.
    + intros Hr. destruct (decide (InternalUser.quota user
                                   < InternalUser.usedBytes user + totalSize)) as [|Hq]; [done|].
      apply N.nlt_ge in Hq.
      destruct (decide (fileIdCounter s < Nat32_max)) as [Hc|Hc].
      * rewrite (call_Done _ _ _ _
          (initUpload_within_quota now s token user _ _ _ _ Hv Hq Hc)) in Hr.
        discriminate Hr.
      * apply N.nlt_ge in Hc.
        rewrite (call_Trap _ _ _ _
          (initUpload_ids_exhausted now s token user _ _ _ _ Hv Hq Hc)) in Hr.
        discriminate Hr.
    + intros Hq. eapply call_Trap. by apply (initUpload_over_quota now s token user).
  - intros Hq Hc. eexists. split_and!.
    + apply call_Done. by apply (initUpload_within_quota now s token user).
    + simpl. apply lookup_insert_eq.
    + intros Hinv. apply Hinv. lia.
    + intros Hreach. apply (reachable_invariants s Hreach). lia.
  - intros Hq Hc. eapply call_Trap. by apply (initUpload_ids_exhausted now s token user).
Qed.

Lemma initUpload_quota_witness :
  reachable dave_logged_in
  ∧ InternalUser.usedBytes dave + 5000000000 = InternalUser.quota dave
  ∧ ∃ s', call (initUpload 7 dave_token "notes.txt" "text/plain" 5000000000 5) dave_logged_in
          = (Done 1, s')
          ∧ files s' !! 1 = Some (File.mk 1 2 "notes.txt" "text/plain" 5000000000 5 Pending 7 None)
          ∧ files dave_logged_in !! 1 = None.
Proof.
  assert (reachable dave_logged_in) as Hreach by (apply run_reachable; constructor).
  split; [exact Hreach|]. split; [reflexivity|].
  destruct (proj1 (proj2
    (initUpload_quota 7 dave_logged_in dave_token dave "notes.txt" "text/plain" 5000000000 5
       (proj1 dave_logged_in_facts))))
    as (s' & Hcall & Hrec & _ & Hfresh).
  - vm_compute. discriminate.
  - vm_compute. reflexivity.
  - exists s'. split_and!; [exact Hcall|exact Hrec|exact (Hfresh Hreach)].
Defined.

(** Success at [usedBytes + totalSize = quota] is not unconditional: once the
    file ids are used up the call traps.  Dave, who has used up the ids by
    declaring and deleting empty files, has nothing charged to his quota of
    5 GB and asks for 5 GB. *)
Lemma initUpload_exact_quota_counterexample :
  (reachable ids_used_up
   ∧ valid_session ids_used_up dave_token dave
   ∧ InternalUser.usedBytes dave + 5000000000 = InternalUser.quota dave
   ∧ fileIdCounter ids_used_up = 4294967295
   ∧ call (initUpload 0 dave_token "notes.txt" "text/plain" 5000000000 5) ids_used_up
     = (Trap ArithmeticOverflow, ids_used_up))
  ∧ ¬ (∀ (now : Z) (s : State) token user (filename mimeType : string)
         (totalSize totalChunks : N),
         reachable s →
         valid_session s token user →
         InternalUser.usedBytes user + totalSize = InternalUser.quota user →
         ∃ fid s', call (initUpload now token filename mimeType totalSize totalChunks) s
                   = (Done fid, s')).
Proof.
  destruct ids_used_up_facts as (Hreach & Hv & Hc).
  assert (Hcall : call (initUpload 0 dave_token "notes.txt" "text/plain" 5000000000 5)
                    ids_used_up
                  = (Trap ArithmeticOverflow, ids_used_up)).
  { eapply call_Trap. apply (initUpload_ids_exhausted 0 ids_used_up dave_token dave).
    - exact Hv.
    - by vm_compute.
    - rewrite Hc. done. }
  split; [split_and!; [exact Hreach|exact Hv|reflexivity|exact Hc|exact Hcall]|].
  intros H.
  destruct (H 0%Z ids_used_up dave_token dave "notes.txt" "text/plain" 5000000000 5
              Hreach Hv eq_refl) as (fid & s' & Hdone).
  rewrite Hcall in Hdone. discriminate Hdone.
Qed.

(** ** The quota ledger *)

Lemma quota_respected_init : quota_respected init_state.
Proof.
  intros uid u. change (users init_state) with
    ({[ 1 := InternalUser.mk 1 "SidneiCosta00" "Nikebolado@4" Master 0 5000000000 0 ]}
       : gmap N InternalUser.t).
  intros [<- <-]%lookup_singleton_Some. simpl. lia.
Qed.

(** C3 (as the code has it). Every committed call keeps [usedBytes ≤ quota]
    for every user, except that [finalizeUpload] adds [totalSize] to the
    owner without looking at the quota and [updateUserGbLimit] replaces the
    quota without looking at [usedBytes]: these two keep the invariant when
    the value they write fits. *)
Theorem quota_respected_step (c : Call) (s : State) :
  quota_respected s → fits c s → quota_respected (step c s).
Proof.
  intros Hq Hfits. destruct c; simpl in *.
  - destruct (login_commit now username password s) as [g ->]. exact Hq.
  - exact Hq.
  - destruct (registerUser_commit username password s) as [->|(uid & u & Hu & ->)];
      [exact Hq|].
    intros uid' u'. simpl. destruct (decide (uid = uid')) as [->|Hne].
    + rewrite lookup_insert_eq. intros [= <-]. lia.
    + rewrite lookup_insert_ne by done. apply Hq.
  - destruct (createUser_commit token username password role s)
      as [->|(uid & u & Hu & ->)]; [exact Hq|].
    intros uid' u'. simpl. destruct (decide (uid = uid')) as [->|Hne].
    + rewrite lookup_insert_eq. intros [= <-]. lia.
    + rewrite lookup_insert_ne by done. apply Hq.
  - destruct (deleteUser_commit token userId s) as [->|(name & ->)]; [exact Hq|].
    intros uid u. simpl. intros [_ Hu]%lookup_delete_Some. by apply (Hq uid).
  - destruct (updateUserRole_commit token userId role s) as [->|(u & Hu & ->)]; [exact Hq|].
    intros uid' u'. simpl. destruct (decide (userId = uid')) as [->|Hne].
    + rewrite lookup_insert_eq. intros [= <-]. simpl. by apply (Hq uid').
    + rewrite lookup_insert_ne by done. apply Hq.
  - destruct (updateUserGbLimit_commit token userId gbLimit s) as [->|(u & Hu & ->)];
      [exact Hq|].
    intros uid' u'. simpl. destruct (decide (userId = uid')) as [->|Hne].
    + rewrite lookup_insert_eq. intros [= <-]. simpl. by apply Hfits.
    + rewrite lookup_insert_ne by done. apply Hq.
  - destruct (initUpload_commit now token filename mimeType totalSize totalChunks s)
      as [->|(user & _ & _ & _ & ->)]; exact Hq.
  - destruct (uploadChunk_commit token fileId chunkIndex chunkData s) as [g ->]. exact Hq.
  - destruct (finalizeUpload_commit token fileId s) as [->|(f & Hf & ->)]; [exact Hq|].
    intros uid u [Hu|(owner & Ho & -> & ->)]%finalized_users; [by apply (Hq uid)|].
    simpl. by apply Hfits.
  - destruct (deleteFile_commit token fileId s) as [->|(f & Hf & ->)]; [exact Hq|].
    intros uid u [Hu|(owner & n & Ho & Hn & ->)]%deleted_users; [by apply (Hq uid)|].
    simpl. specialize (Hq uid owner Ho). lia.
  - destruct (generateShareLink_commit now token fileId s)
      as [->|(f & _ & _ & ->)]; exact Hq.
Qed.

Lemma quota_respected_step_witness :
  quota_respected (step (FinalizeUpload "tok-a" 1) demo_uploaded).
Proof.
  apply quota_respected_step.
  - intros uid u. change (users demo_uploaded) with
      ({[ 2 := alice; 3 := bob; 4 := carol ]} : gmap N InternalUser.t).
    rewrite !lookup_insert_Some, lookup_singleton_Some.
    intros [[_ <-]|[_ [[_ <-]|[_ [_ <-]]]]]; vm_compute; discriminate.
  - intros f owner. change (files demo_uploaded) with ({[ 1 := report ]} : gmap N File.t).
    intros [_ <-]%lookup_singleton_Some. change (File.owner report) with 2.
    change (users demo_uploaded) with
      ({[ 2 := alice; 3 := bob; 4 := carol ]} : gmap N InternalUser.t).
    rewrite lookup_insert_eq. intros [= <-]. vm_compute. discriminate.
Defined.

(** [usedBytes ≤ quota] is not an invariant of the committed calls: after
    [two_uploads] Dave has used 6 GB of his 5 GB; after [quota_lowered] he
    has used 3 GB of 1 GB. *)
Lemma quota_respected_counterexample :
  quota_respected init_state
  ∧ (reachable (run two_uploads init_state)
     ∧ users (run two_uploads init_state) !! 2
       = Some (InternalUser.mk 2 "dave" "pw-d" Client 5 5000000000 6000000000)
     ∧ ¬ quota_respected (run two_uploads init_state))
  ∧ (reachable (run quota_lowered init_state)
     ∧ users (run quota_lowered init_state) !! 2
       = Some (InternalUser.mk 2 "dave" "pw-d" Client 1 1000000000 3000000000)
     ∧ ¬ quota_respected (run quota_lowered init_state)).
Proof.
  assert (Hover : ∀ s u, users s !! 2 = Some u →
            InternalUser.quota u < InternalUser.usedBytes u → ¬ quota_respected s).
  { intros s u Hu Hlt Hq. apply Hq in Hu. lia. }
  split_and!.
  - apply quota_respected_init.
  - apply run_reachable. constructor.
  - vm_compute. reflexivity.
  - eapply Hover; [vm_compute; reflexivity|reflexivity].
  - apply run_reachable. constructor.
  - vm_compute. reflexivity.
  - eapply Hover; [vm_compute; reflexivity|reflexivity].
Qed.

(** * Further properties of the actor *)

(** ** Chunk keys *)

Lemma no_sep_empty : no_sep "".
Proof. intros [|c s1] s2 H; discriminate H. Qed.

Lemma no_sep_cons (c : ascii) (s : string) :
  c ≠ "_"%char → no_sep s → no_sep (String c s).
Proof.
  intros Hc Hs [|c' s1] s2 H; simpl in H.
  - injection H as -> _. by apply Hc.
  - injection H as _ H. by apply (Hs s1 s2).
Qed.

Lemma no_sep_tail (c : ascii) (s : string) : no_sep (String c s) → no_sep s.
Proof. intros Hs s1 s2 ->. by apply (Hs (String c s1) s2). Qed.

Lemma pretty_N_go_no_sep (x : N) (s : string) : no_sep s → no_sep (pretty_N_go x s).
Proof.
  revert s. induction (N.lt_wf_0 x) as [x _ IH]; intros s Hs.
  assert (x = 0 ∨ 0 < x) as [->|Hx] by lia.
  - by rewrite pretty_N_go_0.
  - rewrite pretty_N_go_step by done. apply IH.
    { by apply N.div_lt. }
    apply no_sep_cons; [|done]. unfold pretty_N_char. by repeat case_match.
Qed.

Lemma Nat_toText_no_sep (n : N) : no_sep (Nat_toText n).
Proof.
  unfold Nat_toText, pretty, pretty_N. case_decide.
  - apply no_sep_cons; [done|apply no_sep_empty].
  - apply pretty_N_go_no_sep, no_sep_empty.
Qed.

Lemma split_at_sep (a c b d : string) :
  no_sep a → no_sep c →
  a +:+ String "_"%char b = c +:+ String "_"%char d → a = c ∧ b = d.
Proof.
  revert c. induction a as [|x a IH]; intros [|y c] Ha Hc H; simpl in H.
  - by injection H as ->.
  - injection H as <- H. by destruct (Hc "" c).
  - injection H as -> H. by destruct (Ha "" a).
  - injection H as -> H.
    destruct (IH c (no_sep_tail _ _ Ha) (no_sep_tail _ _ Hc) H) as [-> ->]. done.
Qed.

(** X1.  Two chunks share a key only if they are the same chunk of the same file:
    the chunk map never mixes up files or indices. *)
Theorem chunkKey_inj (fileId fileId' : FileId) (i i' : N) :
  chunkKey fileId i = chunkKey fileId' i' ↔ fileId = fileId' ∧ i = i'.
Proof.
  split; [|by intros [-> ->]].
  unfold chunkKey. intros H.
  apply split_at_sep in H as [H1 H2]; [|apply Nat_toText_no_sep..].
  split; by apply (inj pretty).
Qed.

(** ** User management: what each call commits *)

Lemma deleteUser_commit_detail (token : SessionToken) (userId : UserId) (s : State) :
  commit (deleteUser token userId) s = s
  ∨ ∃ actor_ u,
      valid_session s token actor_ ∧ elevated actor_
      ∧ users s !! userId = Some u ∧ InternalUser.role u ≠ Master
      ∧ (InternalUser.role actor_ = Staff → InternalUser.role u = Client)
      ∧ commit (deleteUser token userId) s
        = set_users (delete userId) (set_usersByName (delete (InternalUser.username u)) s).
Proof.
  unfold deleteUser. branches; try (by left).
  right. exists a, t. split_and!; [by exists t0| |done| | |done].
  - unfold elevated. destruct (InternalUser.role a); [by left|by right|done].
  - by apply bool_decide_eq_false in H.
  - intros Hstaff. rewrite Hstaff in H3. by destruct (InternalUser.role t).
Qed.

Lemma updateUserRole_commit_detail (token : SessionToken) (userId : UserId) (role : Role)
    (s : State) :
  commit (updateUserRole token userId role) s = s
  ∨ ∃ actor_ u,
      valid_session s token actor_ ∧ InternalUser.role actor_ = Master
      ∧ users s !! userId = Some u ∧ InternalUser.role u ≠ Master
      ∧ commit (updateUserRole token userId role) s
        = set_users (<[userId := InternalUser.with_role u role]>) s.
Proof.
  unfold updateUserRole. branches; try (by left).
  right. eexists _, _. split_and!; [by eexists|..|done]; [|done|].
  - match goal with H : bool_decide (_ ≠ Master) = false |- _ =>
      apply bool_decide_eq_false in H; by apply dec_stable in H end.
  - match goal with H : bool_decide (_ = Master) = false |- _ =>
      by apply bool_decide_eq_false in H end.
Qed.

Lemma updateUserGbLimit_commit_detail (token : SessionToken) (userId : UserId) (gbLimit : N)
    (s : State) :
  commit (updateUserGbLimit token userId gbLimit) s = s
  ∨ ∃ actor_ u,
      valid_session s token actor_ ∧ elevated actor_
      ∧ users s !! userId = Some u ∧ InternalUser.role u = Client
      ∧ commit (updateUserGbLimit token userId gbLimit) s
        = set_users (<[userId :=
            InternalUser.with_gb_quota u gbLimit (gbLimit * 1000000000)]>) s.
Proof.
  unfold updateUserGbLimit. branches; try (by left).
  right. eexists _, _. split_and!; [by eexists| |done| |done].
  - unfold elevated.
    match goal with H : bool_decide (InternalUser.role ?a ≠ Master) && _ = false |- _ =>
      destruct (InternalUser.role a); [by left|by right|done] end.
  - match goal with H : bool_decide (_ ≠ Client) = false |- _ =>
      apply bool_decide_eq_false in H; by apply dec_stable in H end.
Qed.

Lemma registerUser_commit_detail (username password : string) (s : State) :
  commit (registerUser username password) s = s
  ∨ (usersByName s !! username = None ∧ userIdCounter s < Nat32_max
     ∧ commit (registerUser username password) s
       = set_usersByName (<[username := userIdCounter s + 1]>)
           (set_users (<[userIdCounter s + 1 :=
              InternalUser.mk (userIdCounter s + 1) username (hashPassword password)
                              Client 5 5000000000 0]>)
              (set_userIdCounter (userIdCounter s + 1) s))).
Proof.
  unfold registerUser. branches; try (by left).
  right. split_and!; [done| |done].
  match goal with H : (_ <=? _) = true |- _ => apply N.leb_le in H; lia end.
Qed.

Lemma createUser_commit_detail (token : SessionToken) (username password : string)
    (role : Role) (s : State) :
  commit (createUser token username password role) s = s
  ∨ ∃ actor_,
      valid_session s token actor_ ∧ elevated actor_
      ∧ (InternalUser.role actor_ = Staff → role = Client)
      ∧ usersByName s !! username = None ∧ userIdCounter s < Nat32_max
      ∧ commit (createUser token username password role) s
        = set_usersByName (<[username := userIdCounter s + 1]>)
            (set_users (<[userIdCounter s + 1 :=
               InternalUser.mk (userIdCounter s + 1) username (hashPassword password) role
                               (match role with Client => 5 | _ => 0 end) 5000000000 0]>)
               (set_userIdCounter (userIdCounter s + 1) s)).
Proof.
  unfold createUser. branches; try (by left);
    right; eexists; (split_and!; [by eexists| | |done| |done]);
    try (match goal with H : (_ <=? _) = true |- _ => apply N.leb_le in H; lia end);
    try (unfold elevated;
         match goal with H : bool_decide (InternalUser.role ?a ≠ Master) && _ = false |- _ =>
           destruct (InternalUser.role a); [by left|by right|done] end);
    try done;
    intros Hstaff;
    match goal with H : bool_decide (InternalUser.role _ = Staff) && _ = false |- _ =>
      rewrite Hstaff in H; done end.
Qed.

Lemma finalized_accounts (c : Call) (fileId : FileId) (f : File.t) (s : State) :
  accounts_change c s (finalized fileId f s).
Proof.
  unfold finalized. destruct (users s !! File.owner f) as [owner|] eqn:Ho.
  - by eapply (accounts_rewrite c s _ (File.owner f) owner); [done|reflexivity|..|left].
  - by apply accounts_same.
Qed.

Lemma deleted_accounts (c : Call) (fileId : FileId) (f : File.t) (s : State) :
  accounts_change c s (deleted fileId f s).
Proof.
  unfold deleted.
  destruct (users s !! File.owner f) as [owner|] eqn:Ho, (File.shareToken f) as [st|];
    try (by apply accounts_same);
    by eapply (accounts_rewrite c s _ (File.owner f) owner); [done|reflexivity|..|left].
Qed.

Lemma step_accounts_change (c : Call) (s : State) : accounts_change c s (step c s).
Proof.
  destruct c; simpl.
  - destruct (login_commit now username password s) as [g ->]. by apply accounts_same.
  - by apply accounts_same.
  - destruct (registerUser_commit_detail username password s) as [->|(Hfree & Hc & ->)].
    + by apply accounts_same.
    + eapply accounts_open; eauto.
  - destruct (createUser_commit_detail token username password role s)
      as [->|(actor_ & Hv & Hel & Hstaff & Hfree & Hc & ->)].
    + by apply accounts_same.
    + eapply accounts_open; eauto. right. by exists token, actor_.
  - destruct (deleteUser_commit_detail token userId s)
      as [->|(actor_ & u & Hv & Hel & Hu & Hnm & Hstaff & ->)].
    + by apply accounts_same.
    + by eapply (accounts_close _ s _ token userId actor_ u).
  - destruct (updateUserRole_commit_detail token userId role s)
      as [->|(actor_ & u & Hv & Hm & Hu & Hnm & ->)].
    + by apply accounts_same.
    + eapply (accounts_rewrite _ s _ userId u); eauto.
      right. by exists token, role, actor_.
  - destruct (updateUserGbLimit_commit_detail token userId gbLimit s)
      as [->|(actor_ & u & Hv & Hel & Hu & Hcl & ->)].
    + by apply accounts_same.
    + eapply (accounts_rewrite _ s _ userId u); eauto.
  - destruct (initUpload_commit now token filename mimeType totalSize totalChunks s)
      as [->|(user & _ & _ & _ & ->)]; by apply accounts_same.
  - destruct (uploadChunk_commit token fileId chunkIndex chunkData s) as [g ->].
    by apply accounts_same.
  - destruct (finalizeUpload_commit token fileId s) as [->|(f & Hf & ->)].
    + by apply accounts_same.
    + apply finalized_accounts.
  - destruct (deleteFile_commit token fileId s) as [->|(f & Hf & ->)].
    + by apply accounts_same.
    + apply deleted_accounts.
  - destruct (generateShareLink_commit now token fileId s)
      as [->|(f & _ & _ & ->)]; by apply accounts_same.
Qed.

(** ** Invariants of the accounts *)

Lemma accounts_change_below_counter (c : Call) (s s' : State) :
  accounts_change c s s' → users_below_counter s → users_below_counter s'.
Proof.
  intros [Hu _ Hc|uid u u' Hlook Hu _ Hc _ _ _ _|name pw role gb _ _ Hu _ Hc _
          |token uid actor_ u _ _ _ _ _ _ Hu _ Hc] Hinv uid0;
    rewrite Hc, Hu; intros Hlt.
  - by apply Hinv.
  - rewrite lookup_insert_ne; [by apply Hinv|].
    intros ->. by rewrite Hinv in Hlook.
  - rewrite lookup_insert_ne by lia. apply Hinv. lia.
  - apply lookup_delete_None. right. by apply Hinv.
Qed.

Lemma accounts_change_directory (c : Call) (s s' : State) :
  accounts_change c s s' → users_below_counter s →
  directory_consistent s → directory_consistent s'.
Proof.
  intros [Hu Hn _|uid u u' Hlook Hu Hn _ Hid Hname _ _|name pw role gb Hfree _ Hu Hn _ _
          |token uid actor_ u _ _ _ Hlook _ _ Hu Hn _] Hbelow [Hfwd Hback];
    split; rewrite Hu, Hn.
  - exact Hfwd.
  - exact Hback.
  - intros uid0 u0. destruct (decide (uid = uid0)) as [->|Hne].
    + rewrite lookup_insert_eq. intros [= ?]. subst u0. rewrite Hid, Hname. by apply Hfwd.
    + rewrite lookup_insert_ne by done. apply Hfwd.
  - intros name uid0 Hlk. destruct (Hback name uid0 Hlk) as (u0 & Hu0 & Hn0).
    destruct (decide (uid = uid0)) as [->|Hne].
    + exists u'. rewrite lookup_insert_eq. split; [done|]. congruence.
    + exists u0. by rewrite lookup_insert_ne.
  - intros uid0 u0. destruct (decide (userIdCounter s + 1 = uid0)) as [<-|Hne].
    + rewrite lookup_insert_eq. intros [= <-]. simpl. by rewrite lookup_insert_eq.
    + rewrite lookup_insert_ne by done. intros Hu0.
      destruct (Hfwd uid0 u0 Hu0) as [Hid Hlk]. split; [done|].
      rewrite lookup_insert_ne; [done|]. intros Heq. rewrite Heq in Hfree. congruence.
  - intros name0 uid0. destruct (decide (name = name0)) as [<-|Hne].
    + rewrite lookup_insert_eq. intros [= <-]. eexists. by rewrite lookup_insert_eq.
    + rewrite lookup_insert_ne by done. intros Hlk.
      destruct (Hback name0 uid0 Hlk) as (u0 & Hu0 & Hn0). exists u0. split; [|done].
      rewrite lookup_insert_ne; [done|]. intros <-.
      rewrite Hbelow in Hu0; [done|lia].
  - intros uid0 u0 [Hne Hu0]%lookup_delete_Some.
    destruct (Hfwd uid0 u0 Hu0) as [Hid Hlk]. split; [done|].
    rewrite lookup_delete_ne; [done|]. intros Heq.
    destruct (Hfwd uid u Hlook) as [_ Hlk']. congruence.
  - intros name0 uid0 [Hne Hlk]%lookup_delete_Some.
    destruct (Hback name0 uid0 Hlk) as (u0 & Hu0 & Hn0). exists u0. split; [|done].
    rewrite lookup_delete_ne; [done|]. intros <-. congruence.
Qed.

Lemma reachable_accounts (s : State) :
  reachable s → users_below_counter s ∧ directory_consistent s.
Proof.
  induction 1 as [|c s _ [IH1 IH2]].
  - unfold users_below_counter, directory_consistent.
    change (users init_state) with
      ({[ 1 := InternalUser.mk 1 "SidneiCosta00" "Nikebolado@4" Master 0 5000000000 0 ]}
         : gmap N InternalUser.t).
    change (usersByName init_state) with ({[ "SidneiCosta00" := 1 ]} : gmap string N).
    change (userIdCounter init_state) with 1.
    split_and!.
    + intros uid Hlt. apply lookup_singleton_ne. lia.
    + intros uid u [<- <-]%lookup_singleton_Some. done.
    + intros name uid [<- <-]%lookup_singleton_Some. eexists. done.
  - pose proof (step_accounts_change c s) as Hch. split.
    + by apply (accounts_change_below_counter c s).
    + by apply (accounts_change_directory c s).
Qed.

(** X2.  In every reachable state each user is stored under its own id, the name
    directory leads to exactly the stored users, and no two users share a
    username. *)
Theorem reachable_usernames_unique (s : State) :
  reachable s →
  (∀ uid u, users s !! uid = Some u →
            InternalUser.id u = uid ∧ usersByName s !! InternalUser.username u = Some uid)
  ∧ (∀ name uid, usersByName s !! name = Some uid →
                 ∃ u, users s !! uid = Some u ∧ InternalUser.username u = name)
  ∧ (∀ uid1 uid2 u1 u2,
       users s !! uid1 = Some u1 → users s !! uid2 = Some u2 →
       InternalUser.username u1 = InternalUser.username u2 → uid1 = uid2).
Proof.
  intros [_ [Hfwd Hback]]%reachable_accounts. split_and!; [done..|].
  intros uid1 uid2 u1 u2 H1 H2 Hname.
  destruct (Hfwd uid1 u1 H1) as [_ Hl1]. destruct (Hfwd uid2 u2 H2) as [_ Hl2].
  congruence.
Qed.

Lemma reachable_usernames_unique_witness :
  reachable (run two_uploads init_state)
  ∧ ∀ uid1 uid2 u1 u2,
      users (run two_uploads init_state) !! uid1 = Some u1 →
      users (run two_uploads init_state) !! uid2 = Some u2 →
      InternalUser.username u1 = InternalUser.username u2 → uid1 = uid2.
Proof.
  assert (reachable (run two_uploads init_state)) as Hreach
    by (apply run_reachable; constructor).
  split; [exact Hreach|].
  apply (reachable_usernames_unique (run two_uploads init_state) Hreach).
Defined.

(** ** Roles *)

(** X3.  A Master account stays: no call removes it or takes the Master role
    from it. *)
Theorem master_account_stays (c : Call) (s : State) uid u :
  users_below_counter s →
  users s !! uid = Some u → InternalUser.role u = Master →
  ∃ u', users (step c s) !! uid = Some u'
        ∧ InternalUser.role u' = Master
        ∧ InternalUser.username u' = InternalUser.username u
        ∧ InternalUser.passwordHash u' = InternalUser.passwordHash u.
Proof.
  intros Hbelow Hu Hrole.
  destruct (step_accounts_change c s)
    as [Heq _ _|uid0 u0 u0' Hlook Heq _ _ _ Hname Hpw Hr|name pw role gb _ _ Heq _ _ _
        |token uid0 actor_ u0 _ _ _ Hlook Hnm _ Heq _ _]; rewrite Heq.
  - by exists u.
  - destruct (decide (uid0 = uid)) as [->|Hne].
    + rewrite lookup_insert_eq. exists u0'. assert (u0 = u) as -> by congruence.
      split_and!; [done| |done..].
      destruct Hr as [->|(? & ? & ? & _ & _ & _ & Hnm & _)]; done.
    + rewrite lookup_insert_ne by done. by exists u.
  - rewrite lookup_insert_ne; [by exists u|].
    intros Heq'. rewrite <-Heq', Hbelow in Hu; [done|lia].
  - rewrite lookup_delete_ne; [by exists u|]. intros ->. congruence.
Qed.

Lemma master_account_stays_witness :
  ∃ u', users (step (DeleteUser master_token 1) (run quota_lowered init_state)) !! 1 = Some u'
        ∧ InternalUser.role u' = Master
        ∧ InternalUser.username u' = "SidneiCosta00"
        ∧ InternalUser.passwordHash u' = "Nikebolado@4".
Proof.
  apply (master_account_stays (DeleteUser master_token 1) (run quota_lowered init_state) 1
           (InternalUser.mk 1 "SidneiCosta00" "Nikebolado@4" Master 0 5000000000 0)).
  - apply reachable_accounts, run_reachable. constructor.
  - vm_compute. reflexivity.
  - reflexivity.
Defined.

(** X4.  An elevated role is granted by a Master only: when a user has a role
    other than Client after a call and did not have that role before, the
    call was [updateUserRole] or [createUser] with the session of a Master. *)
Theorem elevated_role_granted_by_master (c : Call) (s : State) uid u' :
  users_below_counter s →
  users (step c s) !! uid = Some u' → InternalUser.role u' ≠ Client →
  (∃ u, users s !! uid = Some u ∧ InternalUser.role u = InternalUser.role u')
  ∨ ∃ token actor_,
      valid_session s token actor_ ∧ InternalUser.role actor_ = Master
      ∧ (c = UpdateUserRole token uid (InternalUser.role u')
         ∨ ∃ name password, c = CreateUser token name password (InternalUser.role u')).
Proof.
  intros Hbelow.
  destruct (step_accounts_change c s)
    as [Heq _ _|uid0 u0 u0' Hlook Heq _ _ _ _ _ Hr|name pw role gb _ _ Heq _ _ Hr
        |token uid0 actor_ u0 _ _ _ _ _ _ Heq _ _]; rewrite Heq; intros Hu' Hrole.
  - left. by exists u'.
  - destruct (decide (uid0 = uid)) as [->|Hne].
    + rewrite lookup_insert_eq in Hu'. injection Hu' as ->.
      destruct Hr as [Hr|(token & role & actor_ & -> & Hv & Hm & _ & <-)].
      * left. by exists u0.
      * right. exists token, actor_. split_and!; [done..|by left].
    + rewrite lookup_insert_ne in Hu' by done. left. by exists u'.
  - destruct (decide (userIdCounter s + 1 = uid)) as [<-|Hne].
    + rewrite lookup_insert_eq in Hu'. injection Hu' as <-. simpl in *.
      destruct Hr as [->|(token & actor_ & -> & Hv & Hel & Hstaff)]; [done|].
      right. exists token, actor_. split_and!; [done| |right; by eexists _, _].
      destruct Hel as [?|Hs]; [done|]. by destruct Hrole; apply Hstaff.
    + rewrite lookup_insert_ne in Hu' by done. left. by exists u'.
  - apply lookup_delete_Some in Hu' as [_ Hu']. left. by exists u'.
Qed.

Lemma elevated_role_granted_by_master_witness :
  (∃ u, users (run quota_lowered init_state) !! 2 = Some u
        ∧ InternalUser.role u = Staff)
  ∨ ∃ token actor_,
      valid_session (run quota_lowered init_state) token actor_
      ∧ InternalUser.role actor_ = Master
      ∧ (UpdateUserRole master_token 2 Staff = UpdateUserRole token 2 Staff
         ∨ ∃ name password,
             UpdateUserRole master_token 2 Staff = CreateUser token name password Staff).
Proof.
  apply (elevated_role_granted_by_master (UpdateUserRole master_token 2 Staff)
           (run quota_lowered init_state) 2
           (InternalUser.mk 2 "dave" "pw-d" Staff 1 1000000000 3000000000)).
  - apply reachable_accounts, run_reachable. constructor.
  - vm_compute. reflexivity.
  - discriminate.
Defined.

(** ** Sessions: login, logout, registration *)

Lemma login_accepts (now : Z) (s : State) (username password : string) uid user :
  usersByName s !! username = Some uid → users s !! uid = Some user →
  InternalUser.passwordHash user = password →
  login now username password s
  = (Done (login_token now username password),
     set_sessions (<[login_token now username password :=
        Session.mk (InternalUser.id user) (login_token now username password) now now]>) s).
Proof.
  intros Hn Hu Hpw. unfold login. rewrite bind_gets, Hn, bind_gets, Hu.
  unfold hashPassword. rewrite bool_decide_eq_false_2 by (by intros Hne; apply Hne).
  by rewrite bind_trap_if_false, bind_modify.
Qed.

(** X5.  A stored user who logs in with the stored name and password gets a token
    under which [validateSession] and [getMe] answer with that user's role,
    name and profile. *)
Theorem login_opens_session (now : Z) (s : State) uid user :
  directory_consistent s → users s !! uid = Some user →
  let username := InternalUser.username user in
  let password := InternalUser.passwordHash user in
  let token := login_token now username password in
  ∃ s', call (login now username password) s = (Done token, s')
        ∧ valid_session s' token user
        ∧ query (validateSession token) s' = Done (InternalUser.role user, username)
        ∧ query (getMe token) s' = Done (toPublicProfile user).
Proof.
  intros [Hfwd _] Hu username password token.
  destruct (Hfwd uid user Hu) as [Hid Hn].
  assert (Hv : valid_session
            (set_sessions (<[token := Session.mk (InternalUser.id user) token now now]>) s)
            token user).
  { eexists. split; [apply lookup_insert_eq|]. simpl. by rewrite Hid. }
  eexists. split_and!.
  - apply call_Done. by apply (login_accepts now s username password uid user).
  - done.
  - unfold query, validateSession. by rewrite (bind_Done _ _ _ _ _ (requireSession_valid _ _ _ Hv)).
  - unfold query, getMe. by rewrite (bind_Done _ _ _ _ _ (requireSession_valid _ _ _ Hv)).
Qed.

Lemma login_opens_session_witness :
  ∃ s', call (login 7 "SidneiCosta00" "Nikebolado@4") init_state
        = (Done (login_token 7 "SidneiCosta00" "Nikebolado@4"), s')
        ∧ query (validateSession (login_token 7 "SidneiCosta00" "Nikebolado@4")) s'
          = Done (Master, "SidneiCosta00").
Proof.
  destruct (login_opens_session 7 init_state 1
              (InternalUser.mk 1 "SidneiCosta00" "Nikebolado@4" Master 0 5000000000 0))
    as (s' & Hcall & _ & Hval & _).
  - apply reachable_accounts. constructor.
  - vm_compute. reflexivity.
  - exists s'. split; assumption.
Defined.

(** X6.  An unknown user name and a wrong password are refused alike: the same
    trap, and nothing is written. *)
Theorem login_rejects (now : Z) (s : State) (username password : string) :
  (∀ uid user, usersByName s !! username = Some uid → users s !! uid = Some user →
               InternalUser.passwordHash user ≠ password) →
  login now username password s = (Trap InvalidCredentials, s).
Proof.
  intros Hbad. unfold login. rewrite bind_gets.
  destruct (usersByName s !! username) as [uid|] eqn:Hn; [|done].
  rewrite bind_gets. destruct (users s !! uid) as [user|] eqn:Hu; [|done].
  unfold hashPassword. by rewrite bool_decide_eq_true_2 by (by apply (Hbad uid)).
Qed.

Lemma login_rejects_witness :
  login 7 "alice" "guess" demo_state = (Trap InvalidCredentials, demo_state)
  ∧ login 7 "mallory" "guess" demo_state = (Trap InvalidCredentials, demo_state).
Proof.
  split; apply login_rejects.
  - intros uid user. change (usersByName demo_state !! "alice") with (Some 2).
    intros [= <-]. change (users demo_state !! 2) with (Some alice).
    intros [= <-]. discriminate.
  - intros uid user. change (usersByName demo_state !! "mallory") with (@None N).
    discriminate.
Defined.

(** X7.  After [logout] the token is dead: each of the sixteen methods that
    ask for a session traps with the invalid-session message when it is given
    the token ([downloadFile], which looks up the file first, when it is
    given the token and no share token).  [logout] itself asks for no
    session: called again with the token it succeeds and changes nothing.
    The other sessions are as before. *)
Theorem logout_ends_session (s : State) (token : SessionToken) :
  let s' := commit (logout token) s in
  requireSession token s' = (Trap InvalidSession, s')
  ∧ call (logout token) s' = (Done tt, s')
  ∧ (∀ t user, t ≠ token → valid_session s' t user ↔ valid_session s t user)
  ∧ query (validateSession token) s' = Trap InvalidSession
  ∧ query (getMe token) s' = Trap InvalidSession
  ∧ query (getMyStorageStats token) s' = Trap InvalidSession
  ∧ query (listFiles token) s' = Trap InvalidSession
  ∧ query (listUsers token) s' = Trap InvalidSession
  ∧ (∀ userId, query (getUserStorageStats token userId) s' = Trap InvalidSession)
  ∧ (∀ fileId, query (downloadFile fileId (Some token) None) s' = Trap InvalidSession
               ∨ query (downloadFile fileId (Some token) None) s' = Trap FileNotFound)
  ∧ (∀ now filename mimeType totalSize totalChunks,
       call (initUpload now token filename mimeType totalSize totalChunks) s'
       = (Trap InvalidSession, s'))
  ∧ (∀ fileId i d, call (uploadChunk token fileId i d) s' = (Trap InvalidSession, s'))
  ∧ (∀ fileId, call (finalizeUpload token fileId) s' = (Trap InvalidSession, s'))
  ∧ (∀ fileId, call (deleteFile token fileId) s' = (Trap InvalidSession, s'))
  ∧ (∀ now fileId, call (generateShareLink now token fileId) s' = (Trap InvalidSession, s'))
  ∧ (∀ username password role,
       call (createUser token username password role) s' = (Trap InvalidSession, s'))
  ∧ (∀ userId, call (deleteUser token userId) s' = (Trap InvalidSession, s'))
  ∧ (∀ userId role, call (updateUserRole token userId role) s' = (Trap InvalidSession, s'))
  ∧ (∀ userId gbLimit,
       call (updateUserGbLimit token userId gbLimit) s' = (Trap InvalidSession, s')).
Proof.
  intros s'.
  assert (Hdead : requireSession token s' = (Trap InvalidSession, s')).
  { unfold requireSession. rewrite bind_gets. subst s'. simpl.
    by rewrite lookup_delete_eq. }
  assert (Hadmin : requireMasterOrStaff token s' = (Trap InvalidSession, s')).
  { unfold requireMasterOrStaff. by apply bind_Trap. }
  assert (Hmaster : requireMaster token s' = (Trap InvalidSession, s')).
  { unfold requireMaster. by apply bind_Trap. }
  split_and!; try done.
  - subst s'. unfold call, commit, call, logout, modify, set_sessions. simpl.
    by rewrite delete_delete_eq.
  - intros t user Hne. subst s'. unfold valid_session. simpl.
    assert (token ≠ t) as Hne' by done.
    by setoid_rewrite (lookup_delete_ne (sessions s) token t Hne').
  - unfold query, validateSession. by rewrite (bind_Trap _ _ _ _ _ Hdead).
  - unfold query, getMe. by rewrite (bind_Trap _ _ _ _ _ Hdead).
  - unfold query, getMyStorageStats. by rewrite (bind_Trap _ _ _ _ _ Hdead).
  - unfold query, listFiles. by rewrite (bind_Trap _ _ _ _ _ Hdead).
  - unfold query, listUsers. by rewrite (bind_Trap _ _ _ _ _ Hadmin).
  - intros userId. unfold query, getUserStorageStats.
    by rewrite (bind_Trap _ _ _ _ _ Hadmin).
  - intros fileId. unfold query. destruct (files s' !! fileId) as [f|] eqn:Hf.
    + left. rewrite (downloadFile_no_share s' fileId f Hf) by (by intros (? & [=] & ?)).
      by rewrite Hdead.
    + right. unfold downloadFile. by rewrite bind_gets, Hf.
  - intros. eapply call_Trap. unfold initUpload. by apply bind_Trap.
  - intros. eapply call_Trap. unfold uploadChunk. by apply bind_Trap.
  - intros. eapply call_Trap. unfold finalizeUpload. by apply bind_Trap.
  - intros. eapply call_Trap. unfold deleteFile. by apply bind_Trap.
  - intros. eapply call_Trap. unfold generateShareLink. by apply bind_Trap.
  - intros. eapply call_Trap. unfold createUser. by apply bind_Trap.
  - intros. eapply call_Trap. unfold deleteUser. by apply bind_Trap.
  - intros. eapply call_Trap. unfold updateUserRole. by apply bind_Trap.
  - intros. eapply call_Trap. unfold updateUserGbLimit. by apply bind_Trap.
Qed.

(** X8.  [registerUser] refuses a taken name and, with a free name, opens a Client
    account with 5 GB and nothing used under the next user id; the new user
    can log in at once with the chosen password.  When the [Nat32] user ids
    are used up it traps. *)
Theorem registerUser_outcomes (s : State) (username password : string) :
  (usersByName s !! username ≠ None →
     call (registerUser username password) s = (Trap UsernameTaken, s))
  ∧ (usersByName s !! username = None → Nat32_max ≤ userIdCounter s →
     call (registerUser username password) s = (Trap ArithmeticOverflow, s))
  ∧ (usersByName s !! username = None → userIdCounter s < Nat32_max →
     let uid := userIdCounter s + 1 in
     let u := InternalUser.mk uid username password Client 5 5000000000 0 in
     ∃ s1, call (registerUser username password) s = (Done uid, s1)
           ∧ users s1 !! uid = Some u
           ∧ (users_below_counter s → users s !! uid = None)
           ∧ ∀ now, ∃ s2,
               call (login now username password) s1
               = (Done (login_token now username password), s2)
               ∧ valid_session s2 (login_token now username password) u).
Proof.
  split_and!.
  - intros Htaken. eapply call_Trap. unfold registerUser. rewrite bind_gets.
    by destruct (usersByName s !! username).
  - intros Hfree Hc. eapply call_Trap. unfold registerUser.
    rewrite bind_gets, Hfree, bind_ret. apply bind_Trap.
    unfold nextUserId, Nat32_succ, bind, gets. simpl.
    assert ((userIdCounter s + 1 <=? Nat32_max) = false) as -> by (apply N.leb_gt; lia).
    reflexivity.
  - intros Hfree Hc uid u.
    assert (Hreg : registerUser username password s
              = (Done uid, set_usersByName (<[username := uid]>)
                             (set_users (<[uid := u]>) (set_userIdCounter uid s)))).
    { unfold registerUser. rewrite bind_gets, Hfree, bind_ret.
      unfold nextUserId, Nat32_succ, bind, gets, modify, ret. simpl.
      assert ((userIdCounter s + 1 <=? Nat32_max) = true) as -> by (apply N.leb_le; lia).
      reflexivity. }
    eexists. split_and!.
    + by apply call_Done.
    + simpl. apply lookup_insert_eq.
    + intros Hbelow. apply Hbelow. lia.
    + intros now. eexists. split.
      * apply call_Done. apply (login_accepts now _ username password uid u); [| |done].
        -- simpl. apply lookup_insert_eq.
        -- simpl. apply lookup_insert_eq.
      * eexists. split; [apply lookup_insert_eq|]. simpl. apply lookup_insert_eq.
Qed.

(** ** Administration *)

Lemma requireMasterOrStaff_Client (s : State) token user :
  valid_session s token user → InternalUser.role user = Client →
  requireMasterOrStaff token s = (Trap NotMasterOrStaff, s).
Proof.
  intros Hv Hr. unfold requireMasterOrStaff.
  rewrite (bind_Done _ _ _ _ _ (requireSession_valid _ _ _ Hv)), Hr. reflexivity.
Qed.

Lemma requireMasterOrStaff_elevated (s : State) token user :
  valid_session s token user → elevated user →
  requireMasterOrStaff token s = (Done user, s).
Proof.
  intros Hv Hel. unfold requireMasterOrStaff.
  rewrite (bind_Done _ _ _ _ _ (requireSession_valid _ _ _ Hv)).
  by destruct Hel as [-> | ->].
Qed.

Lemma requireMaster_not_Master (s : State) token user :
  valid_session s token user → InternalUser.role user ≠ Master →
  requireMaster token s = (Trap NotMaster, s).
Proof.
  intros Hv Hr. unfold requireMaster.
  rewrite (bind_Done _ _ _ _ _ (requireSession_valid _ _ _ Hv)).
  by rewrite bool_decide_eq_true_2.
Qed.

(** X9.  A Client session cannot administer: every user-management method traps
    with an [Unauthorized] message and writes nothing.  Changing roles is
    refused to Staff as well. *)
Theorem administration_needs_role (s : State) token user :
  valid_session s token user → InternalUser.role user ≠ Master →
  Unauthorized NotMaster ∧ Unauthorized NotMasterOrStaff
  ∧ (∀ userId role, updateUserRole token userId role s = (Trap NotMaster, s))
  ∧ (InternalUser.role user = Client →
       (∀ username password role,
          createUser token username password role s = (Trap NotMasterOrStaff, s))
       ∧ (∀ userId, deleteUser token userId s = (Trap NotMasterOrStaff, s))
       ∧ (∀ userId gbLimit,
            updateUserGbLimit token userId gbLimit s = (Trap NotMasterOrStaff, s))
       ∧ listUsers token s = (Trap NotMasterOrStaff, s)
       ∧ (∀ userId, getUserStorageStats token userId s = (Trap NotMasterOrStaff, s))).
Proof.
  intros Hv Hnm. split_and!.
  - by exists ": Only Master role can perform this action".
  - by exists ": Only Master or Staff roles can perform this action".
  - intros. unfold updateUserRole. by rewrite (bind_Trap _ _ _ _ _ (requireMaster_not_Master s token user Hv Hnm)).
  - intros Hc. pose proof (requireMasterOrStaff_Client s token user Hv Hc) as Hreq.
    split_and!; intros.
    + unfold createUser. by apply bind_Trap.
    + unfold deleteUser. by apply bind_Trap.
    + unfold updateUserGbLimit. by apply bind_Trap.
    + unfold listUsers. by apply bind_Trap.
    + unfold getUserStorageStats. by apply bind_Trap.
Qed.

Lemma administration_needs_role_witness :
  updateUserRole "tok-c" 2 Master demo_state = (Trap NotMaster, demo_state).
Proof.
  refine (proj1 (proj2 (proj2
    (administration_needs_role demo_state "tok-c" carol _ _))) 2 Master).
  - exists (Session.mk 4 "tok-c" 0 0). split; reflexivity.
  - discriminate.
Defined.

(** X10.  What Staff may not do, and what nobody may: Staff creates and deletes
    Client accounts only, and a Master account is neither deleted nor given
    another role, whoever asks.  Each refusal is an [Unauthorized] trap that
    writes nothing. *)
Theorem staff_and_master_limits (s : State) token actor_ :
  valid_session s token actor_ → elevated actor_ →
  (InternalUser.role actor_ = Staff →
     (∀ username password role, role ≠ Client →
        ∃ msg, Unauthorized msg
               ∧ createUser token username password role s = (Trap msg, s))
     ∧ (∀ userId u, users s !! userId = Some u → InternalUser.role u ≠ Client →
          ∃ msg, Unauthorized msg ∧ deleteUser token userId s = (Trap msg, s)))
  ∧ (∀ userId u, users s !! userId = Some u → InternalUser.role u = Master →
       (∃ msg, Unauthorized msg ∧ deleteUser token userId s = (Trap msg, s))
       ∧ (∀ role, ∃ msg, Unauthorized msg
                         ∧ updateUserRole token userId role s = (Trap msg, s))).
Proof.
  intros Hv Hel.
  pose proof (requireMasterOrStaff_elevated s token actor_ Hv Hel) as Hreq.
  split.
  - intros Hstaff. split.
    + intros username password role Hrole.
      exists "Unauthorized: Staff can only create Client accounts".
      split; [by eexists|].
      unfold createUser. rewrite (bind_Done _ _ _ _ _ Hreq), Hstaff.
      by rewrite (bool_decide_eq_true_2 (role ≠ Client)).
    + intros userId u Hu Hrole.
      exists "Unauthorized: Staff can only delete Client accounts".
      split; [by eexists|].
      unfold deleteUser. rewrite (bind_Done _ _ _ _ _ Hreq), bind_gets, Hu, Hstaff.
      by rewrite (bool_decide_eq_true_2 (InternalUser.role u ≠ Client)).
  - intros userId u Hu Hmaster. split.
    + unfold deleteUser. rewrite (bind_Done _ _ _ _ _ Hreq), bind_gets, Hu, Hmaster.
      destruct (InternalUser.role actor_) eqn:Hr.
      * exists "Unauthorized: Cannot delete Master account". split; [by eexists|done].
      * exists "Unauthorized: Staff can only delete Client accounts".
        split; [by eexists|done].
      * destruct Hel as [Hel|Hel]; congruence.
    + intros role. destruct (decide (InternalUser.role actor_ = Master)) as [Hm|Hm].
      * exists "Unauthorized: Cannot change the role of the Master account".
        split; [by eexists|].
        unfold updateUserRole, requireMaster.
        rewrite (bind_Done _ (λ _, bind (gets users) _) s s actor_).
        -- by rewrite bind_gets, Hu, Hmaster.
        -- rewrite (bind_Done _ _ _ _ _ (requireSession_valid _ _ _ Hv)), Hm. reflexivity.
      * exists NotMaster. split; [by exists ": Only Master role can perform this action"|].
        unfold updateUserRole.
        by rewrite (bind_Trap _ _ _ _ _ (requireMaster_not_Master s token actor_ Hv Hm)).
Qed.

Lemma staff_and_master_limits_witness :
  ∃ msg, Unauthorized msg
         ∧ createUser "tok-c" "eve" "pw-e" Staff demo_state = (Trap msg, demo_state).
Proof.
  refine (proj1 (proj1
    (staff_and_master_limits demo_state "tok-c" carol _ _) _) "eve" "pw-e" Staff _).
  - exists (Session.mk 4 "tok-c" 0 0). split; reflexivity.
  - right. reflexivity.
  - reflexivity.
  - discriminate.
Defined.

(** X11.  [deleteUser] closes the account and nothing else: the user's files,
    chunks and share links stay in the maps, anonymous downloads through a
    share link go on as before, and the user's sessions stay in the session
    map but are refused from now on. *)
Theorem deleteUser_leaves_files (s : State) token actor_ userId u :
  valid_session s token actor_ → elevated actor_ →
  users s !! userId = Some u → InternalUser.role u ≠ Master →
  (InternalUser.role actor_ = Staff → InternalUser.role u = Client) →
  ∃ s', call (deleteUser token userId) s = (Done tt, s')
        ∧ users s' !! userId = None
        ∧ usersByName s' !! InternalUser.username u = None
        ∧ files s' = files s ∧ chunks s' = chunks s
        ∧ shareTokens s' = shareTokens s ∧ sessions s' = sessions s
        ∧ (∀ t session, sessions s !! t = Some session → Session.userId session = userId →
             requireSession t s' = (Trap SessionUserNotFound, s'))
        ∧ (∀ fileId shareToken,
             query (downloadFile fileId None shareToken) s'
             = query (downloadFile fileId None shareToken) s).
Proof.
  intros Hv Hel Hu Hnm Hstaff.
  pose proof (requireMasterOrStaff_elevated s token actor_ Hv Hel) as Hreq.
  exists (set_users (delete userId) (set_usersByName (delete (InternalUser.username u)) s)).
  split_and!; try done.
  - apply call_Done. unfold deleteUser.
    rewrite (bind_Done _ _ _ _ _ Hreq), bind_gets, Hu.
    rewrite (bool_decide_eq_false_2 (InternalUser.role u = Master)) by done.
    assert (bool_decide (InternalUser.role actor_ = Staff)
            && bool_decide (InternalUser.role u ≠ Client) = false) as ->.
    { destruct (decide (InternalUser.role actor_ = Staff)) as [Hs|Hs].
      - rewrite (bool_decide_eq_false_2 (InternalUser.role u ≠ Client)).
        + by rewrite andb_false_r.
        + intros Hne. by apply Hne, Hstaff.
      - by rewrite (bool_decide_eq_false_2 _ Hs). }
    reflexivity.
  - simpl. apply lookup_delete_eq.
  - simpl. apply lookup_delete_eq.
  - intros t session Ht Hid. unfold requireSession. rewrite bind_gets. simpl.
    rewrite Ht, bind_gets. simpl. by rewrite Hid, lookup_delete_eq.
  - intros fileId shareToken. unfold query.
    match goal with |- (downloadFile _ _ _ ?st).1 = _ => set (s' := st) end.
    destruct (files s !! fileId) as [f|] eqn:Hf.
    2:{ unfold downloadFile. rewrite !bind_gets. simpl. by rewrite Hf. }
    assert (Hdec : resolves s shareToken fileId ∨ ¬ resolves s shareToken fileId).
    { destruct shareToken as [st|]; [|by right; intros (? & [=] & ?)].
      destruct (decide (shareTokens s !! st = Some fileId)) as [Hst|Hst].
      - left. by exists st.
      - right. by intros (? & [= <-] & ?). }
    destruct Hdec as [Hres|Hres].
    + rewrite (downloadFile_share s fileId f Hf None shareToken Hres).
      rewrite (downloadFile_share s' fileId f Hf None shareToken Hres).
      by rewrite (assemble_agree f fileId s s' (λ _ _, eq_refl)).
    + rewrite (downloadFile_no_share s fileId f Hf None shareToken Hres).
      by rewrite (downloadFile_no_share s' fileId f Hf None shareToken Hres).
Qed.

Lemma deleteUser_leaves_files_witness :
  ∃ s', call (deleteUser "tok-c" 2) demo_uploaded = (Done tt, s')
        ∧ users s' !! 2 = None
        ∧ files s' = files demo_uploaded
        ∧ requireSession "tok-a" s' = (Trap SessionUserNotFound, s').
Proof.
  destruct (deleteUser_leaves_files demo_uploaded "tok-c" carol 2 alice)
    as (s' & Hcall & Hgone & _ & Hfiles & _ & _ & _ & Hdead & _).
  - exists (Session.mk 4 "tok-c" 0 0). split; vm_compute; reflexivity.
  - right. reflexivity.
  - vm_compute. reflexivity.
  - discriminate.
  - reflexivity.
  - exists s'. split_and!; [assumption..|].
    apply (Hdead "tok-a" (Session.mk 2 "tok-a" 0 0)); [vm_compute|]; reflexivity.
Defined.

(** X12.  A limit set with [updateUserGbLimit] is what [getUserStorageStats]
    reports afterwards: quota [gbLimit * 10^9] bytes, allocation [gbLimit],
    and the usage as it was.  Only Client accounts have a limit to set. *)
Theorem updateUserGbLimit_then_stats (s : State) token actor_ userId u (gbLimit : N) :
  valid_session s token actor_ → elevated actor_ → users s !! userId = Some u →
  (InternalUser.role u ≠ Client →
     updateUserGbLimit token userId gbLimit s
     = (Trap "Can only set GB limit for Client accounts", s))
  ∧ (InternalUser.role u = Client →
     ∃ s', call (updateUserGbLimit token userId gbLimit) s = (Done tt, s')
           ∧ query (getUserStorageStats token userId) s'
             = Done (gbLimit * 1000000000, InternalUser.usedBytes u, gbLimit)).
Proof.
  intros Hv Hel Hu.
  pose proof (requireMasterOrStaff_elevated s token actor_ Hv Hel) as Hreq.
  split.
  - intros Hr. unfold updateUserGbLimit.
    rewrite (bind_Done _ _ _ _ _ Hreq), bind_gets, Hu.
    by rewrite (bool_decide_eq_true_2 (InternalUser.role u ≠ Client)).
  - intros Hr. eexists. split.
    + apply call_Done. unfold updateUserGbLimit.
      rewrite (bind_Done _ _ _ _ _ Hreq), bind_gets, Hu.
      rewrite (bool_decide_eq_false_2 (InternalUser.role u ≠ Client))
        by (by intros Hne; apply Hne).
      reflexivity.
    + assert (Hv' : valid_session
                (set_users (<[userId :=
                   InternalUser.with_gb_quota u gbLimit (gbLimit * 1000000000)]>) s)
                token actor_).
      { destruct Hv as (session & Hs & Ha). exists session. split; [done|]. simpl.
        rewrite lookup_insert_ne; [done|]. intros Heq. rewrite Heq in Hu.
        assert (actor_ = u) as -> by congruence.
        destruct Hel as [Hel|Hel]; congruence. }
      unfold query, getUserStorageStats.
      rewrite (bind_Done _ _ _ _ _ (requireMasterOrStaff_elevated _ token actor_ Hv' Hel)).
      rewrite bind_gets. simpl. by rewrite lookup_insert_eq.
Qed.

Lemma updateUserGbLimit_then_stats_witness :
  ∃ s', call (updateUserGbLimit "tok-c" 2 3) demo_state = (Done tt, s')
        ∧ query (getUserStorageStats "tok-c" 2) s' = Done (3000000000, 0, 3).
Proof.
  refine (proj2 (updateUserGbLimit_then_stats demo_state "tok-c" carol 2 alice 3 _ _ _) _).
  - exists (Session.mk 4 "tok-c" 0 0). split; reflexivity.
  - right. reflexivity.
  - reflexivity.
  - reflexivity.
Defined.

(** ** Listings *)

Lemma elem_of_values_by_key {A} (m : gmap N A) (x : A) :
  x ∈ values_by_key m ↔ ∃ k, m !! k = Some x.
Proof.
  unfold values_by_key. rewrite list_elem_of_fmap. split.
  - intros ([k y] & -> & Hin). exists k.
    rewrite merge_sort_Permutation in Hin. by apply elem_of_map_to_list.
  - intros [k Hk]. exists (k, x). split; [done|].
    rewrite merge_sort_Permutation. by apply elem_of_map_to_list.
Qed.

Lemma length_values_by_key {A} (m : gmap N A) : length (values_by_key m) = size m.
Proof.
  unfold values_by_key. by rewrite length_fmap, merge_sort_Permutation, length_map_to_list.
Qed.

(** X13.  [listFiles] shows a Client exactly the files that Client owns, and a
    Master or Staff user every file. *)
Theorem listFiles_visibility (s : State) token user :
  valid_session s token user →
  ∃ l, query (listFiles token) s = Done l
       ∧ (∀ f, f ∈ l ↔ (∃ fid, files s !! fid = Some f)
                       ∧ (elevated user ∨ File.owner f = InternalUser.id user))
       ∧ (elevated user → length l = size (files s)).
Proof.
  intros Hv. unfold query, listFiles.
  rewrite (bind_Done _ _ _ _ _ (requireSession_valid _ _ _ Hv)), bind_gets.
  destruct (InternalUser.role user) eqn:Hr; simpl; eexists; (split; [reflexivity|]).
  - split; [|intros _; apply length_values_by_key].
    intros f. rewrite elem_of_values_by_key. split; [|tauto].
    intros Hf. split; [done|]. left. by left.
  - split; [|intros _; apply length_values_by_key].
    intros f. rewrite elem_of_values_by_key. split; [|tauto].
    intros Hf. split; [done|]. left. by right.
  - split; [|intros [?|?]; congruence].
    intros f. rewrite list_elem_of_filter, elem_of_values_by_key. split.
    + intros [Ho Hf]. split; [done|by right].
    + intros [Hf [[?|?]|Ho]]; [congruence..|done].
Qed.

Lemma listFiles_visibility_witness :
  ∃ l, query (listFiles "tok-b") demo_state = Done l
       ∧ (∀ f, f ∈ l ↔ (∃ fid, files demo_state !! fid = Some f)
                       ∧ (elevated bob ∨ File.owner f = InternalUser.id bob))
       ∧ (elevated bob → length l = size (files demo_state)).
Proof.
  apply (listFiles_visibility demo_state "tok-b" bob).
  exists (Session.mk 3 "tok-b" 0 0). split; reflexivity.
Defined.

(** X14.  [listUsers] gives a Master or Staff caller the public profile of every
    stored user, and of nobody else; the password is not part of it. *)
Theorem listUsers_complete (s : State) token actor_ :
  valid_session s token actor_ → elevated actor_ →
  ∃ l, query (listUsers token) s = Done l
       ∧ length l = size (users s)
       ∧ ∀ p, p ∈ l ↔ ∃ uid u, users s !! uid = Some u ∧ p = toPublicProfile u.
Proof.
  intros Hv Hel. unfold query, listUsers.
  rewrite (bind_Done _ _ _ _ _ (requireMasterOrStaff_elevated s token actor_ Hv Hel)).
  rewrite bind_gets. eexists. split_and!; [reflexivity|..].
  - by rewrite length_fmap, length_values_by_key.
  - intros p. rewrite list_elem_of_fmap. setoid_rewrite elem_of_values_by_key. split.
    + intros (u & -> & uid & Hu). by exists uid, u.
    + intros (uid & u & Hu & ->). exists u. split; [done|by exists uid].
Qed.

Lemma listUsers_complete_witness :
  ∃ l, query (listUsers "tok-c") demo_state = Done l
       ∧ length l = size (users demo_state)
       ∧ ∀ p, p ∈ l ↔ ∃ uid u, users demo_state !! uid = Some u ∧ p = toPublicProfile u.
Proof.
  apply (listUsers_complete demo_state "tok-c" carol).
  - exists (Session.mk 4 "tok-c" 0 0). split; reflexivity.
  - right. reflexivity.
Defined.

(** ** More on uploads *)

Lemma present_count_shift (fileId : FileId) (cs : gmap string (list byte))
    (it : list N) (count : N) :
  present_count fileId cs it count = count + present_count fileId cs it 0.
Proof.
  revert count. induction it as [|i it IH]; intros count; simpl; [lia|].
  destruct (cs !! chunkKey fileId i).
  - rewrite (IH (count + 1)), (IH (0 + 1)). lia.
  - apply IH.
Qed.

Lemma present_count_bound (fileId : FileId) (cs : gmap string (list byte)) (it : list N) :
  present_count fileId cs it 0 ≤ N.of_nat (length it)
  ∧ (present_count fileId cs it 0 = N.of_nat (length it)
     ↔ ∀ i, i ∈ it → is_Some (cs !! chunkKey fileId i)).
Proof.
  induction it as [|i it [IHle IHeq]]; simpl.
  - split; [lia|]. split; [|done]. intros _ i Hi. by apply elem_of_nil in Hi.
  - destruct (cs !! chunkKey fileId i) as [c|] eqn:Hi.
    + rewrite (present_count_shift _ _ _ (0 + 1)). split; [lia|].
      split.
      * intros Heq j [->|Hj]%elem_of_cons; [by rewrite Hi|]. apply IHeq; [lia|done].
      * intros Hall. assert (present_count fileId cs it 0 = N.of_nat (length it)) as ->; [|lia].
        apply IHeq. intros j Hj. apply Hall. by right.
    + split; [lia|]. split; [lia|].
      intros Hall. destruct (Hall i) as [c Hc]; [by left|]. congruence.
Qed.

Lemma length_Nat_range_0 (n : N) : N.of_nat (length (Nat_range 0 n)) = n.
Proof. unfold Nat_range. rewrite length_fmap, length_seq. lia. Qed.

Lemma finalizeUpload_succeeds_iff (s : State) token user fileId f :
  valid_session s token user → files s !! fileId = Some f → permitted f user →
  (∃ s', call (finalizeUpload token fileId) s = (Done tt, s'))
  ↔ (∀ i, i < File.totalChunks f → present s fileId i).
Proof.
  intros Hv Hf Hp. split.
  - intros [s' Hs'].
    destruct (complete_or_first_missing s fileId (File.totalChunks f))
      as [Hall|(k & Hk & Hmiss & Hlow)]; [done|].
    rewrite (call_Trap _ _ _ _
      (finalizeUpload_first_missing s token user fileId f Hv Hf k Hp Hk Hmiss Hlow)) in Hs'.
    discriminate Hs'.
  - intros Hall. eexists.
    apply call_Done, (finalizeUpload_all_present s token user fileId f Hv Hf Hp Hall).
Qed.

(** X15.  The count [uploadChunk] returns never exceeds [totalChunks], and it
    reaches [totalChunks] exactly when [finalizeUpload] will pass. *)
Theorem uploadChunk_count_complete (s : State) token user fileId f (i : N) (d : list byte) :
  valid_session s token user → files s !! fileId = Some f → permitted f user →
  ∃ count s1,
    call (uploadChunk token fileId i d) s = (Done count, s1)
    ∧ count ≤ File.totalChunks f
    ∧ (count = File.totalChunks f
       ↔ ∃ s2, call (finalizeUpload token fileId) s1 = (Done tt, s2)).
Proof.
  intros Hv Hf Hp.
  set (s1 := set_chunks (<[chunkKey fileId i := d]>) s).
  assert (Hv1 : valid_session s1 token user) by (by apply (valid_session_same s)).
  destruct (present_count_bound fileId (chunks s1) (Nat_range 0 (File.totalChunks f)))
    as [Hle Heq].
  rewrite length_Nat_range_0 in Hle, Heq.
  exists (present_count fileId (chunks s1) (Nat_range 0 (File.totalChunks f)) 0), s1.
  split_and!.
  - apply call_Done. by apply (uploadChunk_permitted s token user fileId f).
  - exact Hle.
  - rewrite Heq, (finalizeUpload_succeeds_iff s1 token user fileId f Hv1 Hf Hp). split.
    + intros Hall j Hj. apply Hall. apply elem_of_Nat_range. lia.
    + intros Hall j Hj. apply Hall. apply elem_of_Nat_range in Hj. lia.
Qed.

Lemma uploadChunk_count_complete_witness :
  ∃ count s1,
    call (uploadChunk "tok-a" 1 2 chunk2) demo_state = (Done count, s1)
    ∧ count ≤ 3
    ∧ (count = 3 ↔ ∃ s2, call (finalizeUpload "tok-a" 1) s1 = (Done tt, s2)).
Proof.
  apply (uploadChunk_count_complete demo_state "tok-a" alice 1 report).
  - exists (Session.mk 2 "tok-a" 0 0). split; reflexivity.
  - reflexivity.
  - left. reflexivity.
Defined.

(** X16.  Uploads compose as writes to a map: chunks with different indices can
    arrive in either order, and a second blob for an index replaces the
    first without a trace. *)
Theorem uploadChunk_order_irrelevant (s : State) token user fileId f
    (i j : N) (d e : list byte) :
  valid_session s token user → files s !! fileId = Some f → permitted f user →
  (i ≠ j →
     commit (uploadChunk token fileId i d) (commit (uploadChunk token fileId j e) s)
     = commit (uploadChunk token fileId j e) (commit (uploadChunk token fileId i d) s))
  ∧ commit (uploadChunk token fileId i e) (commit (uploadChunk token fileId i d) s)
    = commit (uploadChunk token fileId i e) s
  ∧ chunks (commit (uploadChunk token fileId i e) (commit (uploadChunk token fileId i d) s))
      !! chunkKey fileId i = Some e.
Proof.
  intros Hv Hf Hp.
  assert (Hup : ∀ s0 k b, sessions s0 = sessions s → users s0 = users s →
            files s0 = files s →
            commit (uploadChunk token fileId k b) s0
            = set_chunks (<[chunkKey fileId k := b]>) s0).
  { intros s0 k b Hs Hu Hfs. eapply commit_Done.
    apply (uploadChunk_permitted s0 token user fileId f);
      [by apply (valid_session_same s)|by rewrite Hfs|done]. }
  split_and!.
  - intros Hne. rewrite (Hup s j e), (Hup s i d), !Hup by done.
    unfold set_chunks. simpl. f_equal.
    apply insert_insert_ne. by apply chunkKey_ne.
  - rewrite (Hup s i d), (Hup s i e), Hup by done.
    unfold set_chunks. simpl. by rewrite insert_insert_eq.
  - rewrite (Hup s i d), Hup by done. simpl. apply lookup_insert_eq.
Qed.

Lemma uploadChunk_order_irrelevant_witness :
  commit (uploadChunk "tok-a" 1 0 chunk0) (commit (uploadChunk "tok-a" 1 1 chunk1) demo_state)
  = commit (uploadChunk "tok-a" 1 1 chunk1) (commit (uploadChunk "tok-a" 1 0 chunk0) demo_state).
Proof.
  refine (proj1 (uploadChunk_order_irrelevant demo_state "tok-a" alice 1 report
                   0 1 chunk0 chunk1 _ _ _) _).
  - exists (Session.mk 2 "tok-a" 0 0). split; reflexivity.
  - reflexivity.
  - left. reflexivity.
  - discriminate.
Defined.

(** X17.  A file declared with zero chunks can be finalized at once, which adds
    its [totalSize] to the owner's usage, but it can never be downloaded:
    [downloadFile] refuses an empty assembly, also for the owner. *)
Theorem zero_chunk_file (s : State) token user fileId f :
  valid_session s token user → files s !! fileId = Some f → permitted f user →
  File.totalChunks f = 0 →
  call (finalizeUpload token fileId) s = (Done tt, finalized fileId f s)
  ∧ (∀ owner, users s !! File.owner f = Some owner →
       InternalUser.usedBytes <$> users (finalized fileId f s) !! File.owner f
       = Some (InternalUser.usedBytes owner + File.totalSize f))
  ∧ (∀ shareToken,
       query (downloadFile fileId (Some token) shareToken) s = Trap NoChunksFound)
  ∧ (∀ tok shareToken, resolves s shareToken fileId →
       query (downloadFile fileId tok shareToken) s = Trap NoChunksFound).
Proof.
  intros Hv Hf Hp Hz.
  assert (Hasm : ∀ s0, assemble f fileId s0 = (Trap NoChunksFound, s0)).
  { intros s0. unfold assemble. by rewrite Hz. }
  split_and!.
  - apply call_Done, (finalizeUpload_all_present s token user fileId f Hv Hf Hp).
    intros i Hi. lia.
  - intros owner Ho. unfold finalized. rewrite Ho. simpl. by rewrite lookup_insert_eq.
  - intros shareToken. unfold query.
    by rewrite (downloadFile_session s fileId f Hf token user shareToken Hv Hp), Hasm.
  - intros tok shareToken Hres. unfold query.
    by rewrite (downloadFile_share s fileId f Hf tok shareToken Hres), Hasm.
Qed.

Lemma finalized_sessions (fileId : FileId) (f : File.t) (s : State) :
  sessions (finalized fileId f s) = sessions s.
Proof. unfold finalized. by destruct (users s !! File.owner f). Qed.

Lemma deleted_sessions (fileId : FileId) (f : File.t) (s : State) :
  sessions (deleted fileId f s) = sessions s.
Proof. unfold deleted. by destruct (users s !! File.owner f), (File.shareToken f). Qed.

(** X18.  [finalizeUpload] followed by [deleteFile] leaves the accounts exactly as
    they were: the bytes credited are the bytes released. *)
Theorem finalize_then_delete_restores_ledger (s : State) token user fileId f :
  valid_session s token user → files s !! fileId = Some f → permitted f user →
  (∀ i, i < File.totalChunks f → present s fileId i) →
  ∃ s1 s2,
    call (finalizeUpload token fileId) s = (Done tt, s1)
    ∧ call (deleteFile token fileId) s1 = (Done tt, s2)
    ∧ users s2 = users s
    ∧ files s2 !! fileId = None
    ∧ query (getMyStorageStats token) s2 = query (getMyStorageStats token) s.
Proof.
  intros Hv Hf Hp Hall.
  set (f1 := File.with_status f Complete).
  assert (Hv1 : ∃ user1, valid_session (finalized fileId f s) token user1
                         ∧ permitted f1 user1).
  { destruct Hv as (session & Hs & Hu). unfold finalized.
    destruct (users s !! File.owner f) as [owner|] eqn:Ho.
    - destruct (decide (File.owner f = Session.userId session)) as [Heq|Hne].
      + eexists. split.
        * exists session. split; [done|]. simpl. rewrite Heq. apply lookup_insert_eq.
        * rewrite <-Heq, Ho in Hu. by injection Hu as <-.
      + exists user. split; [|done].
        exists session. split; [done|]. simpl. by rewrite lookup_insert_ne.
    - exists user. split; [|done]. by exists session. }
  destruct Hv1 as (user1 & Hv1 & Hp1).
  assert (Husers : users (deleted fileId f1 (finalized fileId f s)) = users s).
  { unfold deleted, finalized, f1. simpl.
    destruct (users s !! File.owner f) as [owner|] eqn:Ho; simpl.
    - rewrite lookup_insert_eq. simpl.
      assert ((File.totalSize f <=? InternalUser.usedBytes owner + File.totalSize f) = true)
        as -> by (apply N.leb_le; lia).
      replace (InternalUser.usedBytes owner + File.totalSize f - File.totalSize f)
        with (InternalUser.usedBytes owner) by lia.
      destruct (File.shareToken f); simpl; rewrite insert_insert_eq;
        apply insert_id; rewrite Ho; by destruct owner.
    - rewrite Ho. by destruct (File.shareToken f). }
  exists (finalized fileId f s), (deleted fileId f1 (finalized fileId f s)).
  split_and!.
  - apply call_Done. by apply (finalizeUpload_all_present s token user).
  - apply call_Done.
    apply (deleteFile_permitted _ token user1); [done|apply finalized_file|done].
  - exact Husers.
  - rewrite deleted_files. apply lookup_delete_eq.
  - assert (sessions (deleted fileId f1 (finalized fileId f s)) = sessions s) as Hsess.
    { by rewrite deleted_sessions, finalized_sessions. }
    unfold query, getMyStorageStats, bind.
    rewrite (requireSession_frame s _ token Hsess Husers).
    by destruct (requireSession token s) as [[u|msg] s0].
Qed.

Lemma finalize_then_delete_restores_ledger_witness :
  ∃ s1 s2,
    call (finalizeUpload "tok-a" 1) demo_uploaded = (Done tt, s1)
    ∧ call (deleteFile "tok-a" 1) s1 = (Done tt, s2)
    ∧ users s2 = users demo_uploaded.
Proof.
  destruct (finalize_then_delete_restores_ledger demo_uploaded "tok-a" alice 1 report)
    as (s1 & s2 & H1 & H2 & H3 & _).
  - exists (Session.mk 2 "tok-a" 0 0). split; vm_compute; reflexivity.
  - vm_compute. reflexivity.
  - left. reflexivity.
  - intros i Hi.
    assert (i = 0 ∨ i = 1 ∨ i = 2) as [->|[->| ->]] by (change (i < 3) in Hi; lia);
      vm_compute; by eexists.
  - exists s1, s2. split_and!; assumption.
Defined.

Lemma zero_chunk_file_witness :
  (∃ s1, call (finalizeUpload "tok-a" 2) demo_empty = (Done tt, s1))
  ∧ query (downloadFile 2 (Some "tok-a") None) demo_empty = Trap NoChunksFound.
Proof.
  destruct (zero_chunk_file demo_empty "tok-a" alice 2
              (pending_file 0 alice 2 "empty.txt" "text/plain" 4 0))
    as (Hfin & _ & Hdl & _).
  - exists (Session.mk 2 "tok-a" 0 0). split; vm_compute; reflexivity.
  - vm_compute. reflexivity.
  - left. reflexivity.
  - reflexivity.
  - split; [by eexists|apply Hdl].
Defined.

(** ** Share links *)

(** X19.  The first [generateShareLink] for a file makes a token; every later call
    returns the same token and writes nothing.  With the token and no
    session, [downloadFile] gives what the owner gets. *)
Theorem share_link_round_trip (now : Z) (s : State) token user fileId f :
  valid_session s token user → files s !! fileId = Some f → permitted f user →
  File.shareToken f = None →
  ∃ st s1,
    call (generateShareLink now token fileId) s = (Done st, s1)
    ∧ chunks s1 = chunks s ∧ users s1 = users s
    ∧ (∀ now', call (generateShareLink now' token fileId) s1 = (Done st, s1))
    ∧ query (downloadFile fileId None (Some st)) s1
      = query (downloadFile fileId (Some token) None) s1
    ∧ query (downloadFile fileId (Some token) None) s1
      = query (downloadFile fileId (Some token) None) s.
Proof.
  intros Hv Hf Hp Hnone.
  set (st := fresh_share_token now fileId).
  set (f1 := File.with_shareToken f (Some st)).
  set (s1 := set_shareTokens (<[st := fileId]>) (set_files (<[fileId := f1]>) s)).
  assert (Hv1 : valid_session s1 token user) by (by apply (valid_session_same s)).
  assert (Hf1 : files s1 !! fileId = Some f1) by apply lookup_insert_eq.
  assert (Hres : resolves s1 (Some st) fileId).
  { exists st. split; [done|]. apply lookup_insert_eq. }
  exists st, s1. split_and!; try done.
  - apply call_Done. by apply (generateShareLink_fresh now s token user fileId f).
  - intros now'. apply call_Done.
    by apply (generateShareLink_reuse now' s1 token user fileId f1).
  - unfold query.
    rewrite (downloadFile_share s1 fileId f1 Hf1 None (Some st) Hres).
    by rewrite (downloadFile_session s1 fileId f1 Hf1 token user None Hv1 Hp).
  - unfold query.
    rewrite (downloadFile_session s1 fileId f1 Hf1 token user None Hv1 Hp).
    rewrite (downloadFile_session s fileId f Hf token user None Hv Hp).
    unfold assemble, bind.
    rewrite (collect_agree s fileId s1) by done.
    destruct (for_in _ _ _ s) as [[parts|msg] s']; [|done]. simpl.
    by destruct (bool_decide (parts = [])).
Qed.

Lemma share_link_round_trip_witness :
  ∃ st s1,
    call (generateShareLink 5 "tok-a" 1) demo_uploaded = (Done st, s1)
    ∧ query (downloadFile 1 None (Some st)) s1
      = Done (Download.mk (chunk0 ++ chunk1 ++ chunk2) "text/plain" "report.txt").
Proof.
  destruct (share_link_round_trip 5 demo_uploaded "tok-a" alice 1 report)
    as (st & s1 & Hgen & _ & _ & _ & Hanon & Hsame).
  - exists (Session.mk 2 "tok-a" 0 0). split; vm_compute; reflexivity.
  - vm_compute. reflexivity.
  - left. reflexivity.
  - reflexivity.
  - exists st, s1. split; [assumption|].
    rewrite Hanon, Hsame. vm_compute. reflexivity.
Defined.

(** X20.  [deleteFile] revokes the link: the token is unbound, and a download with
    it finds no file. *)
Theorem deleteFile_revokes_link (s : State) token user fileId f (st : string) :
  valid_session s token user → files s !! fileId = Some f → permitted f user →
  File.shareToken f = Some st →
  ∃ s', call (deleteFile token fileId) s = (Done tt, s')
        ∧ shareTokens s' !! st = None
        ∧ (∀ fileId', ¬ resolves s' (Some st) fileId')
        ∧ (∀ tok, query (downloadFile fileId tok (Some st)) s' = Trap FileNotFound).
Proof.
  intros Hv Hf Hp Hst. exists (deleted fileId f s).
  assert (Hgone : shareTokens (deleted fileId f s) !! st = None).
  { rewrite deleted_shareTokens, Hst. apply lookup_delete_eq. }
  split_and!.
  - apply call_Done. by apply (deleteFile_permitted s token user).
  - done.
  - intros fileId' (st' & [= <-] & Hb). congruence.
  - intros tok. unfold query, downloadFile.
    by rewrite bind_gets, deleted_files, lookup_delete_eq.
Qed.

Lemma deleteFile_revokes_link_witness :
  ∃ s', call (deleteFile "tok-a" 1) demo_shared = (Done tt, s')
        ∧ query (downloadFile 1 None (Some (fresh_share_token 5 1))) s' = Trap FileNotFound.
Proof.
  destruct (deleteFile_revokes_link demo_shared "tok-a" alice 1
              (File.with_shareToken report (Some (fresh_share_token 5 1)))
              (fresh_share_token 5 1))
    as (s' & Hdel & _ & _ & Hdl).
  - exists (Session.mk 2 "tok-a" 0 0). split; vm_compute; reflexivity.
  - vm_compute. reflexivity.
  - left. reflexivity.
  - reflexivity.
  - exists s'. split; [assumption|apply Hdl].
Defined.

(** ** File records *)

(** X21.  A file record, once created, is only ever completed, shared or deleted:
    no call changes its owner, name, type, size or chunk count, takes back
    [Complete], or changes a share token that is set. *)
Theorem file_record_stable (c : Call) (s : State) fileId f :
  files_below_counter s → files s !! fileId = Some f →
  (files (step c s) !! fileId = None ∧ ∃ token, c = DeleteFile token fileId)
  ∨ ∃ f', files (step c s) !! fileId = Some f'
          ∧ File.fileId f' = File.fileId f ∧ File.owner f' = File.owner f
          ∧ File.filename f' = File.filename f ∧ File.mimeType f' = File.mimeType f
          ∧ File.totalSize f' = File.totalSize f
          ∧ File.totalChunks f' = File.totalChunks f
          ∧ File.created f' = File.created f
          ∧ (File.status f = Complete → File.status f' = Complete)
          ∧ (∀ st, File.shareToken f = Some st → File.shareToken f' = Some st).
Proof.
  intros Hbelow Hf.
  assert (Hsame : ∀ s', files s' = files s →
            ∃ f', files s' !! fileId = Some f'
              ∧ File.fileId f' = File.fileId f ∧ File.owner f' = File.owner f
              ∧ File.filename f' = File.filename f ∧ File.mimeType f' = File.mimeType f
              ∧ File.totalSize f' = File.totalSize f
              ∧ File.totalChunks f' = File.totalChunks f
              ∧ File.created f' = File.created f
              ∧ (File.status f = Complete → File.status f' = Complete)
              ∧ (∀ st, File.shareToken f = Some st → File.shareToken f' = Some st)).
  { intros s' ->. exists f. by split_and!. }
  destruct c; simpl.
  - right. destruct (login_commit now username password s) as [g ->]. by apply Hsame.
  - right. by apply Hsame.
  - right. destruct (registerUser_commit username password s) as [->|(uid & u & _ & ->)];
      by apply Hsame.
  - right. destruct (createUser_commit token username password role s)
      as [->|(uid & u & _ & ->)]; by apply Hsame.
  - right. destruct (deleteUser_commit token userId s) as [->|(name & ->)]; by apply Hsame.
  - right. destruct (updateUserRole_commit token userId role s) as [->|(u & _ & ->)];
      by apply Hsame.
  - right. destruct (updateUserGbLimit_commit token userId gbLimit s) as [->|(u & _ & ->)];
      by apply Hsame.
  - right. destruct (initUpload_commit now token filename mimeType totalSize totalChunks s)
      as [->|(user & _ & _ & _ & ->)]; [by apply Hsame|].
    exists f. simpl. split_and!; try done.
    rewrite lookup_insert_ne; [done|]. intros <-. rewrite Hbelow in Hf; [done|lia].
  - right. destruct (uploadChunk_commit token fileId0 chunkIndex chunkData s) as [g ->].
    by apply Hsame.
  - right. destruct (finalizeUpload_commit token fileId0 s) as [->|(f0 & Hf0 & ->)];
      [by apply Hsame|].
    assert (files (finalized fileId0 f0 s) = <[fileId0 := File.with_status f0 Complete]> (files s))
      as -> by (unfold finalized; by destruct (users s !! File.owner f0)).
    destruct (decide (fileId0 = fileId)) as [->|Hne].
    + rewrite lookup_insert_eq. assert (f0 = f) as -> by congruence.
      eexists. by split_and!.
    + rewrite lookup_insert_ne by done. exists f. by split_and!.
  - destruct (deleteFile_commit token fileId0 s) as [->|(f0 & Hf0 & ->)];
      [right; by apply Hsame|].
    rewrite deleted_files. destruct (decide (fileId0 = fileId)) as [->|Hne].
    + left. rewrite lookup_delete_eq. split; [done|by exists token].
    + right. rewrite lookup_delete_ne by done. exists f. by split_and!.
  - right. destruct (generateShareLink_commit now token fileId0 s)
      as [->|(f0 & Hf0 & Hnone & ->)]; [by apply Hsame|]. simpl.
    destruct (decide (fileId0 = fileId)) as [->|Hne].
    + rewrite lookup_insert_eq. assert (f0 = f) as -> by congruence.
      eexists. split_and!; try done. intros st Hst. congruence.
    + rewrite lookup_insert_ne by done. exists f. by split_and!.
Qed.

Lemma file_record_stable_witness :
  (files (step (FinalizeUpload "tok-a" 1) demo_uploaded) !! 1 = None
   ∧ ∃ token, FinalizeUpload "tok-a" 1 = DeleteFile token 1)
  ∨ ∃ f', files (step (FinalizeUpload "tok-a" 1) demo_uploaded) !! 1 = Some f'
          ∧ File.fileId f' = 1 ∧ File.owner f' = 2
          ∧ File.filename f' = "report.txt" ∧ File.mimeType f' = "text/plain"
          ∧ File.totalSize f' = 6 ∧ File.totalChunks f' = 3 ∧ File.created f' = 0%Z
          ∧ (File.status report = Complete → File.status f' = Complete)
          ∧ (∀ st, File.shareToken report = Some st → File.shareToken f' = Some st).
Proof.
  apply (file_record_stable (FinalizeUpload "tok-a" 1) demo_uploaded 1 report).
  - intros fid Hfid. change (files demo_uploaded) with ({[ 1 := report ]} : gmap N File.t).
    change (fileIdCounter demo_uploaded) with 1 in Hfid.
    apply lookup_singleton_ne. lia.
  - vm_compute. reflexivity.
Defined.

(** * The browser client *)

(** ** Cutting a file into chunks *)

Lemma Nat_range_app (a b c : N) :
  a ≤ b → b ≤ c → Nat_range a b ++ Nat_range b c = Nat_range a c.
Proof.
  intros Hab Hbc. unfold Nat_range. rewrite <-fmap_app. f_equal.
  replace (N.to_nat c - N.to_nat a)%nat
    with ((N.to_nat b - N.to_nat a) + (N.to_nat c - N.to_nat b))%nat by lia.
  rewrite seq_app. do 2 f_equal. lia.
Qed.

Lemma Nat_range_empty (a b : N) : b ≤ a → Nat_range a b = [].
Proof.
  intros Hba. unfold Nat_range.
  by replace (N.to_nat b - N.to_nat a)%nat with 0%nat by lia.
Qed.

Lemma length_Nat_range (a b : N) : length (Nat_range a b) = (N.to_nat b - N.to_nat a)%nat.
Proof. unfold Nat_range. by rewrite length_fmap, length_seq. Qed.

Lemma NoDup_Nat_range (a b : N) : NoDup (Nat_range a b).
Proof.
  unfold Nat_range. apply NoDup_fmap_2; [|apply NoDup_seq].
  intros x y. apply Nat2N.inj.
Qed.

Lemma batches_cover (fuel : nat) (a n : N) :
  (N.to_nat (n - a) ≤ fuel)%nat →
  concat (batches fuel a n) = Nat_range a n
  ∧ Forall (λ batch, (1 ≤ length batch ≤ N.to_nat CONCURRENT_CHUNKS)%nat) (batches fuel a n).
Proof.
  revert a. induction fuel as [|fuel IH]; intros a Hfuel; simpl.
  - split; [|constructor]. symmetry. apply Nat_range_empty. lia.
  - destruct (N.ltb_spec a n) as [Hlt|Hge].
    + destruct (IH (a + CONCURRENT_CHUNKS)) as [IHc IHf]; [unfold CONCURRENT_CHUNKS; lia|].
      split.
      * simpl. rewrite IHc. unfold CONCURRENT_CHUNKS in *.
        destruct (N.le_gt_cases (a + 3) n) as [Hle|Hgt].
        -- rewrite N.min_l by done. apply Nat_range_app; lia.
        -- rewrite N.min_r by lia. rewrite (Nat_range_empty (a + 3) n) by lia.
           apply app_nil_r.
      * constructor; [|done]. rewrite length_Nat_range. unfold CONCURRENT_CHUNKS. lia.
    + split; [|constructor]. symmetry. by apply Nat_range_empty.
Qed.

Lemma take_add {A} (l : list A) (a b : nat) :
  take (a + b) l = take a l ++ take b (drop a l).
Proof.
  revert l. induction a as [|a IH]; intros [|x l]; simpl; try done.
  - by rewrite take_nil.
  - by rewrite IH.
Qed.

Lemma chunk_data_take_drop (bytes : list byte) (i : N) :
  chunk_data bytes i
  = take (N.to_nat CHUNK_SIZE) (drop (N.to_nat (i * CHUNK_SIZE)) bytes).
Proof.
  unfold chunk_data, chunk_end, slice.
  set (start := i * CHUNK_SIZE).
  destruct (N.le_gt_cases (start + CHUNK_SIZE) (N.of_nat (length bytes))) as [Hle|Hgt].
  - rewrite N.min_l by done. f_equal. lia.
  - rewrite N.min_r by lia. rewrite Nat2N.id.
    rewrite !take_ge; [done|rewrite length_drop; lia..].
Qed.

Lemma chunks_needed_enough (size : N) :
  size ≤ chunks_needed size * CHUNK_SIZE
  ∧ (0 < size → (chunks_needed size - 1) * CHUNK_SIZE < size)
  ∧ (chunks_needed size = 0 ↔ size = 0).
Proof.
  unfold chunks_needed.
  assert (0 < CHUNK_SIZE) as Hpos by done.
  pose proof (N.div_mod (size + (CHUNK_SIZE - 1)) CHUNK_SIZE) as Hdm.
  pose proof (N.mod_lt (size + (CHUNK_SIZE - 1)) CHUNK_SIZE) as Hm.
  set (q := (size + (CHUNK_SIZE - 1)) / CHUNK_SIZE) in *.
  set (r := (size + (CHUNK_SIZE - 1)) mod CHUNK_SIZE) in *.
  assert (size + (CHUNK_SIZE - 1) = CHUNK_SIZE * q + r) as Heq by (apply Hdm; lia).
  assert (r < CHUNK_SIZE) as Hr by (apply Hm; lia).
  clearbody q r. clear Hdm Hm. revert Heq Hr Hpos. generalize CHUNK_SIZE. intros C Heq Hr Hpos.
  split_and!; [nia|nia|]. split; [intros ->; lia|intros ->].
  destruct q as [|q]; [done|]. nia.
Qed.

Lemma concat_chunk_data (bytes : list byte) (n : N) :
  concat (chunk_data bytes <$> Nat_range 0 n) = take (N.to_nat (n * CHUNK_SIZE)) bytes.
Proof.
  induction n as [|n IH] using N.peano_ind; [done|].
  rewrite Nat_range_0_succ, fmap_app, concat_app, IH. simpl.
  rewrite app_nil_r, chunk_data_take_drop, <-take_add. f_equal. lia.
Qed.

(** X22.  The hook's plan is sound: the batch loop ends by itself and visits the
    indices [0 .. totalChunks-1] once each, in order, at most
    [CONCURRENT_CHUNKS] per batch; the chunk buffers are non-empty, hold at
    most [CHUNK_SIZE] bytes, and concatenated in index order they are the
    file; the last one ends at [file.size]; an empty file has no chunk. *)
Theorem upload_plan_covers_file (bytes : list byte) :
  let size := N.of_nat (length bytes) in
  let totalChunks := chunks_needed size in
  (∀ fuel, (N.to_nat totalChunks ≤ fuel)%nat →
     concat (batches fuel 0 totalChunks) = Nat_range 0 totalChunks
     ∧ Forall (λ batch, (1 ≤ length batch ≤ 3)%nat) (batches fuel 0 totalChunks))
  ∧ concat (chunk_data bytes <$> Nat_range 0 totalChunks) = bytes
  ∧ (∀ i, i < totalChunks →
       (1 ≤ length (chunk_data bytes i))%nat
       ∧ N.of_nat (length (chunk_data bytes i)) ≤ CHUNK_SIZE)
  ∧ (0 < totalChunks → chunk_end bytes (totalChunks - 1) = size)
  ∧ (totalChunks = 0 ↔ bytes = []).
Proof.
  intros size totalChunks.
  destruct (chunks_needed_enough size) as (Henough & Hlast & Hzero).
  fold totalChunks in Henough, Hlast, Hzero.
  split_and!.
  - intros fuel Hfuel. apply (batches_cover fuel 0 totalChunks). lia.
  - rewrite concat_chunk_data. apply take_ge. subst size. lia.
  - intros i Hi. rewrite chunk_data_take_drop, length_take, length_drop.
    assert (0 < size) as Hpos by (destruct (decide (size = 0)) as [H0|]; [apply Hzero in H0|]; lia).
    specialize (Hlast Hpos).
    assert (i * CHUNK_SIZE < size) by (unfold CHUNK_SIZE in *; nia).
    subst size. unfold CHUNK_SIZE in *. split; lia.
  - intros Hpos. unfold chunk_end.
    apply N.min_r. unfold CHUNK_SIZE in *. nia.
  - rewrite Hzero. subst size. split.
    + intros H0. apply length_zero_iff_nil. lia.
    + by intros ->.
Qed.

(** ** Upload, then download *)

Lemma upload_all_lookup (s : State) token user fileId f (ups : list (N * list byte)) :
  valid_session s token user → files s !! fileId = Some f → permitted f user →
  NoDup ups.*1 →
  ∃ cs, upload_all token fileId ups s = set_chunks (λ _, cs) s
        ∧ (∀ i d, (i, d) ∈ ups → cs !! chunkKey fileId i = Some d)
        ∧ (∀ k, k ∉ ups.*1 → cs !! chunkKey fileId k = chunks s !! chunkKey fileId k).
Proof.
  intros Hv Hf Hp. revert s Hv Hf.
  induction ups as [|[i d] ups IH]; intros s Hv Hf Hnd.
  - exists (chunks s). split_and!; [by destruct s| |done].
    intros i d Hi. by apply elem_of_nil in Hi.
  - simpl in Hnd. apply NoDup_cons in Hnd as [Hni Hnd].
    simpl. unfold commit.
    rewrite (call_Done _ _ _ _ (uploadChunk_permitted s _ _ _ _ i d Hv Hf Hp)). simpl.
    destruct (IH (set_chunks (<[chunkKey fileId i := d]>) s))
      as (cs & -> & Hin & Hout); [by apply (valid_session_same s)|done..|].
    exists cs. split_and!; [done| |].
    + intros j e [[= -> ->]|Hj]%elem_of_cons; [|by apply Hin].
      rewrite Hout by done. simpl. apply lookup_insert_eq.
    + intros k [Hne Hk]%not_elem_of_cons. rewrite Hout by done. simpl.
      apply lookup_insert_ne, chunkKey_ne. done.
Qed.

Lemma finalized_session (s : State) token user fileId f :
  valid_session s token user → permitted f user →
  ∃ user1, valid_session (finalized fileId f s) token user1
           ∧ permitted (File.with_status f Complete) user1.
Proof.
  intros (session & Hs & Hu) Hp. unfold finalized.
  destruct (users s !! File.owner f) as [owner|] eqn:Ho.
  - destruct (decide (File.owner f = Session.userId session)) as [Heq|Hne].
    + eexists. split.
      * exists session. split; [done|]. simpl. rewrite Heq. apply lookup_insert_eq.
      * rewrite <-Heq, Ho in Hu. by injection Hu as <-.
    + exists user. split; [|done].
      exists session. split; [done|]. simpl. by rewrite lookup_insert_ne.
  - exists user. split; [|done]. by exists session.
Qed.

Lemma Nat_range_0_of_nat_lookup (n : N) (i : nat) :
  Nat_range 0 n !! i = if decide (N.of_nat i < n) then Some (N.of_nat i) else None.
Proof.
  unfold Nat_range. rewrite list_lookup_fmap. simpl. rewrite Nat.sub_0_r.
  case_decide as Hi.
  - rewrite lookup_seq_lt by lia. done.
  - rewrite lookup_seq_ge by lia. done.
Qed.

Lemma chunk_uploads_range (bytes : list byte) :
  chunk_uploads bytes
  = (λ i, (i, chunk_data bytes i)) <$> Nat_range 0 (chunks_needed (N.of_nat (length bytes))).
Proof.
  unfold chunk_uploads.
  destruct (batches_cover (N.to_nat (chunks_needed (N.of_nat (length bytes)))) 0
              (chunks_needed (N.of_nat (length bytes)))) as [-> _]; [lia|done].
Qed.

(** X23.  What the upload hook sends, the backend gives back: after [initUpload],
    the hook's [uploadChunk] calls in whatever order they arrive, and
    [finalizeUpload], the owner's [downloadFile] returns the bytes of the
    file, with the name and type given at upload.  The exception is the
    empty file, which is stored and finalized but cannot be downloaded. *)
Theorem upload_then_download (now : Z) (s : State) token user
    (name type : string) (bytes : list byte) (ups : list (N * list byte)) :
  valid_session s token user →
  InternalUser.usedBytes user + N.of_nat (length bytes) ≤ InternalUser.quota user →
  fileIdCounter s < Nat32_max →
  ups ≡ₚ chunk_uploads bytes →
  let size := N.of_nat (length bytes) in
  let totalChunks := chunks_needed size in
  let mime := type_or_default type in
  let fid := fileIdCounter s + 1 in
  let s1 := commit (initUpload now token name mime size totalChunks) s in
  let s2 := upload_all token fid ups s1 in
  let s3 := commit (finalizeUpload token fid) s2 in
  (call (initUpload now token name mime size totalChunks) s).1 = Done fid
  ∧ (call (finalizeUpload token fid) s2).1 = Done tt
  ∧ File.status <$> files s3 !! fid = Some Complete
  ∧ query (downloadFile fid (Some token) None) s3
    = match bytes with
      | [] => Trap NoChunksFound
      | _ => Done (Download.mk bytes mime name)
      end.
Proof.
  intros Hv Hq Hc Hperm size totalChunks mime fid s1 s2 s3.
  set (pf := pending_file now user fid name mime size totalChunks).
  pose proof (initUpload_within_quota now s token user name mime size totalChunks Hv Hq Hc)
    as Hinit.
  assert (Hs1 : s1 = set_files (<[fid := pf]>) (set_fileIdCounter fid s)).
  { subst s1. by rewrite (commit_Done _ _ _ _ Hinit). }
  assert (Hv1 : valid_session s1 token user) by (rewrite Hs1; by apply (valid_session_same s)).
  assert (Hf1 : files s1 !! fid = Some pf) by (rewrite Hs1; apply lookup_insert_eq).
  assert (Hp : permitted pf user) by (by left).
  rewrite chunk_uploads_range in Hperm. fold size totalChunks in Hperm.
  assert (Hnd : NoDup ups.*1).
  { rewrite Hperm, <-list_fmap_compose.
    change (NoDup (id <$> Nat_range 0 totalChunks)).
    rewrite list_fmap_id. apply NoDup_Nat_range. }
  destruct (upload_all_lookup s1 token user fid pf ups Hv1 Hf1 Hp Hnd)
    as (cs & Hs2 & Hin & _).
  fold s2 in Hs2.
  assert (Hv2 : valid_session s2 token user) by (rewrite Hs2; by apply (valid_session_same s1)).
  assert (Hf2 : files s2 !! fid = Some pf) by (by rewrite Hs2).
  assert (Hstored : ∀ i, i < totalChunks →
            chunks s2 !! chunkKey fid i = Some (chunk_data bytes i)).
  { intros i Hi. rewrite Hs2. simpl. apply Hin. rewrite Hperm.
    apply list_elem_of_fmap. exists i. split; [done|]. apply elem_of_Nat_range. lia. }
  assert (Hfin : finalizeUpload token fid s2 = (Done tt, finalized fid pf s2)).
  { apply (finalizeUpload_all_present s2 token user fid pf Hv2 Hf2 Hp).
    intros i Hi. unfold present. by rewrite Hstored. }
  assert (Hs3 : s3 = finalized fid pf s2) by (subst s3; by rewrite (commit_Done _ _ _ _ Hfin)).
  split_and!.
  - by rewrite (call_Done _ _ _ _ Hinit).
  - by rewrite (call_Done _ _ _ _ Hfin).
  - by rewrite Hs3, finalized_file.
  - destruct (finalized_session s2 token user fid pf Hv2 Hp) as (user1 & Hv3 & Hp3).
    rewrite <-Hs3 in Hv3.
    assert (Hf3 : files s3 !! fid = Some (File.with_status pf Complete))
      by (rewrite Hs3; apply finalized_file).
    assert (Hc3 : chunks s3 = chunks s2)
      by (rewrite Hs3; unfold finalized; by destruct (users s2 !! File.owner pf)).
    unfold query.
    rewrite (downloadFile_session s3 fid _ Hf3 token user1 None Hv3 Hp3).
    assert (Hlen : N.of_nat (length (chunk_data bytes <$> Nat_range 0 totalChunks))
                   = totalChunks)
      by (rewrite length_fmap, length_Nat_range; lia).
    assert (Hst : ∀ i b, (chunk_data bytes <$> Nat_range 0 totalChunks) !! i = Some b →
                    chunks s3 !! chunkKey fid (N.of_nat i) = Some b).
    { intros i b Hb. rewrite list_lookup_fmap in Hb.
      rewrite Nat_range_0_of_nat_lookup in Hb.
      destruct (decide (N.of_nat i < totalChunks)) as [Hi|Hi]; [|done].
      injection Hb as <-. rewrite Hc3. by apply Hstored. }
    unfold assemble. simpl File.totalChunks.
    rewrite (bind_Done _ _ _ _ _ (collect_range s3 fid _ _ Hlen Hst)).
    assert (Hcat : flatten (chunk_data bytes <$> Nat_range 0 totalChunks) = bytes).
    { unfold flatten. rewrite concat_chunk_data. apply take_ge.
      destruct (chunks_needed_enough size) as [Hen _]. subst size totalChunks. lia. }
    destruct (chunks_needed_enough size) as (_ & _ & Hzero).
    destruct bytes as [|b bytes].
    + assert (totalChunks = 0) as -> by (by apply Hzero). reflexivity.
    + assert (totalChunks ≠ 0) as Hnz by (intros H0; by apply Hzero in H0).
      rewrite bool_decide_eq_false_2.
      * rewrite bind_trap_if_false. simpl. by rewrite Hcat.
      * intros Hnil. rewrite Hnil in Hlen. simpl in Hlen. lia.
Qed.

Lemma upload_then_download_witness :
  query (downloadFile 2 (Some "tok-a") None)
    (commit (finalizeUpload "tok-a" 2)
       (upload_all "tok-a" 2 (chunk_uploads (chunk0 ++ chunk1))
          (commit (initUpload 0 "tok-a" "notes.txt" (type_or_default "") 4 (chunks_needed 4))
             demo_state)))
  = Done (Download.mk (chunk0 ++ chunk1) "application/octet-stream" "notes.txt").
Proof.
  destruct (upload_then_download 0 demo_state "tok-a" alice "notes.txt" ""
              (chunk0 ++ chunk1) (chunk_uploads (chunk0 ++ chunk1)))
    as (_ & _ & _ & Hdl).
  - exists (Session.mk 2 "tok-a" 0 0). split; vm_compute; reflexivity.
  - vm_compute. discriminate.
  - vm_compute. reflexivity.
  - reflexivity.
  - exact Hdl.
Defined.

(** ** The chunk cache and the hooks that use it *)

Lemma Number_toString_no_sep (n : Z) : no_sep (Number_toString n).
Proof.
  unfold Number_toString, pretty, pretty_Z. destruct n as [|p|p].
  - apply no_sep_cons; [done|apply no_sep_empty].
  - apply (Nat_toText_no_sep (N.pos p)).
  - apply no_sep_cons; [done|]. apply (Nat_toText_no_sep (N.pos p)).
Qed.

Lemma cacheKey_inj (fileId fileId' chunkIndex chunkIndex' : Z) :
  cacheKey fileId chunkIndex = cacheKey fileId' chunkIndex' →
  fileId = fileId' ∧ chunkIndex = chunkIndex'.
Proof.
  unfold cacheKey. intros H.
  apply split_at_sep in H as [H1 H2]; [|apply Number_toString_no_sep..].
  split; by apply (inj pretty).
Qed.

(** X24.  For safe integers, the cache returns for a file and index what was
    last stored under that very file and index: entries of different files
    or indices never collide, although the key is a text.  After
    [clearChunkCache] nothing is cached. *)
Theorem chunk_cache_set_get {B : Type} (chunkMap : gmap string B)
    (fileId chunkIndex fileId' chunkIndex' : Z) (blob : B) :
  safe_integer fileId → safe_integer chunkIndex →
  safe_integer fileId' → safe_integer chunkIndex' →
  getCachedChunk (setCachedChunk chunkMap fileId chunkIndex blob) fileId' chunkIndex'
  = (if bool_decide (fileId = fileId' ∧ chunkIndex = chunkIndex') then Some blob
     else getCachedChunk chunkMap fileId' chunkIndex')
  ∧ getCachedChunk (clearChunkCache (setCachedChunk chunkMap fileId chunkIndex blob))
      fileId' chunkIndex' = None.
Proof.
  intros _ _ _ _. split; [|apply lookup_empty].
  unfold getCachedChunk, setCachedChunk. case_bool_decide as Heq.
  - destruct Heq as [-> ->]. apply lookup_insert_eq.
  - apply lookup_insert_ne. intros Hk. by apply cacheKey_inj in Hk.
Qed.

Lemma chunk_cache_set_get_witness :
  getCachedChunk (setCachedChunk report_cached 11 1 report_blob) 1 (-1) = Some report_blob
  ∧ getCachedChunk (setCachedChunk report_cached 1 (-1) (chunk0, "text/plain")) 1 11 = None
  ∧ getCachedChunk (setCachedChunk report_cached 1 11 (chunk0, "text/plain")) 11 1 = None.
Proof.
  assert (safe_integer 1 ∧ safe_integer (-1) ∧ safe_integer 11) as (H1 & Hm1 & H11)
    by (unfold safe_integer, MAX_SAFE_INTEGER; lia).
  split_and!.
  - exact (proj1 (chunk_cache_set_get report_cached 11 1 1 (-1) report_blob H11 H1 H1 Hm1)).
  - exact (proj1 (chunk_cache_set_get report_cached 1 (-1) 1 11 (chunk0, "text/plain")
                    H1 Hm1 H1 H11)).
  - exact (proj1 (chunk_cache_set_get report_cached 1 11 11 1 (chunk0, "text/plain")
                    H1 H11 H11 H1)).
Defined.

(** X25.  A download can only succeed with the actor.  Once a download of a
    file has succeeded, every later [download] of that file that has the
    actor hands the same blob to the browser and leaves the cache as it is,
    whatever the credentials given and whatever has happened to the file or
    the session in the backend since: the backend is not asked again.
    Without the actor a later download reports that and leaves the cache as
    it is.  The download changes the cache for this file only. *)
Theorem download_repeat_from_cache {B : Type} (mkBlob : Download.t → string → B)
    (actor : bool) (s : State) (chunkMap chunkMap' : gmap string B) (fileId : N)
    (token shareToken : option string) (filename mimeType : string)
    (blob : B) (name : string) :
  safe_integer (Z.of_N fileId) →
  download mkBlob actor s chunkMap fileId token shareToken filename mimeType
  = (Done (blob, name), chunkMap') →
  actor = true
  ∧ (∀ s' token' shareToken' filename' mimeType',
       download mkBlob true s' chunkMap' fileId token' shareToken' filename' mimeType'
       = (Done (blob, filename'), chunkMap')
       ∧ download mkBlob false s' chunkMap' fileId token' shareToken' filename' mimeType'
         = (Trap ActorNotAvailable, chunkMap'))
  ∧ (∀ fileId' chunkIndex,
       safe_integer (Z.of_N fileId') → safe_integer chunkIndex → fileId' ≠ fileId →
       getCachedChunk chunkMap' (Z.of_N fileId') chunkIndex
       = getCachedChunk chunkMap (Z.of_N fileId') chunkIndex).
Proof.
  intros _. unfold download. destruct actor; [simpl|done].
  destruct (getCachedChunk chunkMap (Z.of_N fileId) (-1)) as [cached|] eqn:Hc.
  - intros [= -> _ ->]. split_and!; [done| |done]. intros. by rewrite Hc.
  - destruct (query (downloadFile fileId token shareToken) s) as [result|msg]; [|done].
    intros [= <- _ <-]. split_and!; [done| |].
    + intros. unfold getCachedChunk, setCachedChunk. by rewrite lookup_insert_eq.
    + intros fileId' chunkIndex _ _ Hne. unfold getCachedChunk, setCachedChunk.
      apply lookup_insert_ne. intros Hk. apply cacheKey_inj in Hk as [Hk _]. lia.
Qed.

Lemma download_repeat_from_cache_witness :
  download demo_blob true demo_uploaded ∅ 1 (Some "tok-a") None "r.pdf" "application/pdf"
  = (Done (report_blob, "report.txt"), report_cached)
  ∧ download demo_blob true demo_state report_cached 1 None None "again.txt" ""
    = (Done (report_blob, "again.txt"), report_cached)
  ∧ download demo_blob false demo_uploaded report_cached 1 (Some "tok-a") None "again.txt" ""
    = (Trap ActorNotAvailable, report_cached).
Proof.
  assert (download demo_blob true demo_uploaded ∅ 1 (Some "tok-a") None "r.pdf"
            "application/pdf"
          = (Done (report_blob, "report.txt"), report_cached)) as Hfirst
    by (vm_compute; reflexivity).
  assert (safe_integer (Z.of_N 1)) as Hsafe by (unfold safe_integer, MAX_SAFE_INTEGER; lia).
  destruct (download_repeat_from_cache demo_blob true demo_uploaded ∅ report_cached 1
              (Some "tok-a") None "r.pdf" "application/pdf" report_blob "report.txt"
              Hsafe Hfirst) as (_ & Hlater & _).
  split_and!.
  - exact Hfirst.
  - exact (proj1 (Hlater demo_state None None "again.txt" "")).
  - exact (proj2 (Hlater demo_uploaded (Some "tok-a") None "again.txt" "")).
Defined.

(** X26.  With the actor, deleting a file through [useDeleteFile] empties the
    cache, so that a [download] of the file afterwards asks the backend and
    fails with "File not found", whatever credentials it is given.  When the
    backend refuses the deletion, or the hook has no actor, the backend
    state and the cache are left as they are. *)
Theorem useDeleteFile_evicts {B : Type} (mkBlob : Download.t → string → B)
    (s : State) (chunkMap : gmap string B) token user fileId f :
  valid_session s token user → files s !! fileId = Some f →
  safe_integer (Z.of_N fileId) →
  (permitted f user →
     useDeleteFile true s chunkMap token fileId = (Done tt, deleted fileId f s, ∅)
     ∧ files (deleted fileId f s) !! fileId = None
     ∧ ∀ token' shareToken filename mimeType,
         download mkBlob true (deleted fileId f s) (∅ : gmap string B) fileId token'
           shareToken filename mimeType
         = (Trap FileNotFound, ∅))
  ∧ (¬ permitted f user →
     useDeleteFile true s chunkMap token fileId = (Trap NotOwner, s, chunkMap))
  ∧ useDeleteFile false s chunkMap token fileId = (Trap ActorNotAvailable, s, chunkMap).
Proof.
  intros Hv Hf _. split_and!; [intros Hp|intros Hp|done]; unfold useDeleteFile; simpl.
  - rewrite (call_Done _ _ _ _ (deleteFile_permitted s token user fileId f Hv Hf Hp)).
    assert (files (deleted fileId f s) !! fileId = None) as Hgone
      by (rewrite deleted_files; apply lookup_delete_eq).
    split_and!; [done..|]. intros token' shareToken filename mimeType.
    unfold download, getCachedChunk. simpl. rewrite lookup_empty.
    unfold query, downloadFile. by rewrite bind_gets, Hgone.
  - by rewrite (call_Trap _ _ _ _ (deleteFile_not_permitted s token user fileId f Hv Hf Hp)).
Qed.

Lemma useDeleteFile_evicts_witness :
  files demo_uploaded !! 1 = Some report
  ∧ useDeleteFile true demo_uploaded report_cached "tok-a" 1
    = (Done tt, deleted 1 report demo_uploaded, ∅)
  ∧ files (deleted 1 report demo_uploaded) !! 1 = None
  ∧ useDeleteFile true demo_uploaded report_cached "tok-b" 1
    = (Trap NotOwner, demo_uploaded, report_cached)
  ∧ useDeleteFile false demo_uploaded report_cached "tok-a" 1
    = (Trap ActorNotAvailable, demo_uploaded, report_cached).
Proof.
  assert (files demo_uploaded !! 1 = Some report) as Hf by (vm_compute; reflexivity).
  assert (safe_integer (Z.of_N 1)) as Hsafe by (unfold safe_integer, MAX_SAFE_INTEGER; lia).
  assert (valid_session demo_uploaded "tok-a" alice) as Hva
    by (exists (Session.mk 2 "tok-a" 0 0); split; vm_compute; reflexivity).
  assert (valid_session demo_uploaded "tok-b" bob) as Hvb
    by (exists (Session.mk 3 "tok-b" 0 0); split; vm_compute; reflexivity).
  destruct (useDeleteFile_evicts demo_blob demo_uploaded report_cached "tok-a" alice 1 report
              Hva Hf Hsafe) as (Hdel & _ & Hnone).
  destruct (useDeleteFile_evicts demo_blob demo_uploaded report_cached "tok-b" bob 1 report
              Hvb Hf Hsafe) as (_ & Hrefused & _).
  destruct Hdel as (Hdone & Hgone & _); [by left|].
  split_and!; [exact Hf|exact Hdone|exact Hgone| |exact Hnone].
  apply Hrefused. intros [H|[H|H]]; discriminate H.
Defined.

(** X27.  With the actor, logging out through [useLogout] succeeds, removes
    the session and empties the cache: a [download] with the session that
    was logged out, for any file and whatever was cached before, is refused
    by the backend, and nothing is cached by the attempt.  Without the actor
    [useLogout] fails: the session and the cache stay as they are. *)
Theorem useLogout_clears {B : Type} (mkBlob : Download.t → string → B)
    (s : State) (chunkMap : gmap string B) (token : SessionToken) :
  let s' := set_sessions (delete token) s in
  useLogout true s chunkMap token = (Done tt, s', ∅)
  ∧ sessions s' !! token = None
  ∧ useLogout false s chunkMap token = (Trap ActorNotAvailable, s, chunkMap)
  ∧ ∀ fileId filename mimeType,
      safe_integer (Z.of_N fileId) →
      download mkBlob true s' (∅ : gmap string B) fileId (Some token) None filename mimeType
      = (Trap (match files s !! fileId with
               | Some _ => InvalidSession
               | None => FileNotFound
               end), ∅).
Proof.
  intros s'. split_and!; [done|apply lookup_delete_eq|done|].
  intros fileId filename mimeType _.
  unfold download, getCachedChunk. simpl. rewrite lookup_empty. unfold query.
  destruct (files s !! fileId) as [f|] eqn:Hf.
  - rewrite (downloadFile_no_share s' fileId f Hf) by (by intros (? & [=] & ?)).
    unfold requireSession. rewrite bind_gets. subst s'. simpl.
    rewrite lookup_delete_eq. done.
  - unfold downloadFile. rewrite bind_gets. subst s'. simpl. by rewrite Hf.
Qed.
